(** * Node-JS-Concepts: buffers, stream pipelines and one-shot events

    A shallow embedding of the feature modules [buffer.ts],
    [pipingExample.ts], [streams.ts], [eventEmitter.ts],
    [childProcessExample.ts] and [workerTask.js], and of the routes of
    [index.ts] that use the emitter and the pipeline.

    JavaScript strings are sequences of UTF-16 code units and Node buffers
    are sequences of bytes; both are lists of integers here, with the range
    of the elements stated where a proof needs it.  The functions of the
    platform that the features call ([Buffer.from], [buf.toString],
    [String.prototype.slice], [toUpperCase], the stream classes and the
    event emitter) are embedded next to the feature that uses them. *)

From Stdlib Require Import ZArith List Bool Lia Arith.
From stdpp Require Import base gmap strings.
Import ListNotations.

Local Open Scope Z_scope.

Ltac Zify.zify_post_hook ::= Z.to_euclidean_division_equations.

(** ** JavaScript strings and byte buffers *)

(** A string value: its UTF-16 code units, each in [0, 65536). *)
Definition jsstring := list Z.

(** The contents of a [Buffer]: bytes, each in [0, 256). *)
Definition bytes := list Z.

Definition valid_units (s : jsstring) : Prop :=
  Forall (fun u => 0 <= u < 65536) s.

Definition valid_bytes (b : bytes) : Prop :=
  Forall (fun x => 0 <= x < 256) b.

Ltac zbool :=
  repeat match goal with
    | H : context [?a <=? ?b] |- _ => destruct (Z.leb_spec a b)
    | |- context [?a <=? ?b] => destruct (Z.leb_spec a b)
    | H : context [?a <? ?b] |- _ => destruct (Z.ltb_spec a b)
    | |- context [?a <? ?b] => destruct (Z.ltb_spec a b)
    | H : context [?a =? ?b] |- _ => destruct (Z.eqb_spec a b)
    | |- context [?a =? ?b] => destruct (Z.eqb_spec a b)
    end.

Ltac zsplit :=
  repeat match goal with
    | |- context [?a <=? ?b] => destruct (Z.leb_spec a b); try lia
    | |- context [?a <? ?b] => destruct (Z.ltb_spec a b); try lia
    | |- context [?a =? ?b] => destruct (Z.eqb_spec a b); try lia
    end.

Module Utf.

Definition is_high (u : Z) : bool := (0xD800 <=? u) && (u <=? 0xDBFF).
Definition is_low (u : Z) : bool := (0xDC00 <=? u) && (u <=? 0xDFFF).
Definition is_surrogate (u : Z) : bool := (0xD800 <=? u) && (u <=? 0xDFFF).

(** The code point of a surrogate pair. *)
Definition pair_cp (hi lo : Z) : Z :=
  0x10000 + (hi - 0xD800) * 1024 + (lo - 0xDC00).

(** ECMAScript [StringToCodePoints]: a high surrogate followed by a low one
    is one code point, any other code unit (an unpaired surrogate too) is a
    code point of its own. *)
Fixpoint code_points (s : jsstring) : list Z :=
  match s with
  | [] => []
  | u :: rest =>
      if is_high u then
        match rest with
        | l :: rest' =>
            if is_low l then pair_cp u l :: code_points rest'
            else u :: code_points rest
        | [] => [u]
        end
      else u :: code_points rest
  end.

(** ECMAScript [UTF16EncodeCodePoint]. *)
Definition utf16_of_cp (cp : Z) : jsstring :=
  if cp <? 0x10000 then [cp]
  else [0xD800 + (cp - 0x10000) / 1024; 0xDC00 + (cp - 0x10000) mod 1024].

(** ECMAScript [CodePointsToString]. *)
Definition of_code_points (cps : list Z) : jsstring :=
  flat_map utf16_of_cp cps.

(** The UTF-8 form of one scalar value. *)
Definition utf8_of_cp (cp : Z) : bytes :=
  if cp <? 0x80 then [cp]
  else if cp <? 0x800 then [0xC0 + cp / 64; 0x80 + cp mod 64]
  else if cp <? 0x10000 then
    [0xE0 + cp / 4096; 0x80 + (cp / 64) mod 64; 0x80 + cp mod 64]
  else
    [0xF0 + cp / 262144; 0x80 + (cp / 4096) mod 64;
     0x80 + (cp / 64) mod 64; 0x80 + cp mod 64].

(** What the UTF-8 writer does with an unpaired surrogate: it writes
    U+FFFD in its place. *)
Definition scrub (cp : Z) : Z := if is_surrogate cp then 0xFFFD else cp.

(** [Buffer.from(s)] / [Buffer.from(s, 'utf8')]. *)
Definition utf8_encode (s : jsstring) : bytes :=
  flat_map (fun cp => utf8_of_cp (scrub cp)) (code_points s).

(** [buf.toString()] / [buf.toString('utf8')]: the UTF-8 decoder, a state
    machine over the bytes.  [d_rem] is the number of continuation bytes
    still expected, [d_lower] and [d_upper] the range the next one must lie
    in; an ill-formed sequence gives U+FFFD and the offending byte is
    looked at again as a lead byte. *)
Record dstate := mk_dstate
  { d_cp : Z; d_rem : nat; d_lower : Z; d_upper : Z }.

Definition d_init : dstate := mk_dstate 0 0 0x80 0xBF.

Definition lead_byte (b : Z) : dstate * list Z :=
  if b <=? 0x7F then (d_init, [b])
  else if (0xC2 <=? b) && (b <=? 0xDF) then
    (mk_dstate (b mod 32) 1 0x80 0xBF, [])
  else if (0xE0 <=? b) && (b <=? 0xEF) then
    (mk_dstate (b mod 16) 2
       (if b =? 0xE0 then 0xA0 else 0x80)
       (if b =? 0xED then 0x9F else 0xBF), [])
  else if (0xF0 <=? b) && (b <=? 0xF4) then
    (mk_dstate (b mod 8) 3
       (if b =? 0xF0 then 0x90 else 0x80)
       (if b =? 0xF4 then 0x8F else 0xBF), [])
  else (d_init, [0xFFFD]).

Definition decode_byte (st : dstate) (b : Z) : dstate * list Z :=
  match d_rem st with
  | O => lead_byte b
  | S r =>
      if (d_lower st <=? b) && (b <=? d_upper st) then
        let cp := d_cp st * 64 + b mod 64 in
        match r with
        | O => (d_init, [cp])
        | S _ => (mk_dstate cp r 0x80 0xBF, [])
        end
      else
        let (st', out) := lead_byte b in (st', 0xFFFD :: out)
  end.

Fixpoint decode_from (st : dstate) (bs : bytes) : list Z :=
  match bs with
  | [] => match d_rem st with O => [] | S _ => [0xFFFD] end
  | b :: rest =>
      let (st', out) := decode_byte st b in out ++ decode_from st' rest
  end.

Definition utf8_decode (bs : bytes) : jsstring :=
  of_code_points (decode_from d_init bs).

(** A string is well formed when it has no unpaired surrogate. *)
Definition well_formed (s : jsstring) : Prop :=
  valid_units s /\ forallb (fun cp => negb (is_surrogate cp)) (code_points s) = true.

(** [String.prototype.toWellFormed]: unpaired surrogates become U+FFFD. *)
Definition toWellFormed (s : jsstring) : jsstring :=
  of_code_points (map scrub (code_points s)).

(** A Unicode scalar value: a code point that is not a surrogate. *)
Definition scalar (cp : Z) : Prop :=
  0 <= cp < 0x110000 /\ is_surrogate cp = false.

End Utf.

(** ** [buffer.ts] *)

Module Base64.

(** The character of a six-bit value in the standard alphabet. *)
Definition b64_char (i : Z) : Z :=
  if i <? 26 then 65 + i
  else if i <? 52 then 97 + (i - 26)
  else if i <? 62 then 48 + (i - 52)
  else if i =? 62 then 43
  else 47.

Definition pad : Z := 61.

(** [buf.toString('base64')]: three bytes give four characters, and the
    last group is padded with [=]. *)
Fixpoint encode (bs : bytes) : jsstring :=
  match bs with
  | [] => []
  | [a] => [b64_char (a / 4); b64_char (a mod 4 * 16); pad; pad]
  | [a; b] =>
      [b64_char (a / 4); b64_char (a mod 4 * 16 + b / 16);
       b64_char (b mod 16 * 4); pad]
  | a :: b :: c :: rest =>
      [b64_char (a / 4); b64_char (a mod 4 * 16 + b / 16);
       b64_char (b mod 16 * 4 + c / 64); b64_char (c mod 64)] ++ encode rest
  end.

(** The six-bit value of a character; the decoder of [Buffer.from] takes
    the URL-safe characters [-] and [_] as well. *)
Definition b64_value (c : Z) : option Z :=
  if (65 <=? c) && (c <=? 90) then Some (c - 65)
  else if (97 <=? c) && (c <=? 122) then Some (c - 71)
  else if (48 <=? c) && (c <=? 57) then Some (c + 4)
  else if (c =? 43) || (c =? 45) then Some 62
  else if (c =? 47) || (c =? 95) then Some 63
  else None.

(** The decoder stops at the first [=] and steps over characters that are
    not in the alphabet. *)
Fixpoint sextets (s : jsstring) : list Z :=
  match s with
  | [] => []
  | c :: rest =>
      if c =? pad then []
      else match b64_value c with
           | Some v => v :: sextets rest
           | None => sextets rest
           end
  end.

Fixpoint unpack (v : list Z) : bytes :=
  match v with
  | a :: b :: c :: d :: rest =>
      [a * 4 + b / 16; b mod 16 * 16 + c / 4; c mod 4 * 64 + d] ++ unpack rest
  | [a; b; c] => [a * 4 + b / 16; b mod 16 * 16 + c / 4]
  | [a; b] => [a * 4 + b / 16]
  | _ => []
  end.

(** [Buffer.from(s, 'base64')]. *)
Definition decode (s : jsstring) : bytes := unpack (sextets s).

End Base64.

Module BufferFeature.

(** The object [{ base64, length }] that [bufferFromData] returns. *)
Record encoded := mk_encoded { base64 : jsstring; length : Z }.

(** [bufferFromData(data)]: [Buffer.from(data)], then
    [{ base64: buf.toString('base64'), length: buf.length }]. *)
Definition bufferFromData (data : jsstring) : encoded :=
  let buf := Utf.utf8_encode data in
  {| base64 := Base64.encode buf; length := Z.of_nat (List.length buf) |}.

End BufferFeature.


(** ** [pipingExample.ts]: the pipeline with manual back-pressure *)

(** [String.prototype.slice(start, end)]. *)
Definition slice (s : jsstring) (start stop : Z) : jsstring :=
  let len := Z.of_nat (List.length s) in
  let from := if start <? 0 then Z.max (len + start) 0 else Z.min start len in
  let to := if stop <? 0 then Z.max (len + stop) 0 else Z.min stop len in
  firstn (Z.to_nat (Z.max (to - from) 0)) (skipn (Z.to_nat from) s).

Module Pipeline.

(** What a stream reports through its ['error'] event. *)
Inductive error :=
  | ConsumerFailure (k : nat)   (* the k-th accepted chunk completed with an error *)
  | WriteAfterEnd
  | StreamDestroyed.

(** How the promise of [manualBackpressure] is settled. *)
Inductive settlement :=
  | Resolved (output : jsstring) (pauses : nat)
  | Rejected (e : error).

(** The callbacks waiting in the event loop: those queued with
    [process.nextTick] by the stream classes, and the [setTimeout] of the
    consumer's [write]. *)
Inductive task :=
  | Resume_                      (* Readable: resume_ *)
  | EndReadableNT                (* Readable: endReadableNT, emits 'end' *)
  | FinishNT                     (* Writable: the deferred finish of end() *)
  | EmitErrorNT (e : error)      (* Writable: emitErrorCloseNT *)
  | WriteTimer (chunk : bytes).  (* the timer set by write(chunk, _, callback) *)

(** What an observer of one run can see. *)
Inductive event :=
  | Offered (chunk : bytes)      (* writable.write(chunk) was called *)
  | Failed (k : nat)             (* the consumer reported an error *)
  | ResolveCalled (output : jsstring) (pauses : nat)
  | RejectCalled (e : error).

(** The fields of [_readableState] the run depends on. *)
Record readable := mk_readable {
  r_buffer : list bytes;
  r_flowing : bool;
  r_ended : bool;
  r_endEmitted : bool;
  r_resumeScheduled : bool
}.

(** The fields of [_writableState] the run depends on; [w_errored] stands
    for [errored] and [destroyed], which are set together here.
    [w_completed] counts the completed calls of [write], and
    [drain_listeners] the listeners registered with [once('drain', ...)]. *)
Record writable := mk_writable {
  w_length : Z;
  w_needDrain : bool;
  w_writing : bool;
  w_buffered : list bytes;
  w_ending : bool;
  w_finished : bool;
  w_errored : bool;
  w_completed : nat;
  drain_listeners : nat
}.

(** One run: the variables [result] and [pauses] of the promise executor,
    the promise, the two streams and the queues of the event loop. *)
Record pipe := mk_pipe {
  result : jsstring;
  pauses : nat;
  settled : option settlement;
  src : readable;
  dst : writable;
  ticks : list task;
  timers : list task;
  trace : list event
}.

Definition set_r_buffer (v : list bytes) (r : readable) : readable :=
  {| r_buffer := v; r_flowing := r_flowing r; r_ended := r_ended r;
     r_endEmitted := r_endEmitted r; r_resumeScheduled := r_resumeScheduled r |}.
Definition set_r_flowing (v : bool) (r : readable) : readable :=
  {| r_buffer := r_buffer r; r_flowing := v; r_ended := r_ended r;
     r_endEmitted := r_endEmitted r; r_resumeScheduled := r_resumeScheduled r |}.
Definition set_r_ended (v : bool) (r : readable) : readable :=
  {| r_buffer := r_buffer r; r_flowing := r_flowing r; r_ended := v;
     r_endEmitted := r_endEmitted r; r_resumeScheduled := r_resumeScheduled r |}.
Definition set_r_endEmitted (v : bool) (r : readable) : readable :=
  {| r_buffer := r_buffer r; r_flowing := r_flowing r; r_ended := r_ended r;
     r_endEmitted := v; r_resumeScheduled := r_resumeScheduled r |}.
Definition set_r_resumeScheduled (v : bool) (r : readable) : readable :=
  {| r_buffer := r_buffer r; r_flowing := r_flowing r; r_ended := r_ended r;
     r_endEmitted := r_endEmitted r; r_resumeScheduled := v |}.
Definition set_w_length (v : Z) (w : writable) : writable :=
  {| w_length := v; w_needDrain := w_needDrain w; w_writing := w_writing w;
     w_buffered := w_buffered w; w_ending := w_ending w; w_finished :=
     w_finished w; w_errored := w_errored w; w_completed := w_completed w;
     drain_listeners := drain_listeners w |}.
Definition set_w_needDrain (v : bool) (w : writable) : writable :=
  {| w_length := w_length w; w_needDrain := v; w_writing := w_writing w;
     w_buffered := w_buffered w; w_ending := w_ending w; w_finished :=
     w_finished w; w_errored := w_errored w; w_completed := w_completed w;
     drain_listeners := drain_listeners w |}.
Definition set_w_writing (v : bool) (w : writable) : writable :=
  {| w_length := w_length w; w_needDrain := w_needDrain w; w_writing := v;
     w_buffered := w_buffered w; w_ending := w_ending w; w_finished :=
     w_finished w; w_errored := w_errored w; w_completed := w_completed w;
     drain_listeners := drain_listeners w |}.
Definition set_w_buffered (v : list bytes) (w : writable) : writable :=
  {| w_length := w_length w; w_needDrain := w_needDrain w; w_writing :=
     w_writing w; w_buffered := v; w_ending := w_ending w; w_finished :=
     w_finished w; w_errored := w_errored w; w_completed := w_completed w;
     drain_listeners := drain_listeners w |}.
Definition set_w_ending (v : bool) (w : writable) : writable :=
  {| w_length := w_length w; w_needDrain := w_needDrain w; w_writing :=
     w_writing w; w_buffered := w_buffered w; w_ending := v; w_finished :=
     w_finished w; w_errored := w_errored w; w_completed := w_completed w;
     drain_listeners := drain_listeners w |}.
Definition set_w_finished (v : bool) (w : writable) : writable :=
  {| w_length := w_length w; w_needDrain := w_needDrain w; w_writing :=
     w_writing w; w_buffered := w_buffered w; w_ending := w_ending w;
     w_finished := v; w_errored := w_errored w; w_completed := w_completed w;
     drain_listeners := drain_listeners w |}.
Definition set_w_errored (v : bool) (w : writable) : writable :=
  {| w_length := w_length w; w_needDrain := w_needDrain w; w_writing :=
     w_writing w; w_buffered := w_buffered w; w_ending := w_ending w;
     w_finished := w_finished w; w_errored := v; w_completed := w_completed
     w; drain_listeners := drain_listeners w |}.
Definition set_w_completed (v : nat) (w : writable) : writable :=
  {| w_length := w_length w; w_needDrain := w_needDrain w; w_writing :=
     w_writing w; w_buffered := w_buffered w; w_ending := w_ending w;
     w_finished := w_finished w; w_errored := w_errored w; w_completed := v;
     drain_listeners := drain_listeners w |}.
Definition set_drain_listeners (v : nat) (w : writable) : writable :=
  {| w_length := w_length w; w_needDrain := w_needDrain w; w_writing :=
     w_writing w; w_buffered := w_buffered w; w_ending := w_ending w;
     w_finished := w_finished w; w_errored := w_errored w; w_completed :=
     w_completed w; drain_listeners := v |}.
Definition set_result (v : jsstring) (s : pipe) : pipe :=
  {| result := v; pauses := pauses s; settled := settled s; src := src s; dst
     := dst s; ticks := ticks s; timers := timers s; trace := trace s |}.
Definition set_pauses (v : nat) (s : pipe) : pipe :=
  {| result := result s; pauses := v; settled := settled s; src := src s; dst
     := dst s; ticks := ticks s; timers := timers s; trace := trace s |}.
Definition set_settled (v : option settlement) (s : pipe) : pipe :=
  {| result := result s; pauses := pauses s; settled := v; src := src s; dst
     := dst s; ticks := ticks s; timers := timers s; trace := trace s |}.
Definition set_src (v : readable) (s : pipe) : pipe :=
  {| result := result s; pauses := pauses s; settled := settled s; src := v;
     dst := dst s; ticks := ticks s; timers := timers s; trace := trace s |}.
Definition set_dst (v : writable) (s : pipe) : pipe :=
  {| result := result s; pauses := pauses s; settled := settled s; src := src
     s; dst := v; ticks := ticks s; timers := timers s; trace := trace s |}.
Definition set_ticks (v : list task) (s : pipe) : pipe :=
  {| result := result s; pauses := pauses s; settled := settled s; src := src
     s; dst := dst s; ticks := v; timers := timers s; trace := trace s |}.
Definition set_timers (v : list task) (s : pipe) : pipe :=
  {| result := result s; pauses := pauses s; settled := settled s; src := src
     s; dst := dst s; ticks := ticks s; timers := v; trace := trace s |}.
Definition set_trace (v : list event) (s : pipe) : pipe :=
  {| result := result s; pauses := pauses s; settled := settled s; src := src
     s; dst := dst s; ticks := ticks s; timers := timers s; trace := v |}.

Definition on_src (f : readable -> readable) (s : pipe) : pipe :=
  set_src (f (src s)) s.

Definition on_dst (f : writable -> writable) (s : pipe) : pipe :=
  set_dst (f (dst s)) s.

Definition nextTick (t : task) (s : pipe) : pipe :=
  set_ticks (ticks s ++ [t]) s.

Definition setTimeout (t : task) (s : pipe) : pipe :=
  set_timers (timers s ++ [t]) s.

Definition observe (e : event) (s : pipe) : pipe :=
  set_trace (trace s ++ [e]) s.

(** The consumer's bound, [highWaterMark: 2]: a number of bytes, since the
    stream is not in object mode. *)
Definition highWaterMark : Z := 2.

Definition byte_length (chunk : bytes) : Z := Z.of_nat (List.length chunk).

(** *** The promise *)

(** A promise is settled by the first call of [resolve] or [reject]. *)
Definition settle (o : settlement) (s : pipe) : pipe :=
  match settled s with
  | None => set_settled (Some o) s
  | Some _ => s
  end.

(** [resolve({ output: result, pauses })]. *)
Definition resolve (s : pipe) : pipe :=
  settle (Resolved (result s) (pauses s))
    (observe (ResolveCalled (result s) (pauses s)) s).

Definition reject (e : error) (s : pipe) : pipe :=
  settle (Rejected e) (observe (RejectCalled e) s).

(** *** The readable stream *)

(** [readable.push(chunk)] inside [read()]: the string becomes a buffer,
    and an empty one is not queued. *)
Definition push (chunk : jsstring) (s : pipe) : pipe :=
  match Utf.utf8_encode chunk with
  | [] => s
  | b => on_src (fun r => set_r_buffer (r_buffer r ++ [b]) r) s
  end.

(** [readable.push(null)]. *)
Definition push_eof (s : pipe) : pipe := on_src (set_r_ended true) s.

Definition endReadable (s : pipe) : pipe :=
  if r_endEmitted (src s) then s
  else nextTick EndReadableNT (on_src (set_r_ended true) s).

Definition readable_pause (s : pipe) : pipe := on_src (set_r_flowing false) s.

Definition readable_resume (s : pipe) : pipe :=
  if r_flowing (src s) then s
  else
    let s := on_src (set_r_flowing true) s in
    if r_resumeScheduled (src s) then s
    else nextTick Resume_ (on_src (set_r_resumeScheduled true) s).

(** *** The writable stream *)

Definition needFinish (w : writable) : bool :=
  w_ending w && (w_length w =? 0) && negb (w_errored w)
  && match w_buffered w with [] => true | _ => false end
  && negb (w_finished w) && negb (w_writing w).

(** [finish]: the stream emits ['finish'], whose listener resolves the
    promise. *)
Definition finish (s : pipe) : pipe :=
  resolve (on_dst (set_w_finished true) s).

Definition finishMaybe (sync : bool) (s : pipe) : pipe :=
  if needFinish (dst s) then
    if sync then nextTick FinishNT s else finish s
  else s.

(** [destroy(err)]: the stream is marked and ['error'] is emitted on the
    next tick. *)
Definition destroy (e : error) (s : pipe) : pipe :=
  if w_errored (dst s) then s
  else nextTick (EmitErrorNT e) (on_dst (set_w_errored true) s).

(** The body of the consumer's [write]: [setTimeout(..., 10)]. *)
Definition doWrite (chunk : bytes) (s : pipe) : pipe :=
  setTimeout (WriteTimer chunk) (on_dst (set_w_writing true) s).

(** [writable.write(chunk)] with its result.  A stream that has finished
    has destroyed itself, and a destroyed stream emits no further error. *)
Definition writable_write (chunk : bytes) (s : pipe) : bool * pipe :=
  let s := observe (Offered chunk) s in
  if w_ending (dst s) then
    (false, if w_finished (dst s) then s else destroy WriteAfterEnd s)
  else if w_errored (dst s) then (false, s)
  else
    let len := w_length (dst s) + byte_length chunk in
    let ret := len <? highWaterMark in
    let s := on_dst (set_w_length len) s in
    let s := if ret then s else on_dst (set_w_needDrain true) s in
    let s :=
      if w_writing (dst s)
      then on_dst (fun w => set_w_buffered (w_buffered w ++ [chunk]) w) s
      else doWrite chunk s in
    (ret, s).

(** [writable.end()]. *)
Definition writable_end (s : pipe) : pipe :=
  if negb (w_errored (dst s)) && negb (w_ending (dst s))
  then finishMaybe true (on_dst (set_w_ending true) s)
  else s.

(** ['drain'] is emitted: every listener registered with [once] runs
    [readable.resume()] and is gone. *)
Definition emit_drain (s : pipe) : pipe :=
  on_dst (set_drain_listeners 0%nat)
    (Nat.iter (drain_listeners (dst s)) readable_resume s).

Definition clearBuffer (s : pipe) : pipe :=
  match w_buffered (dst s) with
  | [] => s
  | chunk :: rest => doWrite chunk (on_dst (set_w_buffered rest) s)
  end.

Definition afterWrite (s : pipe) : pipe :=
  let w := dst s in
  let s :=
    if negb (w_ending w) && negb (w_errored w) && (w_length w =? 0)
       && w_needDrain w
    then emit_drain (on_dst (set_w_needDrain false) s)
    else s in
  finishMaybe false s.

Definition errorBuffer (s : pipe) : pipe :=
  on_dst (fun w =>
    set_w_buffered []
      (set_w_length (w_length w - fold_right Z.add 0 (map byte_length (w_buffered w))) w))
    s.

(** [onwrite(er)], the callback the stream hands to [write]. *)
Definition onwrite (er : option error) (writelen : Z) (s : pipe) : pipe :=
  let s := on_dst (fun w =>
             set_w_length (w_length w - writelen) (set_w_writing false w)) s in
  match er with
  | Some e => destroy e (errorBuffer s)
  | None => afterWrite (clearBuffer s)
  end.

(** *** The wiring of [manualBackpressure] *)

Section Run.

(** [completion_fails k]: the consumer reports an error when it completes
    the k-th chunk it accepted.  The [write] of the source always calls
    [callback()] without an error, which is [fun _ => false]; the parameter
    is there to state what the ['error'] listener does. *)
Variable completion_fails : nat -> bool.
Variable input : jsstring.
Variable chunkSize : Z.

(** The listener of ['data']. *)
Definition on_data (chunk : bytes) (s : pipe) : pipe :=
  let (canContinue, s) := writable_write chunk s in
  if canContinue then s
  else
    let s := set_pauses (S (pauses s)) s in
    let s := readable_pause s in
    on_dst (fun w => set_drain_listeners (S (drain_listeners w)) w) s.

(** The [read()] of the source: the [for] loop from index [i] on, then
    [push(null)].  The loop has no bound of its own, so it takes fuel. *)
Fixpoint read_loop (fuel : nat) (i : Z) (s : pipe) : option pipe :=
  match fuel with
  | O => None
  | S fuel' =>
      if i <? Z.of_nat (List.length input) then
        read_loop fuel' (i + chunkSize) (push (slice input i (i + chunkSize)) s)
      else Some (push_eof s)
  end.

(** [stream.read(0)]: it calls [read()] while the source has not ended,
    and notices the end of an empty buffer. *)
Definition read0 (fuel : nat) (s : pipe) : option pipe :=
  if r_ended (src s) then
    Some (match r_buffer (src s) with [] => endReadable s | _ => s end)
  else read_loop fuel 0 s.

(** [stream.read()] in flowing mode, after [read()] has run: the first
    queued chunk is taken and emitted as ['data']; the result says whether
    a chunk was returned.  An empty buffer ends the stream only when
    [push(null)] has been seen, [state.ended]: without it the stream
    waits for more, and [read()] is not called again from here. *)
Definition read (s : pipe) : bool * pipe :=
  match r_buffer (src s) with
  | [] => (false, if r_ended (src s) then endReadable s else s)
  | chunk :: rest =>
      let s := on_src (set_r_buffer rest) s in
      let s := match rest with
               | [] => if r_ended (src s) then endReadable s else s
               | _ => s
               end in
      (true, on_data chunk s)
  end.

(** [flow]: [while (state.flowing && stream.read() !== null);], bounded by
    the number of queued chunks. *)
Fixpoint flow (n : nat) (s : pipe) : pipe :=
  match n with
  | O => s
  | S n' =>
      if r_flowing (src s) then
        let (more, s') := read s in
        if more then flow n' s' else s'
      else s
  end.

Definition resume_ (fuel : nat) (s : pipe) : option pipe :=
  match read0 fuel s with
  | None => None
  | Some s =>
      let s := on_src (set_r_resumeScheduled false) s in
      let s := flow (S (List.length (r_buffer (src s)))) s in
      if r_flowing (src s) then read0 fuel s else Some s
  end.

(** [endReadableNT]: ['end'] is emitted once, and its listener calls
    [writable.end()]. *)
Definition endReadableNT (s : pipe) : pipe :=
  match r_endEmitted (src s), r_buffer (src s) with
  | false, [] => writable_end (on_src (set_r_endEmitted true) s)
  | _, _ => s
  end.

(** The timer of [write]: [result += chunk.toString(); callback()], or the
    error of a failing consumer. *)
Definition write_timer (chunk : bytes) (s : pipe) : pipe :=
  let k := w_completed (dst s) in
  let s := on_dst (set_w_completed (S k)) s in
  if completion_fails k then
    onwrite (Some (ConsumerFailure k)) (byte_length chunk) (observe (Failed k) s)
  else
    onwrite None (byte_length chunk)
      (set_result (result s ++ Utf.utf8_decode chunk) s).

Definition exec (fuel : nat) (t : task) (s : pipe) : option pipe :=
  match t with
  | Resume_ => resume_ fuel s
  | EndReadableNT => Some (endReadableNT s)
  | FinishNT => Some (if needFinish (dst s) then finish s else s)
  | EmitErrorNT e => Some (reject e s)
  | WriteTimer chunk => Some (write_timer chunk s)
  end.

(** The event loop: the next-tick queue is emptied before a timer runs;
    the run is over when both are empty. *)
Fixpoint run (fuel : nat) (s : pipe) : option pipe :=
  match fuel with
  | O => None
  | S fuel' =>
      match ticks s, timers s with
      | t :: ts, _ =>
          match exec fuel' t (set_ticks ts s) with
          | Some s' => run fuel' s'
          | None => None
          end
      | [], t :: ts =>
          match exec fuel' t (set_timers ts s) with
          | Some s' => run fuel' s'
          | None => None
          end
      | [], [] => Some s
      end
  end.

(** The state the promise executor leaves: both streams created, and
    [readable.on('data', ...)] has switched the source to flowing mode and
    queued [resume_]. *)
Definition start : pipe :=
  {| result := []; pauses := 0; settled := None;
     src := {| r_buffer := []; r_flowing := true; r_ended := false;
               r_endEmitted := false; r_resumeScheduled := true |};
     dst := {| w_length := 0; w_needDrain := false; w_writing := false;
               w_buffered := []; w_ending := false; w_finished := false;
               w_errored := false; w_completed := 0; drain_listeners := 0 |};
     ticks := [Resume_]; timers := []; trace := [] |}.

End Run.

(** The default value of the parameter: [chunkSize = 2]. *)
Definition default_chunkSize (chunkSize : option Z) : Z :=
  match chunkSize with
  | Some c => c
  | None => 2
  end.

(** A run of the pipeline with a given consumer: [None] when the fuel runs
    out, otherwise the final state, in which the promise is settled or
    pending for ever. *)
Definition pipeline (completion_fails : nat -> bool) (fuel : nat)
    (input : jsstring) (chunkSize : option Z) : option pipe :=
  run completion_fails input (default_chunkSize chunkSize) fuel start.

(** [manualBackpressure(input, chunkSize)], with the consumer of the
    source. *)
Definition manualBackpressure (fuel : nat) (input : jsstring)
    (chunkSize : option Z) : option (option settlement) :=
  option_map settled (pipeline (fun _ => false) fuel input chunkSize).

End Pipeline.

(** The chunks that the [read()] of [manualBackpressure] pushes: pieces of
    [size] code units, the last one possibly shorter. *)
Fixpoint chunks_of (n size : nat) (s : jsstring) : list jsstring :=
  match n with
  | O => []
  | S n' =>
      match s with
      | [] => []
      | _ => firstn size s :: chunks_of n' size (skipn size s)
      end
  end.

Definition chunks (chunkSize : Z) (input : jsstring) : list jsstring :=
  chunks_of (List.length input) (Z.to_nat chunkSize) input.

(** ** [pipingExample.ts]: the upper-casing pipe *)

Module Uppercase.

Section Table.

(** The upper-case mapping of Unicode, from a code point to the code
    points that replace it ([toUppercase] of the Unicode Standard, with
    SpecialCasing: [ß] gives [SS]).  The table belongs to the JavaScript
    engine and is a parameter here. *)
Variable toUppercase : Z -> list Z.

(** [String.prototype.toUpperCase]: the code points of the string are
    mapped one by one, and the result is written back as UTF-16. *)
Definition toUpperCase (s : jsstring) : jsstring :=
  Utf.of_code_points (flat_map toUppercase (Utf.code_points s)).

(** [Readable.from([input])]: an object-mode stream of the values of the
    array, here one string. *)
Definition readable_from (values : list jsstring) : list jsstring := values.

(** The transform stage, chunk by chunk: [write] turns the string it gets
    into a buffer, [transform] calls
    [callback(null, chunk.toString().toUpperCase())], and the string is
    pushed as a buffer; an empty one is not queued. *)
Definition transform (chunks : list jsstring) : list bytes :=
  flat_map
    (fun value =>
       let chunk := Utf.utf8_encode value in
       match Utf.utf8_encode (toUpperCase (Utf.utf8_decode chunk)) with
       | [] => []
       | b => [b]
       end)
    chunks.

(** The collecting stage: [result += chunk.toString()] for every chunk. *)
Definition collect (chunks : list bytes) : jsstring :=
  fold_left (fun result chunk => result ++ Utf.utf8_decode chunk) chunks [].

(** [pipeToUppercase(input)]: the string the promise is resolved with when
    [readable.pipe(transform).pipe(writable)] finishes.  No stage reports
    an error, so the promise is never rejected. *)
Definition pipeToUppercase (input : jsstring) : jsstring :=
  collect (transform (readable_from [input])).

End Table.

(** The mapping on Basic Latin (the letters [a] to [z]), leaving every
    other code point as it is: the part of the table that the examples
    need. *)
Definition basic_latin (cp : Z) : list Z :=
  if (97 <=? cp) && (cp <=? 122) then [cp - 32] else [cp].

End Uppercase.

(** ** [eventEmitter.ts] *)

Module Emitter.

Local Open Scope nat_scope.

(** A listener added with [once]: the wrapper that [once] creates, known
    by its identity [wrap], and the function it wraps, [callback]. *)
Record listener := mk_listener { wrap : nat; callback : nat }.

(** A call of a registered function: by which wrapper, of which function,
    with which argument. *)
Record call := mk_call { by_wrap : nat; target : nat; arg : jsstring }.

(** The emitter: [_events], from the name of an event to its listeners in
    the order they were added; the wrappers whose [fired] flag is set; the
    identity that the next wrapper gets; and the calls made so far. *)
Record emitter := mk_emitter {
  events : gmap string (list listener);
  fired : gset nat;
  next_wrap : nat;
  calls : list call
}.

(** [new MyEmitter()]. *)
Definition empty_emitter : emitter :=
  {| events := ∅; fired := ∅; next_wrap := 0; calls := [] |}.

Definition listeners (type : string) (e : emitter) : list listener :=
  default [] (events e !! type).

(** [emitter.once(type, callback)]: a new wrapper is added at the end of
    the listeners of [type]. *)
Definition once (type : string) (cb : nat) (e : emitter) : emitter :=
  {| events :=
       <[type := listeners type e ++ [mk_listener (next_wrap e) cb]]> (events e);
     fired := fired e;
     next_wrap := S (next_wrap e);
     calls := calls e |}.

(** The list without its first listener of identity [id]. *)
Fixpoint remove_first (id : nat) (ls : list listener) : list listener :=
  match ls with
  | [] => []
  | l :: rest =>
      if Nat.eqb (wrap l) id then rest else l :: remove_first id rest
  end.

(** [emitter.removeListener(type, wrapper)]: the list is searched from its
    end, the listener found is taken out, and an event without listeners
    is taken out of [_events]. *)
Definition removeListener (type : string) (id : nat) (e : emitter) : emitter :=
  match events e !! type with
  | None => e
  | Some ls =>
      let ls' := rev (remove_first id (rev ls)) in
      {| events :=
           match ls' with
           | [] => delete type (events e)
           | _ => <[type := ls']> (events e)
           end;
         fired := fired e;
         next_wrap := next_wrap e;
         calls := calls e |}
  end.

(** The wrapper of [once] is called with [a]: unless it has fired already,
    it removes itself, sets its flag and calls the function it wraps. *)
Definition onceWrapper (type : string) (l : listener) (a : jsstring)
    (e : emitter) : emitter :=
  if decide (wrap l ∈ fired e) then e
  else
    let e := removeListener type (wrap l) e in
    {| events := events e;
       fired := {[wrap l]} ∪ fired e;
       next_wrap := next_wrap e;
       calls := calls e ++ [mk_call (wrap l) (callback l) a] |}.

(** [emitter.emit(type, a)]: the listeners of [type] at the time of the
    call are called in order. *)
Definition emit (type : string) (a : jsstring) (e : emitter) : emitter :=
  fold_left (fun e l => onceWrapper type l a e) (listeners type e) e.

(** The helpers of the module. *)
Definition emitPing (msg : jsstring) : emitter -> emitter := emit "ping" msg.
Definition onPingOnce (cb : nat) : emitter -> emitter := once "ping" cb.
Definition emitFileUploaded (filename : jsstring) : emitter -> emitter :=
  emit "fileUploaded" filename.
Definition onFileUploadedOnce (cb : nat) : emitter -> emitter :=
  once "fileUploaded" cb.

(** A use of one of the four helpers. *)
Inductive helper :=
  | EmitPing (msg : jsstring)
  | OnPingOnce (cb : nat)
  | EmitFileUploaded (filename : jsstring)
  | OnFileUploadedOnce (cb : nat).

Definition use (e : emitter) (h : helper) : emitter :=
  match h with
  | EmitPing msg => emitPing msg e
  | OnPingOnce cb => onPingOnce cb e
  | EmitFileUploaded filename => emitFileUploaded filename e
  | OnFileUploadedOnce cb => onFileUploadedOnce cb e
  end.

Definition uses (hs : list helper) (e : emitter) : emitter :=
  fold_left use hs e.

(** The calls that the wrapper [id] made. *)
Definition calls_by (id : nat) (e : emitter) : list call :=
  List.filter (fun c => Nat.eqb (by_wrap c) id) (calls e).

(** The message of the first [emitPing] among the uses, and the file name
    of the first [emitFileUploaded]. *)
Fixpoint first_ping (hs : list helper) : option jsstring :=
  match hs with
  | [] => None
  | EmitPing msg :: _ => Some msg
  | _ :: rest => first_ping rest
  end.

Fixpoint first_upload (hs : list helper) : option jsstring :=
  match hs with
  | [] => None
  | EmitFileUploaded filename :: _ => Some filename
  | _ :: rest => first_upload rest
  end.

(** The identities in use are below [next_wrap]. *)
Definition well_formed (e : emitter) : Prop :=
  (forall type l, In l (listeners type e) -> wrap l < next_wrap e) /\
  (forall id, id ∈ fired e -> id < next_wrap e) /\
  (forall c, In c (calls e) -> by_wrap c < next_wrap e).

End Emitter.

(** ** [buffer.ts]: the fixed example *)

Module BufferText.

(** The literal ['Hello Buffer!']. *)
Definition hello_buffer : jsstring :=
  [72; 101; 108; 108; 111; 32; 66; 117; 102; 102; 101; 114; 33].

(** [bufferExample()]: [Buffer.from('Hello Buffer!')], then
    [buf.toString('utf8')]. *)
Definition bufferExample : jsstring :=
  let buf := Utf.utf8_encode hello_buffer in
  Utf.utf8_decode buf.

End BufferText.

(** ** [streams.ts] *)

Module Streams.

Section Table.

Variable toUppercase : Z -> list Z.

(** The array [['Node', 'JS', ' ', 'Streams']]. *)
Definition values : list jsstring :=
  [[78; 111; 100; 101]; [74; 83]; [32]; [83; 116; 114; 101; 97; 109; 115]].

(** [streamExample()]: [Readable.from] of the array, one string of it
    after the other, piped through the two stages that [pipeToUppercase]
    has as well: a transform with
    [callback(null, chunk.toString().toUpperCase())] and a writable with
    [result += chunk.toString()].  The promise is resolved with [result]
    on ['finish']. *)
Definition streamExample : jsstring :=
  Uppercase.collect
    (Uppercase.transform toUppercase (Uppercase.readable_from values)).

End Table.

End Streams.

(** ** [workerTask.js] *)

Module WorkerTask.

(** [compute(n)], [n <= 1 ? 1 : n * compute(n - 1)], on an integer [n].
    Every call takes a frame of the call stack: [depth] is the number of
    frames that are left, and [None] is the [RangeError] of the engine
    when they are used up.  The numbers of JavaScript are doubles, and
    this arithmetic on integers is theirs only as long as no value goes
    beyond [2^53]: that is so for [n] up to 18, and what is proved of
    this function keeps to that range.  For larger [n] the products of
    the code are rounded, and this function is not the code's. *)
Fixpoint compute (depth : nat) (n : Z) : option Z :=
  match depth with
  | O => None
  | S depth' =>
      if n <=? 1 then Some 1
      else option_map (Z.mul n) (compute depth' (n - 1))
  end.

End WorkerTask.

(** ** [index.ts]: the routes that use the emitter *)

Module Routes.
Import Emitter.

(** A request to one of the three routes; [res] is the response object
    that the handler answers on, and [originalname] the name of the file
    that came with the request, if one did. *)
Inductive request :=
  | GetEvent (res : nat)
  | PostUpload (originalname : option jsstring)
  | GetNotifyUpload (res : nat).

(** The literal ['pong!']. *)
Definition pong_message : jsstring := [112; 111; 110; 103; 33].

(** The handlers.  The function that [GET /event] and
    [GET /notify-upload] register sends the argument it is called with on
    [res]; it is known by [res] here.  [POST /upload] answers its own
    request without the emitter. *)
Definition handle (e : emitter) (r : request) : emitter :=
  match r with
  | GetEvent res => emitPing pong_message (onPingOnce res e)
  | PostUpload None => e
  | PostUpload (Some originalname) => emitFileUploaded originalname e
  | GetNotifyUpload res => onFileUploadedOnce res e
  end.

(** The requests of a list, one after the other. *)
Definition serve (rs : list request) (e : emitter) : emitter :=
  fold_left handle rs e.

(** What the registered functions have sent: on which response, and which
    message or file name. *)
Definition answers (e : emitter) : list (nat * jsstring) :=
  map (fun c => (target c, arg c)) (calls e).

(** What the three routes are for, in terms of the requests alone:
    [GET /event] is answered at once with ['pong!']; [GET /notify-upload]
    waits; an upload answers the requests that wait, in the order they
    came, and nobody waits afterwards. *)
Fixpoint expected (waiting : list nat) (rs : list request)
    : list (nat * jsstring) :=
  match rs with
  | [] => []
  | GetEvent res :: rs' => (res, pong_message) :: expected waiting rs'
  | PostUpload None :: rs' => expected waiting rs'
  | PostUpload (Some originalname) :: rs' =>
      map (fun res => (res, originalname)) waiting ++ expected [] rs'
  | GetNotifyUpload res :: rs' => expected (waiting ++ [res]) rs'
  end.

End Routes.

(** ** [index.ts]: the route of the pipeline *)

Module Api.

(** What [POST /pipe/backpressure] answers: status 400 with
    [{ error: 'Missing text' }], status 200 with the result of the run, or
    status 500 with the message of the error that the promise was
    rejected with. *)
Inductive response :=
  | MissingText
  | Result (output : jsstring) (pauses : nat)
  | ServerError (e : Pipeline.error).

(** The handler, on a body whose [text] is a string when it is there and
    whose [chunkSize] is an integer when it is there.  [!text] holds of a
    missing text and of the empty string.  [None] is no answer: the
    promise that the handler awaits is still pending when the fuel is
    used up or when nothing is left to run. *)
Definition post_pipe_backpressure (fuel : nat) (text : option jsstring)
    (chunkSize : option Z) : option response :=
  match text with
  | None => Some MissingText
  | Some [] => Some MissingText
  | Some input =>
      match Pipeline.manualBackpressure fuel input chunkSize with
      | Some (Some (Pipeline.Resolved output pauses)) =>
          Some (Result output pauses)
      | Some (Some (Pipeline.Rejected e)) => Some (ServerError e)
      | Some None => None
      | None => None
      end
  end.

End Api.

(** ** [childProcessExample.ts] *)

Module ChildProcess.

(** A promise is settled by the first call of [resolve] or [reject]; the
    calls that follow do nothing. *)
Definition settle {A : Type} (outcome : A) (promise : option A) : option A :=
  match promise with
  | None => Some outcome
  | Some _ => promise
  end.

(** *** [forkNodeScript] *)

(** What the child lets the parent know, in the order the events are
    emitted: a message, an error, or its exit with a code ([null], here
    [None], when a signal ended it). *)
Inductive fork_event :=
  | Message (msg : nat)
  | ChildError (err : nat)
  | Exit (code : option Z).

(** What the promise is rejected with: the error of the ['error'] event,
    or [new Error(`Child exited with code ${code}`)]. *)
Inductive fork_failure :=
  | Raised (err : nat)
  | ExitedWith (code : option Z).

Inductive forked :=
  | Answered (msg : nat)
  | Failed (why : fork_failure).

(** The promise, and how often [child.kill()] was called. *)
Record fork_state := mk_fork_state {
  fork_promise : option forked;
  kills : nat
}.

(** The three listeners. *)
Definition on_fork_event (st : fork_state) (ev : fork_event) : fork_state :=
  match ev with
  | Message msg =>
      {| fork_promise := settle (Answered msg) (fork_promise st);
         kills := S (kills st) |}
  | ChildError err =>
      {| fork_promise := settle (Failed (Raised err)) (fork_promise st);
         kills := kills st |}
  | Exit code =>
      match code with
      | Some 0 => st
      | _ =>
          {| fork_promise := settle (Failed (ExitedWith code)) (fork_promise st);
             kills := kills st |}
      end
  end.

(** [forkNodeScript(scriptPath, args, message)], against a child that
    emits [events]. *)
Definition forkNodeScript (events : list fork_event) : fork_state :=
  fold_left on_fork_event events {| fork_promise := None; kills := 0 |}.

(** What an event settles the promise with, if it settles it. *)
Definition settles (ev : fork_event) : option forked :=
  match ev with
  | Message msg => Some (Answered msg)
  | ChildError err => Some (Failed (Raised err))
  | Exit (Some 0) => None
  | Exit code => Some (Failed (ExitedWith code))
  end.

Fixpoint first_settling (events : list fork_event) : option forked :=
  match events with
  | [] => None
  | ev :: rest =>
      match settles ev with
      | Some o => Some o
      | None => first_settling rest
      end
  end.

(** *** [spawnNodeScript] *)

(** The events of the child: a chunk on its standard output or on its
    standard error, the ['close'] of the child, or an ['error']. *)
Inductive spawn_event :=
  | Stdout (data : bytes)
  | Stderr (data : bytes)
  | Close
  | SpawnError (err : nat).

Inductive spawned :=
  | Output (output : jsstring)
  | SpawnFailed (err : nat).

Record spawn_state := mk_spawn_state {
  output : jsstring;
  spawn_promise : option spawned
}.

(** The four listeners; [output += data] turns the buffer into a string
    with [data.toString()]. *)
Definition on_spawn_event (st : spawn_state) (ev : spawn_event) : spawn_state :=
  match ev with
  | Stdout data | Stderr data =>
      {| output := output st ++ Utf.utf8_decode data;
         spawn_promise := spawn_promise st |}
  | Close =>
      {| output := output st;
         spawn_promise := settle (Output (output st)) (spawn_promise st) |}
  | SpawnError err =>
      {| output := output st;
         spawn_promise := settle (SpawnFailed err) (spawn_promise st) |}
  end.

(** [spawnNodeScript(scriptPath, args)], against a child that emits
    [events]. *)
Definition spawnNodeScript (events : list spawn_event) : spawn_state :=
  fold_left on_spawn_event events {| output := []; spawn_promise := None |}.

(** The chunks of both streams among the events. *)
Definition data_of (ev : spawn_event) : list bytes :=
  match ev with
  | Stdout data | Stderr data => [data]
  | _ => []
  end.

End ChildProcess.

(** * Facts *)

(** ** The UTF-8 codec *)

Module UtfFacts.
Import Utf.

Lemma is_surrogate_false cp :
  is_surrogate cp = false <-> cp < 0xD800 \/ 0xDFFF < cp.
Proof. unfold is_surrogate. zbool; cbn; split; intros; try lia; congruence. Qed.

Lemma is_surrogate_true cp :
  is_surrogate cp = true <-> 0xD800 <= cp <= 0xDFFF.
Proof. unfold is_surrogate. zbool; cbn; split; intros; try lia; congruence. Qed.

Lemma decode_continuation cp r lo hi b rest :
  lo <= b <= hi ->
  decode_from (mk_dstate cp (S r) lo hi) (b :: rest) =
  match r with
  | O => (cp * 64 + b mod 64) :: decode_from d_init rest
  | S _ => decode_from (mk_dstate (cp * 64 + b mod 64) r 0x80 0xBF) rest
  end.
Proof.
  intros Hb. cbn [decode_from decode_byte d_rem d_lower d_upper d_cp].
  zsplit. cbn [andb]. destruct r; reflexivity.
Qed.

Lemma decode_lead b rest :
  decode_from d_init (b :: rest) =
  let (st', out) := lead_byte b in out ++ decode_from st' rest.
Proof. reflexivity. Qed.

Lemma decode_utf8_of_cp cp rest :
  scalar cp ->
  decode_from d_init (utf8_of_cp cp ++ rest) = cp :: decode_from d_init rest.
Proof.
  intros [Hr Hs]. apply is_surrogate_false in Hs. unfold utf8_of_cp.
  destruct (Z.ltb_spec cp 0x80).
  { cbn [app]. rewrite decode_lead. unfold lead_byte. zsplit. reflexivity. }
  destruct (Z.ltb_spec cp 0x800).
  { cbn [app]. rewrite decode_lead. unfold lead_byte. zsplit. cbn [andb app].
    rewrite decode_continuation by lia. f_equal. lia. }
  destruct (Z.ltb_spec cp 0x10000).
  { cbn [app]. rewrite decode_lead. unfold lead_byte.
    zsplit; cbn [andb app];
      (rewrite decode_continuation by lia);
      (rewrite decode_continuation by lia); f_equal; lia. }
  cbn [app]. rewrite decode_lead. unfold lead_byte.
  zsplit; cbn [andb app];
    (rewrite decode_continuation by lia);
    (rewrite decode_continuation by lia);
    (rewrite decode_continuation by lia); f_equal; lia.
Qed.

(** Induction following the cases of [code_points]. *)
Lemma units_ind (P : jsstring -> Prop) :
  P [] ->
  (forall u rest, is_high u = false -> P rest -> P (u :: rest)) ->
  (forall u, is_high u = true -> P [u]) ->
  (forall u l rest, is_high u = true -> is_low l = true ->
                    P rest -> P (u :: l :: rest)) ->
  (forall u l rest, is_high u = true -> is_low l = false ->
                    P (l :: rest) -> P (u :: l :: rest)) ->
  forall s, P s.
Proof.
  intros Hnil Hone Hlast Hpair Hlone s.
  assert (H : forall n (t : jsstring), (length t <= n)%nat -> P t).
  { induction n as [|n IH]; intros t Hlen.
    - destruct t; [exact Hnil | cbn in Hlen; lia].
    - destruct t as [|u [|l rest]]; [exact Hnil | |].
      + destruct (is_high u) eqn:Hu; [now apply Hlast | now apply Hone].
      + cbn in Hlen. destruct (is_high u) eqn:Hu.
        * destruct (is_low l) eqn:Hl.
          -- apply Hpair; trivial. apply IH. lia.
          -- apply Hlone; trivial. apply IH. cbn. lia.
        * apply Hone; trivial. apply IH. cbn. lia. }
  apply (H (length s)). lia.
Qed.

Lemma code_points_single u rest :
  is_high u = false -> code_points (u :: rest) = u :: code_points rest.
Proof. intros H. cbn. now rewrite H. Qed.

Lemma code_points_last u : code_points [u] = [u].
Proof. cbn. now destruct (is_high u). Qed.

Lemma code_points_pair u l rest :
  is_high u = true -> is_low l = true ->
  code_points (u :: l :: rest) = pair_cp u l :: code_points rest.
Proof. intros Hu Hl. cbn. now rewrite Hu, Hl. Qed.

Lemma code_points_lone u l rest :
  is_high u = true -> is_low l = false ->
  code_points (u :: l :: rest) = u :: code_points (l :: rest).
Proof. intros Hu Hl. cbn [code_points]. now rewrite Hu, Hl. Qed.

Lemma is_high_true u : is_high u = true <-> 0xD800 <= u <= 0xDBFF.
Proof. unfold is_high. zbool; cbn; split; intros; try lia; congruence. Qed.

Lemma is_low_true u : is_low u = true <-> 0xDC00 <= u <= 0xDFFF.
Proof. unfold is_low. zbool; cbn; split; intros; try lia; congruence. Qed.

Lemma pair_cp_range u l :
  is_high u = true -> is_low l = true ->
  0x10000 <= pair_cp u l < 0x110000.
Proof.
  intros Hu%is_high_true Hl%is_low_true. unfold pair_cp. lia.
Qed.

Lemma utf16_of_pair u l :
  is_high u = true -> is_low l = true ->
  utf16_of_cp (pair_cp u l) = [u; l].
Proof.
  intros Hu Hl. pose proof (pair_cp_range u l Hu Hl) as Hr.
  apply is_high_true in Hu. apply is_low_true in Hl.
  unfold utf16_of_cp. destruct (Z.ltb_spec (pair_cp u l) 0x10000); [lia|].
  unfold pair_cp in *. f_equal; [lia | f_equal; lia].
Qed.

(** Every code point read from a string of 16-bit units is a Unicode code
    point. *)
Lemma code_points_range s :
  valid_units s -> Forall (fun cp => 0 <= cp < 0x110000) (code_points s).
Proof.
  unfold valid_units. induction s using units_ind; intros Hv.
  - constructor.
  - rewrite code_points_single by trivial. inversion Hv; subst.
    constructor; [lia | auto].
  - rewrite code_points_last. inversion Hv; subst. constructor; [lia | constructor].
  - rewrite code_points_pair by trivial. inversion Hv as [|? ? ? Hv']; subst.
    inversion Hv'; subst. constructor; [|auto].
    pose proof (pair_cp_range u l); lia.
  - rewrite code_points_lone by trivial. inversion Hv; subst.
    constructor; [lia | auto].
Qed.

(** Reading the code points of a string and writing them back gives the
    string, unpaired surrogates included. *)
Lemma of_code_points_code_points s :
  valid_units s -> of_code_points (code_points s) = s.
Proof.
  unfold valid_units, of_code_points.
  induction s using units_ind; intros Hv.
  - reflexivity.
  - rewrite code_points_single by trivial. inversion Hv; subst.
    cbn [flat_map]. rewrite IHs by trivial.
    unfold utf16_of_cp. destruct (Z.ltb_spec u 0x10000); [reflexivity | lia].
  - rewrite code_points_last. inversion Hv; subst. cbn.
    unfold utf16_of_cp. destruct (Z.ltb_spec u 0x10000); [reflexivity | lia].
  - rewrite code_points_pair by trivial. inversion Hv as [|? ? ? Hv']; subst.
    inversion Hv'; subst. cbn [flat_map]. rewrite IHs by trivial.
    now rewrite utf16_of_pair.
  - rewrite code_points_lone by trivial. inversion Hv; subst.
    cbn [flat_map]. rewrite IHs by trivial.
    unfold utf16_of_cp. destruct (Z.ltb_spec u 0x10000); [reflexivity | lia].
Qed.

Lemma scrub_scalar cp : 0 <= cp < 0x110000 -> scalar (scrub cp).
Proof.
  intros Hr. unfold scrub, scalar. destruct (is_surrogate cp) eqn:Hs.
  - split; [lia | reflexivity].
  - split; trivial.
Qed.

Lemma decode_encode_cps cps :
  Forall scalar cps ->
  decode_from d_init (flat_map utf8_of_cp cps) = cps.
Proof.
  induction 1 as [|cp cps Hcp _ IH]; [reflexivity|].
  cbn [flat_map]. rewrite decode_utf8_of_cp by trivial. now rewrite IH.
Qed.

Lemma flat_map_after_map {A B C} (g : A -> B) (f : B -> list C) l :
  flat_map f (map g l) = flat_map (fun x => f (g x)) l.
Proof. induction l as [|x l IH]; cbn; [reflexivity | now rewrite IH]. Qed.

(** Encoding a string as UTF-8 and decoding the bytes replaces the unpaired
    surrogates and keeps everything else. *)
Lemma utf8_decode_encode s :
  valid_units s -> utf8_decode (utf8_encode s) = toWellFormed s.
Proof.
  intros Hv. unfold utf8_decode, utf8_encode, toWellFormed.
  rewrite <- (flat_map_after_map scrub utf8_of_cp).
  rewrite decode_encode_cps; [reflexivity|].
  pose proof (code_points_range s Hv) as Hr.
  induction Hr as [|cp cps Hcp _ IH]; cbn [map]; constructor; trivial.
  now apply scrub_scalar.
Qed.

Lemma map_scrub_id cps :
  forallb (fun cp => negb (is_surrogate cp)) cps = true -> map scrub cps = cps.
Proof.
  induction cps as [|cp cps IH]; cbn; [reflexivity|].
  intros [Hc Hr]%andb_prop. rewrite IH by trivial.
  unfold scrub. destruct (is_surrogate cp); [discriminate | reflexivity].
Qed.

Lemma toWellFormed_id s : well_formed s -> toWellFormed s = s.
Proof.
  intros [Hv Hs]. unfold toWellFormed. rewrite map_scrub_id by trivial.
  now apply of_code_points_code_points.
Qed.

(** The UTF-8 round trip is the identity on well-formed strings. *)
Lemma utf8_roundtrip s :
  well_formed s -> utf8_decode (utf8_encode s) = s.
Proof.
  intros Hw. rewrite utf8_decode_encode by apply Hw. now apply toWellFormed_id.
Qed.

Lemma utf8_of_cp_length cp :
  (1 <= List.length (utf8_of_cp cp) <= 4)%nat.
Proof. unfold utf8_of_cp. zsplit; cbn; lia. Qed.

Lemma utf8_of_cp_length_ascii cp :
  0 <= cp -> 0x80 <= cp -> (2 <= List.length (utf8_of_cp cp))%nat.
Proof. intros H0 H. unfold utf8_of_cp. zsplit; cbn; lia. Qed.

Lemma utf8_of_cp_length_wide cp :
  0x800 <= cp -> (3 <= List.length (utf8_of_cp cp))%nat.
Proof. intros H. unfold utf8_of_cp. zsplit; cbn; lia. Qed.

Lemma scrub_ge cp : 0x80 <= cp -> 0x80 <= scrub cp.
Proof. unfold scrub. destruct (is_surrogate cp); lia. Qed.

(** A string never has more code units than its UTF-8 form has bytes. *)
Lemma utf8_encode_length (s : jsstring) :
  (List.length s <= List.length (utf8_encode s))%nat.
Proof.
  unfold utf8_encode.
  induction s as [|u rest Hu IH|u Hu|u l rest Hu Hl IH|u l rest Hu Hl IH]
    using units_ind.
  - cbn. lia.
  - rewrite code_points_single by trivial. cbn [flat_map List.length].
    rewrite length_app. pose proof (utf8_of_cp_length (scrub u)). lia.
  - rewrite code_points_last. cbn [flat_map List.length].
    rewrite length_app. pose proof (utf8_of_cp_length (scrub u)). lia.
  - rewrite code_points_pair by trivial. cbn [flat_map List.length].
    rewrite length_app.
    pose proof (pair_cp_range u l Hu Hl) as Hr.
    assert (2 <= List.length (utf8_of_cp (scrub (pair_cp u l))))%nat.
    { apply utf8_of_cp_length_ascii; [|apply scrub_ge; lia].
      unfold scrub. destruct (is_surrogate _); lia. }
    lia.
  - rewrite code_points_lone by trivial. cbn [flat_map List.length].
    rewrite length_app. pose proof (utf8_of_cp_length (scrub u)).
    cbn [List.length] in IH. lia.
Qed.

Lemma utf8_of_high u :
  is_high u = true -> (2 <= List.length (utf8_of_cp (scrub u)))%nat.
Proof.
  intros Hu%is_high_true.
  apply utf8_of_cp_length_ascii; [|apply scrub_ge; lia].
  unfold scrub. destruct (is_surrogate _); lia.
Qed.

(** A string with a code unit outside ASCII has more bytes than code
    units. *)
Lemma utf8_encode_length_nonascii (s : jsstring) :
  valid_units s -> Exists (fun u => 0x80 <= u) s ->
  (List.length s < List.length (utf8_encode s))%nat.
Proof.
  unfold utf8_encode, valid_units.
  induction s as [|u rest Hu IH|u Hu|u l rest Hu Hl IH|u l rest Hu Hl IH]
    using units_ind; intros Hv Hex.
  - inversion Hex.
  - rewrite code_points_single by trivial. cbn [flat_map List.length].
    rewrite length_app. inversion Hv as [|? ? Hu0 Hv']; subst.
    inversion Hex as [? ? Hbig|? ? Hrest]; subst.
    + pose proof (utf8_encode_length rest) as Hr. unfold utf8_encode in Hr.
      assert (2 <= List.length (utf8_of_cp (scrub u)))%nat.
      { apply utf8_of_cp_length_ascii; [|now apply scrub_ge].
        unfold scrub. destruct (is_surrogate _); lia. }
      lia.
    + pose proof (utf8_of_cp_length (scrub u)). specialize (IH Hv' Hrest). lia.
  - rewrite code_points_last. cbn [flat_map List.length]. rewrite length_app.
    pose proof (utf8_of_high u Hu). cbn. lia.
  - rewrite code_points_pair by trivial. cbn [flat_map List.length].
    rewrite length_app.
    pose proof (pair_cp_range u l Hu Hl) as Hr.
    pose proof (utf8_encode_length rest) as Hs. unfold utf8_encode in Hs.
    assert (Hns : scrub (pair_cp u l) = pair_cp u l).
    { unfold scrub.
      now rewrite (proj2 (is_surrogate_false (pair_cp u l))) by lia. }
    rewrite Hns.
    pose proof (utf8_of_cp_length_wide (pair_cp u l)). cbn [List.length]. lia.
  - rewrite code_points_lone by trivial. cbn [flat_map List.length].
    rewrite length_app.
    pose proof (utf8_encode_length (l :: rest)) as Hs.
    unfold utf8_encode in Hs. cbn [List.length] in Hs.
    pose proof (utf8_of_high u Hu). lia.
Qed.

Lemma utf8_of_cp_bytes cp : scalar cp -> valid_bytes (utf8_of_cp cp).
Proof.
  intros [Hr Hs]. unfold utf8_of_cp, valid_bytes.
  zsplit; repeat constructor; lia.
Qed.

(** The UTF-8 form of a string is made of bytes. *)
Lemma utf8_encode_bytes s : valid_units s -> valid_bytes (utf8_encode s).
Proof.
  intros Hv. unfold utf8_encode, valid_bytes.
  pose proof (code_points_range s Hv) as Hr.
  induction Hr as [|cp cps Hcp _ IH]; cbn [flat_map]; [constructor|].
  apply Forall_app. split; [|exact IH].
  now apply utf8_of_cp_bytes, scrub_scalar.
Qed.

End UtfFacts.

(** ** Base64 *)

Module Base64Facts.
Import Base64.

Lemma b64_value_char i :
  0 <= i < 64 -> b64_value (b64_char i) = Some i /\ b64_char i <> pad.
Proof.
  intros Hi. unfold b64_char, b64_value, pad.
  destruct (Z.ltb_spec i 26); [|destruct (Z.ltb_spec i 52);
    [|destruct (Z.ltb_spec i 62); [|destruct (Z.eqb_spec i 62)]]].
  - zsplit. cbn. split; [f_equal|]; lia.
  - zsplit; cbn; (split; [f_equal|]; lia).
  - zsplit; cbn; (split; [f_equal|]; lia).
  - subst. cbn. split; [reflexivity | lia].
  - assert (i = 63) by lia. subst. cbn. split; [reflexivity | lia].
Qed.

Lemma sextets_char i rest :
  0 <= i < 64 -> sextets (b64_char i :: rest) = i :: sextets rest.
Proof.
  intros Hi. destruct (b64_value_char i Hi) as [Hv Hp]. cbn [sextets].
  destruct (Z.eqb_spec (b64_char i) pad); [contradiction|]. now rewrite Hv.
Qed.

Lemma sextets_pad rest : sextets (pad :: rest) = [].
Proof. reflexivity. Qed.

(** Decoding an encoded buffer gives the buffer back. *)
Lemma decode_encode bs : valid_bytes bs -> decode (encode bs) = bs.
Proof.
  unfold decode, valid_bytes.
  assert (H : forall n (t : bytes), (length t <= n)%nat ->
            Forall (fun x => 0 <= x < 256) t -> unpack (sextets (encode t)) = t).
  { induction n as [|n IH]; intros t Hlen Hv.
    - destruct t; [reflexivity | cbn in Hlen; lia].
    - destruct t as [|a [|b [|c rest]]]; [reflexivity | | |].
      + inversion Hv; subst. cbn [encode].
        rewrite !sextets_char by lia. rewrite sextets_pad. cbn [unpack].
        f_equal. lia.
      + inversion Hv as [|? ? ? Hv']; subst. inversion Hv'; subst.
        cbn [encode]. rewrite !sextets_char by lia. rewrite sextets_pad.
        cbn [unpack]. f_equal; [lia | f_equal; lia].
      + inversion Hv as [|? ? ? Hv']; subst.
        inversion Hv' as [|? ? ? Hv'']; subst. inversion Hv''; subst.
        cbn [encode app]. rewrite !sextets_char by lia.
        cbn [unpack app]. rewrite IH; [|cbn in Hlen; lia | trivial].
        f_equal; [lia | f_equal; [lia | f_equal; lia]]. }
  intros Hv. apply (H (length bs)); [lia | trivial].
Qed.

End Base64Facts.

(** ** The pipeline *)

Lemma slice_chunk (s : jsstring) i c :
  0 <= i < Z.of_nat (List.length s) -> 1 <= c ->
  slice s i (i + c) = firstn (Z.to_nat c) (skipn (Z.to_nat i) s).
Proof.
  intros Hi Hc. unfold slice.
  destruct (Z.ltb_spec i 0); [lia|].
  destruct (Z.ltb_spec (i + c) 0); [lia|].
  rewrite (Z.min_l i) by lia.
  destruct (Z_le_gt_dec (i + c) (Z.of_nat (List.length s))).
  - rewrite Z.min_l by lia. f_equal. lia.
  - rewrite Z.min_r by lia.
    rewrite !firstn_all2; trivial; rewrite length_skipn; lia.
Qed.

Lemma chunks_of_nonempty n size s :
  (1 <= size)%nat -> Forall (fun ch => ch <> []) (chunks_of n size s).
Proof.
  intros Hs. revert s. induction n as [|n IH]; intros s; cbn; [constructor|].
  destruct s as [|x s']; [constructor|]. constructor; [|apply IH].
  destruct size; [lia | discriminate].
Qed.

Lemma chunks_of_length n size (s : jsstring) :
  (List.length (chunks_of n size s) <= n)%nat.
Proof.
  revert s. induction n as [|n IH]; intros s; cbn; [lia|].
  destruct s; cbn; [lia|]. specialize (IH (skipn size (z :: s))). lia.
Qed.

Lemma concat_chunks_of n size s :
  (1 <= size)%nat -> (List.length s <= n)%nat ->
  concat (chunks_of n size s) = s.
Proof.
  intros Hs. revert s. induction n as [|n IH]; intros s Hlen.
  - destruct s; [reflexivity | cbn in Hlen; lia].
  - cbn [chunks_of]. destruct s as [|x s']; [reflexivity|].
    cbn [concat]. rewrite IH.
    + apply firstn_skipn.
    + rewrite length_skipn. cbn [List.length] in *. lia.
Qed.

Module PipelineFacts.
Import Pipeline.

Lemma byte_length_eq b : byte_length b = Z.of_nat (List.length b).
Proof. reflexivity. Qed.

Opaque Z.ltb Z.add Z.sub Z.eqb byte_length Utf.utf8_decode.

(** *** The handlers, case by case *)

Lemma on_data_go chunk s :
  w_ending (dst s) = false -> w_errored (dst s) = false ->
  w_writing (dst s) = false ->
  w_length (dst s) + byte_length chunk < highWaterMark ->
  on_data chunk s =
  doWrite chunk
    (on_dst (set_w_length (w_length (dst s) + byte_length chunk))
       (observe (Offered chunk) s)).
Proof.
  destruct s as [? ? ? ? [] ? ? ?]; cbn; intros -> -> -> Hlt.
  unfold on_data, writable_write; cbn.
  rewrite (proj2 (Z.ltb_lt _ _) Hlt). reflexivity.
Qed.

Lemma on_data_pause chunk s :
  w_ending (dst s) = false -> w_errored (dst s) = false ->
  w_writing (dst s) = false ->
  highWaterMark <= w_length (dst s) + byte_length chunk ->
  on_data chunk s =
  on_dst (fun w => set_drain_listeners (S (drain_listeners w)) w)
    (readable_pause
       (set_pauses (S (pauses s))
          (doWrite chunk
             (on_dst (set_w_needDrain true)
                (on_dst (set_w_length (w_length (dst s) + byte_length chunk))
                   (observe (Offered chunk) s)))))).
Proof.
  destruct s as [? ? ? ? [] ? ? ?]; cbn; intros -> -> -> Hge.
  unfold on_data, writable_write; cbn.
  rewrite (proj2 (Z.ltb_ge _ _) Hge). reflexivity.
Qed.

Lemma on_data_pause_busy chunk s :
  w_ending (dst s) = false -> w_errored (dst s) = false ->
  w_writing (dst s) = true ->
  highWaterMark <= w_length (dst s) + byte_length chunk ->
  on_data chunk s =
  on_dst (fun w => set_drain_listeners (S (drain_listeners w)) w)
    (readable_pause
       (set_pauses (S (pauses s))
          (on_dst (fun w => set_w_buffered (w_buffered w ++ [chunk]) w)
             (on_dst (set_w_needDrain true)
                (on_dst (set_w_length (w_length (dst s) + byte_length chunk))
                   (observe (Offered chunk) s)))))).
Proof.
  destruct s as [? ? ? ? [] ? ? ?]; cbn; intros -> -> -> Hge.
  unfold on_data, writable_write; cbn.
  rewrite (proj2 (Z.ltb_ge _ _) Hge). reflexivity.
Qed.

Lemma needFinish_writing w : w_writing w = true -> needFinish w = false.
Proof.
  destruct w; cbn; intros ->. unfold needFinish; cbn.
  now rewrite !andb_false_r.
Qed.

Lemma needFinish_not_ending w : w_ending w = false -> needFinish w = false.
Proof. destruct w; cbn; intros ->. reflexivity. Qed.

Lemma needFinish_errored w : w_errored w = true -> needFinish w = false.
Proof.
  destruct w; cbn; intros ->. unfold needFinish; cbn.
  now rewrite !andb_false_r.
Qed.

Lemma needFinish_ready w :
  w_ending w = true -> w_length w = 0 -> w_errored w = false ->
  w_buffered w = [] -> w_finished w = false -> w_writing w = false ->
  needFinish w = true.
Proof. destruct w; cbn; intros -> -> -> -> -> ->. reflexivity. Qed.

Lemma finishMaybe_not_ending sync s :
  w_ending (dst s) = false -> finishMaybe sync s = s.
Proof.
  intros H. unfold finishMaybe. now rewrite needFinish_not_ending.
Qed.

Lemma finishMaybe_writing sync s :
  w_writing (dst s) = true -> finishMaybe sync s = s.
Proof.
  intros H. unfold finishMaybe. now rewrite needFinish_writing.
Qed.

Lemma finishMaybe_errored sync s :
  w_errored (dst s) = true -> finishMaybe sync s = s.
Proof.
  intros H. unfold finishMaybe. now rewrite needFinish_errored.
Qed.

Lemma afterWrite_drain s :
  w_ending (dst s) = false -> w_errored (dst s) = false ->
  w_length (dst s) = 0 -> w_needDrain (dst s) = true ->
  afterWrite s = finishMaybe false (emit_drain (on_dst (set_w_needDrain false) s)).
Proof.
  destruct s as [? ? ? [] [] ? ? ?]; cbn; intros -> -> -> ->. reflexivity.
Qed.

Lemma afterWrite_pending s :
  w_length (dst s) <> 0 -> afterWrite s = s.
Proof.
  destruct s as [? ? ? ? [] ? ? ?]; cbn; intros Hne.
  unfold afterWrite, finishMaybe, needFinish; cbn.
  rewrite (proj2 (Z.eqb_neq _ _) Hne).
  destruct w_ending0, w_errored0; cbn;
    rewrite ?(proj2 (Z.eqb_neq _ _) Hne); reflexivity.
Qed.

Lemma afterWrite_finish s :
  w_ending (dst s) = true -> w_length (dst s) = 0 ->
  w_errored (dst s) = false -> w_buffered (dst s) = [] ->
  w_finished (dst s) = false -> w_writing (dst s) = false ->
  afterWrite s = finish s.
Proof.
  destruct s as [? ? ? ? [] ? ? ?]; cbn; intros -> -> -> -> -> ->. reflexivity.
Qed.

Lemma endReadableNT_emit s :
  r_endEmitted (src s) = false -> r_buffer (src s) = [] ->
  endReadableNT s = writable_end (on_src (set_r_endEmitted true) s).
Proof. unfold endReadableNT. now intros -> ->. Qed.

Lemma endReadableNT_again s :
  r_endEmitted (src s) = true -> endReadableNT s = s.
Proof. unfold endReadableNT. now intros ->. Qed.

Lemma writable_end_first s :
  w_errored (dst s) = false -> w_ending (dst s) = false ->
  writable_end s = finishMaybe true (on_dst (set_w_ending true) s).
Proof. unfold writable_end. now intros -> ->. Qed.

Lemma writable_end_errored s :
  w_errored (dst s) = true -> writable_end s = s.
Proof. unfold writable_end. now intros ->. Qed.

Lemma finishMaybe_ready_sync s :
  needFinish (dst s) = true -> finishMaybe true s = nextTick FinishNT s.
Proof. unfold finishMaybe. now intros ->. Qed.

Lemma flow_more n s c c' cs :
  r_flowing (src s) = true -> r_buffer (src s) = c :: c' :: cs ->
  flow (S n) s = flow n (on_data c (on_src (set_r_buffer (c' :: cs)) s)).
Proof. intros Hf Hb. cbn [flow]. unfold read. now rewrite Hf, Hb. Qed.

Lemma flow_last n s c :
  r_flowing (src s) = true -> r_ended (src s) = true ->
  r_buffer (src s) = [c] ->
  flow (S n) s = flow n (on_data c (endReadable (on_src (set_r_buffer []) s))).
Proof.
  intros Hf He Hb. cbn [flow]. unfold read. rewrite Hf, Hb.
  cbn [on_src set_src src set_r_buffer r_ended]. now rewrite He.
Qed.

Lemma flow_empty n s :
  r_flowing (src s) = true -> r_ended (src s) = true ->
  r_buffer (src s) = [] ->
  flow (S n) s = endReadable s.
Proof. intros Hf He Hb. cbn [flow]. unfold read. now rewrite Hf, Hb, He. Qed.

(** Without [push(null)] an empty buffer ends nothing. *)
Lemma flow_waiting n s :
  r_flowing (src s) = true -> r_ended (src s) = false ->
  r_buffer (src s) = [] ->
  flow (S n) s = s.
Proof. intros Hf He Hb. cbn [flow]. unfold read. now rewrite Hf, Hb, He. Qed.

Lemma flow_paused n s : r_flowing (src s) = false -> flow n s = s.
Proof. intros H. destruct n; cbn [flow]; [reflexivity | now rewrite H]. Qed.

(** The number of pauses of a run over the queued chunks [R], when the
    consumer already holds [acc] bytes: a chunk that brings the held bytes
    to the bound pauses the source, and the next chunk is offered only
    once the consumer holds nothing. *)
Fixpoint count_pauses (acc : Z) (R : list bytes) : nat :=
  match R with
  | [] => 0
  | b :: R' =>
      if acc + byte_length b <? highWaterMark
      then count_pauses (acc + byte_length b) R'
      else S (count_pauses 0 R')
  end.

Lemma count_pauses_big b R :
  2 <= byte_length b -> count_pauses 0 (b :: R) = S (count_pauses 0 R).
Proof.
  intros H. cbn [count_pauses].
  now rewrite (proj2 (Z.ltb_ge _ _)) by (unfold highWaterMark; lia).
Qed.

Lemma count_pauses_small b :
  byte_length b = 1 -> count_pauses 0 [b] = 0%nat.
Proof.
  intros H. cbn [count_pauses].
  now rewrite (proj2 (Z.ltb_lt _ _)) by (unfold highWaterMark; lia).
Qed.

Lemma count_pauses_pair b1 b2 R :
  byte_length b1 = 1 -> 1 <= byte_length b2 ->
  count_pauses 0 (b1 :: b2 :: R) = S (count_pauses 0 R).
Proof.
  intros H1 H2. cbn [count_pauses].
  rewrite (proj2 (Z.ltb_lt _ _)) by (unfold highWaterMark; lia).
  now rewrite (proj2 (Z.ltb_ge _ _)) by (unfold highWaterMark; lia).
Qed.

Section Proofs.
Variable fails : nat -> bool.
Variable input : jsstring.
Variable chunkSize : Z.

Local Abbreviation run := (run fails input chunkSize).
Local Abbreviation exec := (exec fails input chunkSize).
Local Abbreviation resume_ := (resume_ input chunkSize).
Local Abbreviation read0 := (read0 input chunkSize).

Lemma write_timer_ok chunk s :
  fails (w_completed (dst s)) = false ->
  write_timer fails chunk s =
  afterWrite (clearBuffer
    (on_dst (fun w => set_w_length (w_length w - byte_length chunk)
                        (set_w_writing false w))
      (set_result (result s ++ Utf.utf8_decode chunk)
         (on_dst (set_w_completed (S (w_completed (dst s)))) s)))).
Proof. intros H. unfold write_timer. now rewrite H. Qed.

Lemma write_timer_failed chunk s :
  fails (w_completed (dst s)) = true ->
  write_timer fails chunk s =
  destroy (ConsumerFailure (w_completed (dst s)))
    (errorBuffer
       (on_dst (fun w => set_w_length (w_length w - byte_length chunk)
                           (set_w_writing false w))
          (observe (Failed (w_completed (dst s)))
             (on_dst (set_w_completed (S (w_completed (dst s)))) s)))).
Proof. intros H. unfold write_timer. now rewrite H. Qed.

(** What [resume_] does after [flow]. *)
Definition after_flow (fuel : nat) (s : pipe) : option pipe :=
  if r_flowing (src s) then read0 fuel s else Some s.

Lemma resume_ended fuel s c cs :
  r_ended (src s) = true -> r_buffer (src s) = c :: cs ->
  resume_ fuel s =
  after_flow fuel
    (flow (S (S (List.length cs))) (on_src (set_r_resumeScheduled false) s)).
Proof.
  intros He Hb. unfold resume_, Pipeline.read0, after_flow.
  rewrite He, Hb. destruct s as [? ? ? [] ? ? ? ?]; cbn in *. now subst.
Qed.

Lemma after_flow_paused fuel s :
  r_flowing (src s) = false -> after_flow fuel s = Some s.
Proof. unfold after_flow. now intros ->. Qed.

Lemma after_flow_ended fuel s :
  r_flowing (src s) = true -> r_ended (src s) = true ->
  r_buffer (src s) = [] ->
  after_flow fuel s = Some (endReadable s).
Proof. unfold after_flow, Pipeline.read0. now intros -> -> ->. Qed.

Lemma run_tick f s t ts :
  ticks s = t :: ts ->
  run (S f) s =
  match exec f t (set_ticks ts s) with
  | Some s' => run f s'
  | None => None
  end.
Proof. intros H. cbn [Pipeline.run]. now rewrite H. Qed.

Lemma run_timer f s t ts :
  ticks s = [] -> timers s = t :: ts ->
  run (S f) s =
  match exec f t (set_timers ts s) with
  | Some s' => run f s'
  | None => None
  end.
Proof. intros H H'. cbn [Pipeline.run]. now rewrite H, H'. Qed.

Lemma run_done f s :
  ticks s = [] -> timers s = [] -> run (S f) s = Some s.
Proof. intros H H'. cbn [Pipeline.run]. now rewrite H, H'. Qed.

(** The state in which [resume_] is about to run on a source that has
    ended, with the consumer idle: [R] are the chunks still queued, [res]
    and [p] the values of [result] and [pauses], [j] the number of
    completed writes and [tr] what was observed so far. *)
Definition resumed (R : list bytes) (res : jsstring) (p j : nat)
    (tr : list event) : pipe :=
  {| result := res; pauses := p; settled := None;
     src := {| r_buffer := R; r_flowing := true; r_ended := true;
               r_endEmitted := false; r_resumeScheduled := true |};
     dst := {| w_length := 0; w_needDrain := false; w_writing := false;
               w_buffered := []; w_ending := false; w_finished := false;
               w_errored := false; w_completed := j; drain_listeners := 0 |};
     ticks := [Resume_]; timers := []; trace := tr |}.

Ltac side :=
  cbn; first [reflexivity | assumption | unfold highWaterMark; lia].

Ltac handler :=
  first
    [ rewrite on_data_go by side
    | rewrite on_data_pause by side
    | rewrite on_data_pause_busy by side
    | rewrite write_timer_ok by side
    | rewrite write_timer_failed by side
    | rewrite afterWrite_drain by side
    | rewrite afterWrite_finish by side
    | rewrite afterWrite_pending by side
    | rewrite finishMaybe_not_ending by side
    | rewrite finishMaybe_writing by side
    | rewrite finishMaybe_errored by side
    | rewrite finishMaybe_ready_sync by (apply needFinish_ready; side)
    | rewrite needFinish_ready by side
    | rewrite needFinish_writing by side
    | rewrite needFinish_not_ending by side
    | rewrite needFinish_errored by side
    | rewrite endReadableNT_emit by side
    | rewrite endReadableNT_again by side
    | rewrite writable_end_first by side
    | rewrite writable_end_errored by side
    | erewrite flow_more by side
    | erewrite flow_last by side
    | rewrite flow_empty by side
    | rewrite flow_paused by side
    | rewrite after_flow_paused by side
    | rewrite after_flow_ended by side
    | erewrite resume_ended by side ].

Ltac tick :=
  first [ erewrite run_tick by side
        | erewrite run_timer by side
        | rewrite run_done by side ];
  cbn [Pipeline.exec List.length];
  repeat handler;
  cbv beta iota.

Lemma pipe_ext s s' :
  result s = result s' -> pauses s = pauses s' -> settled s = settled s' ->
  r_buffer (src s) = r_buffer (src s') ->
  r_flowing (src s) = r_flowing (src s') ->
  r_ended (src s) = r_ended (src s') ->
  r_endEmitted (src s) = r_endEmitted (src s') ->
  r_resumeScheduled (src s) = r_resumeScheduled (src s') ->
  w_length (dst s) = w_length (dst s') ->
  w_needDrain (dst s) = w_needDrain (dst s') ->
  w_writing (dst s) = w_writing (dst s') ->
  w_buffered (dst s) = w_buffered (dst s') ->
  w_ending (dst s) = w_ending (dst s') ->
  w_finished (dst s) = w_finished (dst s') ->
  w_errored (dst s) = w_errored (dst s') ->
  w_completed (dst s) = w_completed (dst s') ->
  drain_listeners (dst s) = drain_listeners (dst s') ->
  ticks s = ticks s' -> timers s = timers s' -> trace s = trace s' ->
  s = s'.
Proof.
  destruct s as [? ? ? [] [] ? ? ?], s' as [? ? ? [] [] ? ? ?]; cbn.
  intros; subst; reflexivity.
Qed.

Ltac same_state :=
  apply pipe_ext; cbn;
  solve [reflexivity | lia | rewrite <- ?app_assoc; reflexivity].

(** A run that ends with the promise settled as [st], having shown
    [tr]. *)
Definition ends_with (o : option pipe) (st : settlement) (tr : list event) :
    Prop :=
  exists s', o = Some s' /\ settled s' = Some st /\ trace s' = tr.

Ltac finished :=
  eexists; split; [reflexivity | split; cbn;
    [ repeat f_equal; try lia
    | rewrite <- ?app_assoc; reflexivity ] ].

(** **** Bursts that are followed by more chunks *)

Lemma burst1 b b' R res p j tr f :
  2 <= byte_length b ->
  fails j = false ->
  run (S (S f)) (resumed (b :: b' :: R) res p j tr) =
  run f
    (resumed (b' :: R) (res ++ Utf.utf8_decode b) (S p) (S j) (tr ++ [Offered b])).
Proof.
  intros Hb Hf. unfold resumed. do 2 tick.
  f_equal. same_state.
Qed.

Lemma burst2 b1 b2 b' R res p j tr f :
  byte_length b1 = 1 -> 1 <= byte_length b2 ->
  fails j = false -> fails (S j) = false ->
  run (S (S (S f))) (resumed (b1 :: b2 :: b' :: R) res p j tr) =
  run f
    (resumed (b' :: R) ((res ++ Utf.utf8_decode b1) ++ Utf.utf8_decode b2) (S p)
       (S (S j)) ((tr ++ [Offered b1]) ++ [Offered b2])).
Proof.
  intros Hb1 Hb2 Hf1 Hf2. unfold resumed. do 3 tick.
  f_equal. same_state.
Qed.

(** **** The last burst of a run without failure *)

Lemma last1_big b res p j tr f :
  2 <= byte_length b -> fails j = false ->
  ends_with (run (4 + f) (resumed [b] res p j tr))
    (Resolved (res ++ Utf.utf8_decode b) (S p))
    (tr ++ [Offered b; ResolveCalled (res ++ Utf.utf8_decode b) (S p)]).
Proof.
  intros Hb Hf. unfold resumed. cbn [Nat.add]. do 4 tick. finished.
Qed.

Lemma last1_small b res p j tr f :
  byte_length b = 1 -> fails j = false ->
  ends_with (run (6 + f) (resumed [b] res p j tr))
    (Resolved (res ++ Utf.utf8_decode b) p)
    (tr ++ [Offered b; ResolveCalled (res ++ Utf.utf8_decode b) p]).
Proof.
  intros Hb Hf. unfold resumed. cbn [Nat.add]. do 6 tick. finished.
Qed.

Lemma last2 b1 b2 res p j tr f :
  byte_length b1 = 1 -> 1 <= byte_length b2 ->
  fails j = false -> fails (S j) = false ->
  ends_with (run (5 + f) (resumed [b1; b2] res p j tr))
    (Resolved ((res ++ Utf.utf8_decode b1) ++ Utf.utf8_decode b2) (S p))
    (tr ++ [Offered b1; Offered b2;
            ResolveCalled ((res ++ Utf.utf8_decode b1) ++ Utf.utf8_decode b2) (S p)]).
Proof.
  intros Hb1 Hb2 Hf1 Hf2. unfold resumed. cbn [Nat.add]. do 5 tick. finished.
Qed.

(** **** Bursts in which a completion fails *)

Lemma fail1_big b b' R res p j tr f :
  2 <= byte_length b -> fails j = true ->
  ends_with (run (4 + f) (resumed (b :: b' :: R) res p j tr))
    (Rejected (ConsumerFailure j))
    (tr ++ [Offered b; Failed j; RejectCalled (ConsumerFailure j)]).
Proof.
  intros Hb Hf. unfold resumed. cbn [Nat.add]. do 4 tick. finished.
Qed.

Lemma fail1_big_last b res p j tr f :
  2 <= byte_length b -> fails j = true ->
  ends_with (run (5 + f) (resumed [b] res p j tr))
    (Rejected (ConsumerFailure j))
    (tr ++ [Offered b; Failed j; RejectCalled (ConsumerFailure j)]).
Proof.
  intros Hb Hf. unfold resumed. cbn [Nat.add]. do 5 tick. finished.
Qed.

Lemma fail1_small_last b res p j tr f :
  byte_length b = 1 -> fails j = true ->
  ends_with (run (7 + f) (resumed [b] res p j tr))
    (Rejected (ConsumerFailure j))
    (tr ++ [Offered b; Failed j; RejectCalled (ConsumerFailure j)]).
Proof.
  intros Hb Hf. unfold resumed. cbn [Nat.add]. do 7 tick. finished.
Qed.

Lemma fail1_pair b1 b2 b' R res p j tr f :
  byte_length b1 = 1 -> 1 <= byte_length b2 -> fails j = true ->
  ends_with (run (4 + f) (resumed (b1 :: b2 :: b' :: R) res p j tr))
    (Rejected (ConsumerFailure j))
    (tr ++ [Offered b1; Offered b2; Failed j; RejectCalled (ConsumerFailure j)]).
Proof.
  intros Hb1 Hb2 Hf. unfold resumed. cbn [Nat.add]. do 4 tick. finished.
Qed.

Lemma fail1_pair_last b1 b2 res p j tr f :
  byte_length b1 = 1 -> 1 <= byte_length b2 -> fails j = true ->
  ends_with (run (5 + f) (resumed [b1; b2] res p j tr))
    (Rejected (ConsumerFailure j))
    (tr ++ [Offered b1; Offered b2; Failed j; RejectCalled (ConsumerFailure j)]).
Proof.
  intros Hb1 Hb2 Hf. unfold resumed. cbn [Nat.add]. do 5 tick. finished.
Qed.

Lemma fail2_pair b1 b2 b' R res p j tr f :
  byte_length b1 = 1 -> 1 <= byte_length b2 ->
  fails j = false -> fails (S j) = true ->
  ends_with (run (5 + f) (resumed (b1 :: b2 :: b' :: R) res p j tr))
    (Rejected (ConsumerFailure (S j)))
    (tr ++ [Offered b1; Offered b2; Failed (S j);
            RejectCalled (ConsumerFailure (S j))]).
Proof.
  intros Hb1 Hb2 Hf1 Hf2. unfold resumed. cbn [Nat.add]. do 5 tick. finished.
Qed.

Lemma fail2_pair_last b1 b2 res p j tr f :
  byte_length b1 = 1 -> 1 <= byte_length b2 ->
  fails j = false -> fails (S j) = true ->
  ends_with (run (6 + f) (resumed [b1; b2] res p j tr))
    (Rejected (ConsumerFailure (S j)))
    (tr ++ [Offered b1; Offered b2; Failed (S j);
            RejectCalled (ConsumerFailure (S j))]).
Proof.
  intros Hb1 Hb2 Hf1 Hf2. unfold resumed. cbn [Nat.add]. do 6 tick. finished.
Qed.

Lemma ends_with_eq o st tr st' tr' :
  ends_with o st tr -> st = st' -> tr = tr' -> ends_with o st' tr'.
Proof. now intros H <- <-. Qed.

Ltac list_eq :=
  rewrite <- ?app_assoc; cbn [app flat_map map]; rewrite <- ?app_assoc;
  repeat match goal with
         | |- _ = _ => first [reflexivity | lia | progress f_equal]
         end.

Definition nonempty_chunks (R : list bytes) : Prop :=
  Forall (fun b => 1 <= byte_length b) R.

(** A run from [resumed] in which no completion fails resolves with the
    decoded chunks in order and with [count_pauses] pauses. *)
Lemma run_resumed_resolves n :
  forall R res p j tr f,
    (List.length R <= n)%nat -> R <> [] -> nonempty_chunks R ->
    (forall i, (i < List.length R)%nat -> fails (j + i) = false) ->
    (3 * List.length R + 6 <= f)%nat ->
    ends_with (run f (resumed R res p j tr))
      (Resolved (res ++ flat_map Utf.utf8_decode R)
         (p + count_pauses 0 R))
      (tr ++ map Offered R ++
       [ResolveCalled (res ++ flat_map Utf.utf8_decode R)
          (p + count_pauses 0 R)]).
Proof.
  induction n as [|n IH]; intros R res p j tr f Hlen Hne Hchunks Hok Hfuel.
  { destruct R; [congruence | cbn in Hlen; lia]. }
  destruct R as [|b [|b2 R']]; [congruence | |].
  - (* one chunk left *)
    inversion Hchunks as [|? ? Hb _]; subst.
    assert (Hj : fails j = false).
    { rewrite <- (Nat.add_0_r j). apply Hok. cbn. lia. }
    cbn [flat_map map app]. rewrite app_nil_r.
    destruct (Z_lt_le_dec (byte_length b) 2) as [Hs|Hbig].
    + assert (Hb1 : byte_length b = 1) by lia.
      rewrite count_pauses_small, Nat.add_0_r by trivial.
      replace f with (6 + (f - 6))%nat by (cbn in Hfuel; lia).
      now apply last1_small.
    + rewrite count_pauses_big by trivial. cbn [count_pauses].
      replace (p + 1)%nat with (S p) by lia.
      replace f with (4 + (f - 4))%nat by (cbn in Hfuel; lia).
      now apply last1_big.
  - inversion Hchunks as [|? ? Hb Hrest]; subst.
    inversion Hrest as [|? ? Hb2 Hrest']; subst.
    assert (Hj : fails j = false).
    { rewrite <- (Nat.add_0_r j). apply Hok. cbn. lia. }
    assert (Hj1 : fails (S j) = false).
    { replace (S j) with (j + 1)%nat by lia. apply Hok. cbn. lia. }
    destruct (Z_lt_le_dec (byte_length b) 2) as [Hs|Hbig].
    + assert (Hb1 : byte_length b = 1) by lia.
      destruct R' as [|b3 R''].
      * cbn [flat_map map app]. rewrite app_nil_r.
        rewrite count_pauses_pair by trivial. cbn [count_pauses].
        replace (p + 1)%nat with (S p) by lia. rewrite app_assoc.
        replace f with (5 + (f - 5))%nat by (cbn in Hfuel; lia).
        now apply last2.
      * replace f with (S (S (S (f - 3)))) by (cbn in Hfuel; lia).
        rewrite burst2 by trivial.
        eapply ends_with_eq.
        -- apply IH; [cbn in *; lia | congruence | trivial | | cbn in *; lia].
           intros i Hi. replace (S (S j) + i)%nat with (j + S (S i))%nat by lia.
           apply Hok. cbn in *. lia.
        -- rewrite count_pauses_pair by trivial. list_eq.
        -- rewrite count_pauses_pair by trivial. list_eq.
    + replace f with (S (S (f - 2))) by (cbn in Hfuel; lia).
      rewrite burst1 by trivial.
      eapply ends_with_eq.
      * apply IH; [cbn in *; lia | congruence | trivial | | cbn in *; lia].
        intros i Hi. replace (S j + i)%nat with (j + S i)%nat by lia.
        apply Hok. cbn in *. lia.
      * rewrite (count_pauses_big b) by trivial. list_eq.
      * rewrite (count_pauses_big b) by trivial. list_eq.
Qed.

(** A run from [resumed] in which the [i]-th completion is the first to
    fail rejects with that failure; the chunks shown to the consumer are
    some of the first of [R], all of them before the failure, and
    [resolve] is never called. *)
Lemma run_resumed_rejects n :
  forall R res p j tr f i,
    (List.length R <= n)%nat -> nonempty_chunks R ->
    (i < List.length R)%nat -> fails (j + i) = true ->
    (forall i', (i' < i)%nat -> fails (j + i') = false) ->
    (3 * List.length R + 7 <= f)%nat ->
    exists m,
      ends_with (run f (resumed R res p j tr))
        (Rejected (ConsumerFailure (j + i)))
        (tr ++ map Offered (firstn m R) ++
         [Failed (j + i); RejectCalled (ConsumerFailure (j + i))]).
Proof.
  induction n as [|n IH]; intros R res p j tr f i Hlen Hchunks Hi Hfail Hok Hfuel.
  { destruct R; cbn in *; lia. }
  destruct R as [|b [|b2 R']]; [cbn in Hi; lia | |].
  - (* one chunk left: it is the one that fails *)
    inversion Hchunks as [|? ? Hb _]; subst.
    assert (i = 0%nat) by (cbn in Hi; lia). subst i.
    rewrite Nat.add_0_r in *. exists 1%nat. cbn [firstn map app].
    destruct (Z_lt_le_dec (byte_length b) 2) as [Hs|Hbig].
    + replace f with (7 + (f - 7))%nat by (cbn in Hfuel; lia).
      apply fail1_small_last; [lia | trivial].
    + replace f with (5 + (f - 5))%nat by (cbn in Hfuel; lia).
      now apply fail1_big_last.
  - inversion Hchunks as [|? ? Hb Hrest]; subst.
    inversion Hrest as [|? ? Hb2 Hrest']; subst.
    destruct (Z_lt_le_dec (byte_length b) 2) as [Hs|Hbig].
    + assert (Hb1 : byte_length b = 1) by lia.
      destruct i as [|[|i]].
      * (* the first completion of a burst of two fails *)
        rewrite Nat.add_0_r in *. exists 2%nat. cbn [firstn map app].
        destruct R' as [|b3 R''].
        -- replace f with (5 + (f - 5))%nat by (cbn in Hfuel; lia).
           now apply fail1_pair_last.
        -- replace f with (4 + (f - 4))%nat by (cbn in Hfuel; lia).
           now apply fail1_pair.
      * (* the second completion of a burst of two fails *)
        assert (Hj : fails j = false).
        { rewrite <- (Nat.add_0_r j). apply Hok. lia. }
        replace (j + 1)%nat with (S j) in * by lia.
        exists 2%nat. cbn [firstn map app].
        destruct R' as [|b3 R''].
        -- replace f with (6 + (f - 6))%nat by (cbn in Hfuel; lia).
           now apply fail2_pair_last.
        -- replace f with (5 + (f - 5))%nat by (cbn in Hfuel; lia).
           now apply fail2_pair.
      * (* the failure comes after this burst *)
        assert (Hj : fails j = false).
        { rewrite <- (Nat.add_0_r j). apply Hok. lia. }
        assert (Hj1 : fails (S j) = false).
        { replace (S j) with (j + 1)%nat by lia. apply Hok. lia. }
        destruct R' as [|b3 R'']; [cbn in Hi; lia|].
        replace f with (S (S (S (f - 3)))) by (cbn in Hfuel; lia).
        rewrite burst2 by trivial.
        destruct (IH (b3 :: R'')
                    ((res ++ Utf.utf8_decode b) ++ Utf.utf8_decode b2) (S p)
                    (S (S j)) ((tr ++ [Offered b]) ++ [Offered b2])
                    (f - 3)%nat i) as [m Hm];
          [cbn in *; lia | trivial | cbn in *; lia | | | cbn in *; lia |].
        { replace (S (S j) + i)%nat with (j + S (S i))%nat by lia. trivial. }
        { intros i' Hi'.
          replace (S (S j) + i')%nat with (j + S (S i'))%nat by lia.
          apply Hok. lia. }
        exists (S (S m)).
        replace (j + S (S i))%nat with (S (S j) + i)%nat by lia.
        eapply ends_with_eq; [exact Hm | reflexivity |].
        cbn [firstn map]. list_eq.
    + destruct i as [|i].
      * (* the completion of this chunk fails *)
        rewrite Nat.add_0_r in *. exists 1%nat. cbn [firstn map app].
        replace f with (4 + (f - 4))%nat by (cbn in Hfuel; lia).
        now apply fail1_big.
      * assert (Hj : fails j = false).
        { rewrite <- (Nat.add_0_r j). apply Hok. lia. }
        replace f with (S (S (f - 2))) by (cbn in Hfuel; lia).
        rewrite burst1 by trivial.
        destruct (IH (b2 :: R') (res ++ Utf.utf8_decode b) (S p) (S j)
                    (tr ++ [Offered b]) (f - 2)%nat i) as [m Hm];
          [cbn in *; lia | trivial | cbn in *; lia | | | cbn in *; lia |].
        { replace (S j + i)%nat with (j + S i)%nat by lia. trivial. }
        { intros i' Hi'. replace (S j + i')%nat with (j + S i')%nat by lia.
          apply Hok. lia. }
        exists (S m).
        replace (j + S i)%nat with (S j + i)%nat by lia.
        eapply ends_with_eq; [exact Hm | reflexivity |].
        cbn [firstn map]. list_eq.
Qed.

(** **** The first tick: [read()] fills the queue *)

Lemma push_chunk ch s :
  ch <> [] ->
  push ch s =
  on_src (fun r => set_r_buffer (r_buffer r ++ [Utf.utf8_encode ch]) r) s.
Proof.
  intros Hne. unfold push.
  pose proof (UtfFacts.utf8_encode_length ch) as Hlen.
  destruct (Utf.utf8_encode ch) eqn:E; [|reflexivity].
  destruct ch; [congruence | cbn in Hlen; lia].
Qed.

Lemma push_chunks chs :
  Forall (fun ch => ch <> []) chs ->
  forall s,
    fold_left (fun s ch => push ch s) chs s =
    on_src (fun r => set_r_buffer (r_buffer r ++ map Utf.utf8_encode chs) r) s.
Proof.
  induction 1 as [|ch chs Hch _ IH]; intros s; cbn [fold_left map].
  - destruct s as [? ? ? [] ? ? ? ?].
    cbv [on_src set_src set_r_buffer src r_buffer map]. now rewrite app_nil_r.
  - rewrite IH, push_chunk by trivial.
    destruct s as [? ? ? [] ? ? ? ?].
    cbv [on_src set_src set_r_buffer src r_buffer map
         result pauses settled dst ticks timers trace
         r_flowing r_ended r_endEmitted r_resumeScheduled].
    now rewrite <- app_assoc.
Qed.

Lemma read_loop_chunks :
  1 <= chunkSize ->
  forall n i s fuel,
    0 <= i ->
    (List.length (skipn (Z.to_nat i) input) <= n)%nat -> (n < fuel)%nat ->
    read_loop input chunkSize fuel i s =
    Some (push_eof
            (fold_left (fun s ch => push ch s)
               (chunks_of n (Z.to_nat chunkSize) (skipn (Z.to_nat i) input)) s)).
Proof.
  intros Hc. induction n as [|n IH]; intros i s fuel Hi Hlen Hfuel.
  - destruct fuel as [|fuel]; [lia|]. cbn [read_loop chunks_of fold_left].
    rewrite length_skipn in Hlen.
    now rewrite (proj2 (Z.ltb_ge _ _)) by lia.
  - destruct fuel as [|fuel]; [lia|]. cbn [read_loop].
    destruct (Z.ltb_spec i (Z.of_nat (List.length input))) as [Hlt|Hge].
    + rewrite slice_chunk by lia.
      cbn [chunks_of].
      assert (Hl : (List.length input - Z.to_nat i <= S n)%nat)
        by now rewrite length_skipn in Hlen.
      destruct (skipn (Z.to_nat i) input) as [|x rest] eqn:E.
      { apply (f_equal (@List.length Z)) in E. rewrite length_skipn in E.
        cbn in E. lia. }
      rewrite <- E. cbn [fold_left].
      replace (skipn (Z.to_nat chunkSize) (skipn (Z.to_nat i) input))
        with (skipn (Z.to_nat (i + chunkSize)) input).
      * apply IH; [lia | | lia].
        rewrite length_skipn. lia.
      * rewrite skipn_skipn. f_equal. lia.
    + rewrite skipn_all2 by lia. reflexivity.
Qed.

Lemma read_loop_diverges :
  chunkSize <= 0 -> input <> [] ->
  forall fuel i s, i <= 0 -> read_loop input chunkSize fuel i s = None.
Proof.
  intros Hc Hin. induction fuel as [|fuel IH]; intros i s Hi; [reflexivity|].
  cbn [read_loop].
  assert (0 < Z.of_nat (List.length input)) by (destruct input; [congruence | cbn; lia]).
  rewrite (proj2 (Z.ltb_lt _ _)) by lia. apply IH. lia.
Qed.

Lemma resume_unfold fuel s :
  resume_ fuel s =
  match read0 fuel s with
  | None => None
  | Some s1 =>
      after_flow fuel
        (flow (S (List.length (r_buffer (src s1))))
           (on_src (set_r_resumeScheduled false) s1))
  end.
Proof.
  unfold Pipeline.resume_, after_flow. destruct (read0 fuel s) as [s1|]; [|reflexivity].
  destruct s1 as [? ? ? [] ? ? ? ?]; reflexivity.
Qed.

(** The chunks of the input as the buffers that [read()] queues. *)
Definition queued : list bytes :=
  map Utf.utf8_encode (chunks chunkSize input).

Lemma read0_start fuel :
  1 <= chunkSize -> (List.length input < fuel)%nat ->
  read0 fuel (set_ticks [] start) = Some (set_ticks [] (resumed queued [] 0 0 [])).
Proof.
  intros Hc Hfuel. unfold Pipeline.read0. cbn [src r_ended start set_ticks].
  rewrite (read_loop_chunks Hc (List.length input));
    [|lia | rewrite length_skipn; lia | lia].
  change (skipn (Z.to_nat 0) input) with input.
  rewrite push_chunks by (apply chunks_of_nonempty; lia).
  reflexivity.
Qed.

Lemma queued_nonempty :
  1 <= chunkSize -> nonempty_chunks queued.
Proof.
  intros Hc. unfold queued, chunks, nonempty_chunks.
  pose proof (chunks_of_nonempty (List.length input) (Z.to_nat chunkSize) input) as H.
  specialize (H ltac:(lia)).
  induction H as [|ch chs Hch _ IH]; cbn [map]; constructor; trivial.
  pose proof (UtfFacts.utf8_encode_length ch). rewrite byte_length_eq.
  destruct ch; [congruence | cbn [List.length] in *; lia].
Qed.

Lemma queued_length : (List.length queued <= List.length input)%nat.
Proof. unfold queued, chunks. rewrite length_map. apply chunks_of_length. Qed.

Lemma queued_nil : input <> [] -> queued <> [].
Proof.
  unfold queued, chunks. destruct input; [congruence|]. discriminate.
Qed.

Lemma run_start f :
  1 <= chunkSize -> input <> [] -> (List.length input < f)%nat ->
  run (S f) start = run (S f) (resumed queued [] 0 0 []).
Proof.
  intros Hc Hin Hf.
  rewrite (run_tick f start Resume_ []) by reflexivity.
  rewrite (run_tick f (resumed queued [] 0 0 []) Resume_ []) by reflexivity.
  cbn [Pipeline.exec]. rewrite !resume_unfold, read0_start by trivial.
  pose proof (queued_nil Hin) as Hq.
  unfold Pipeline.read0. destruct queued as [|b R]; [congruence|]. reflexivity.
Qed.

(** A run with an empty input: nothing is offered, and the promise is
    resolved with the empty output and no pause. *)
Lemma run_empty f :
  input = [] ->
  ends_with (run (6 + f) start) (Resolved [] 0) [ResolveCalled [] 0].
Proof.
  intros Hin. cbn [Nat.add].
  rewrite (run_tick _ start Resume_ []) by reflexivity.
  cbn [Pipeline.exec]. rewrite resume_unfold.
  assert (Hr : read0 (S (S (S (S (S f))))) (set_ticks [] start) =
               Some (push_eof (set_ticks [] start))).
  { unfold Pipeline.read0. cbn [src r_ended start set_ticks read_loop].
    rewrite Hin. reflexivity. }
  rewrite Hr. cbn [List.length]. repeat handler. cbv beta iota.
  do 4 tick. finished.
Qed.

(** With a chunk size that is not positive the loop of [read()] never
    ends, whatever the fuel. *)
Lemma run_diverges :
  chunkSize <= 0 -> input <> [] -> forall fuel, run fuel start = None.
Proof.
  intros Hc Hin [|fuel]; [reflexivity|].
  rewrite (run_tick _ start Resume_ []) by reflexivity.
  cbn [Pipeline.exec]. rewrite resume_unfold.
  unfold Pipeline.read0. cbn [src r_ended start set_ticks].
  now rewrite read_loop_diverges by (trivial; lia).
Qed.

End Proofs.

(** *** What a run gives *)

(** The output and the number of pauses of a run, as functions of the
    input and the chunk size. *)
Definition output_of (chunkSize : Z) (input : jsstring) : jsstring :=
  flat_map Utf.utf8_decode (queued input chunkSize).

Definition pauses_of (chunkSize : Z) (input : jsstring) : nat :=
  count_pauses 0 (queued input chunkSize).

Definition enough_fuel (input : jsstring) (fuel : nat) : Prop :=
  (3 * List.length input + 8 <= fuel)%nat.

(** With a chunk size of at least 1 and a consumer that does not fail,
    the run ends with the promise resolved. *)
Lemma pipeline_resolves fails input chunkSize fuel :
  1 <= chunkSize -> (forall i, fails i = false) -> enough_fuel input fuel ->
  ends_with (pipeline fails fuel input (Some chunkSize))
    (Resolved (output_of chunkSize input) (pauses_of chunkSize input))
    (map Offered (queued input chunkSize) ++
     [ResolveCalled (output_of chunkSize input) (pauses_of chunkSize input)]).
Proof.
  intros Hc Hok Hfuel. unfold pipeline, default_chunkSize, enough_fuel in *.
  destruct input as [|u input'] eqn:Hin.
  - replace fuel with (6 + (fuel - 6))%nat by (cbn in Hfuel; lia).
    now apply run_empty.
  - rewrite <- Hin in *.
    assert (Hne : input <> []) by (rewrite Hin; discriminate).
    destruct fuel as [|f]; [lia|].
    rewrite run_start by (trivial; lia).
    pose proof (queued_length input chunkSize) as Hlen.
    eapply ends_with_eq.
    + apply (run_resumed_resolves fails input chunkSize
               (List.length (queued input chunkSize)));
        [lia | now apply queued_nil | now apply queued_nonempty | | lia].
      intros i _. apply Hok.
    + reflexivity.
    + reflexivity.
Qed.

Lemma manualBackpressure_result input chunkSize fuel :
  1 <= chunkSize -> enough_fuel input fuel ->
  manualBackpressure fuel input (Some chunkSize) =
  Some (Some (Resolved (output_of chunkSize input) (pauses_of chunkSize input))).
Proof.
  intros Hc Hfuel. unfold manualBackpressure.
  destruct (pipeline_resolves (fun _ => false) input chunkSize fuel Hc
              (fun _ => eq_refl) Hfuel) as (s' & -> & Hs & _).
  cbn. now rewrite Hs.
Qed.

(** With a consumer whose [k]-th completion is the first to fail, the run
    ends with the promise rejected. *)
Lemma pipeline_rejects fails input chunkSize fuel k :
  1 <= chunkSize ->
  (k < List.length (chunks chunkSize input))%nat ->
  fails k = true -> (forall i, (i < k)%nat -> fails i = false) ->
  enough_fuel input fuel ->
  exists m,
    ends_with (pipeline fails fuel input (Some chunkSize))
      (Rejected (ConsumerFailure k))
      (map Offered (firstn m (queued input chunkSize)) ++
       [Failed k; RejectCalled (ConsumerFailure k)]).
Proof.
  intros Hc Hk Hfail Hok Hfuel.
  unfold pipeline, default_chunkSize, enough_fuel in *.
  assert (Hne : input <> []).
  { intros ->. cbn in Hk. lia. }
  destruct fuel as [|f]; [lia|].
  rewrite run_start by (trivial; lia).
  pose proof (queued_length input chunkSize) as Hlen.
  destruct (run_resumed_rejects fails input chunkSize
              (List.length (queued input chunkSize))
              (queued input chunkSize) [] 0%nat 0%nat [] (S f) k)
    as [m Hm];
    [lia | now apply queued_nonempty
     | unfold queued; now rewrite length_map | trivial | trivial | lia |].
  exists m. exact Hm.
Qed.

(** *** The output *)

Lemma output_of_chunks chunkSize input :
  output_of chunkSize input =
  concat (map (fun ch => Utf.utf8_decode (Utf.utf8_encode ch))
            (chunks chunkSize input)).
Proof.
  unfold output_of, queued.
  induction (chunks chunkSize input) as [|ch chs IH]; cbn [map flat_map concat];
    [reflexivity | now rewrite IH].
Qed.


(** *** The number of pauses *)

Definition total_bytes (R : list bytes) : Z :=
  fold_right Z.add 0 (map byte_length R).

Lemma byte_length_encode (ch : jsstring) :
  Z.of_nat (List.length ch) <= byte_length (Utf.utf8_encode ch).
Proof.
  rewrite byte_length_eq. pose proof (UtfFacts.utf8_encode_length ch). lia.
Qed.

Lemma count_pauses_positive R :
  nonempty_chunks R ->
  forall acc, acc < highWaterMark -> highWaterMark <= acc + total_bytes R ->
              (1 <= count_pauses acc R)%nat.
Proof.
  unfold total_bytes.
  induction 1 as [|b R Hb _ IH]; intros acc Hacc Htot; cbn [map fold_right] in *.
  - lia.
  - cbn [count_pauses].
    destruct (Z.ltb_spec (acc + byte_length b) highWaterMark); [|lia].
    apply IH; lia.
Qed.

Lemma total_bytes_queued n size (s : jsstring) :
  (1 <= size)%nat -> (List.length s <= n)%nat ->
  Z.of_nat (List.length s) <=
  total_bytes (map Utf.utf8_encode (chunks_of n size s)).
Proof.
  intros Hs. unfold total_bytes. revert s.
  induction n as [|n IH]; intros s Hlen.
  - destruct s; cbn in *; lia.
  - cbn [chunks_of]. destruct s as [|x s']; [cbn; lia|].
    cbn [map fold_right].
    pose proof (byte_length_encode (firstn size (x :: s'))) as H1.
    specialize (IH (skipn size (x :: s'))).
    rewrite length_skipn, length_firstn in *. cbn [List.length] in *. lia.
Qed.

Lemma chunks_single chunkSize (u : Z) :
  1 <= chunkSize -> chunks chunkSize [u] = [[u]].
Proof.
  intros Hc. unfold chunks. cbn [List.length chunks_of].
  destruct (Z.to_nat chunkSize) as [|n] eqn:E; [lia|].
  cbn. now destruct n.
Qed.

(** An input of fewer bytes than the bound is never paused. *)
Lemma pauses_of_small chunkSize input :
  1 <= chunkSize ->
  byte_length (Utf.utf8_encode input) < highWaterMark ->
  pauses_of chunkSize input = 0%nat.
Proof.
  intros Hc Hsmall. pose proof (byte_length_encode input) as Hlen.
  unfold highWaterMark in *. unfold pauses_of, queued.
  destruct input as [|u [|v rest]]; [reflexivity | | cbn [List.length] in Hlen; lia].
  rewrite chunks_single by trivial. cbn [map count_pauses].
  now rewrite (proj2 (Z.ltb_lt _ _)) by (unfold highWaterMark; lia).
Qed.

(** An input of at least as many bytes as the bound is paused at least
    once. *)
Lemma pauses_of_positive chunkSize input :
  1 <= chunkSize ->
  highWaterMark <= byte_length (Utf.utf8_encode input) ->
  (1 <= pauses_of chunkSize input)%nat.
Proof.
  intros Hc Hbig. unfold pauses_of.
  apply count_pauses_positive;
    [now apply queued_nonempty | unfold highWaterMark; lia |].
  destruct input as [|u [|v rest]].
  - rewrite byte_length_eq in Hbig. cbn in Hbig. unfold highWaterMark in *. lia.
  - unfold queued. rewrite chunks_single by trivial.
    unfold total_bytes. cbn [map fold_right]. lia.
  - pose proof (total_bytes_queued (List.length (u :: v :: rest))
                  (Z.to_nat chunkSize) (u :: v :: rest)) as H.
    unfold queued, chunks. cbn [List.length] in *.
    unfold highWaterMark. lia.
Qed.

Lemma chunks_of_nil n size : chunks_of n size [] = [].
Proof. now destruct n. Qed.

(** With chunks of two code units or more, a longer input is paused at
    least as often. *)
Lemma count_pauses_wide size :
  (2 <= size)%nat ->
  forall n1 n2 (s1 s2 : jsstring),
    (List.length s1 <= n1)%nat -> (List.length s2 <= n2)%nat ->
    (List.length s1 < List.length s2)%nat ->
    (count_pauses 0 (map Utf.utf8_encode (chunks_of n1 size s1)) <=
     count_pauses 0 (map Utf.utf8_encode (chunks_of n2 size s2)))%nat.
Proof.
  intros Hs. induction n1 as [|n1 IH]; intros n2 s1 s2 H1 H2 Hlt.
  { cbn. lia. }
  destruct s1 as [|x s1']; [cbn; lia|].
  destruct s2 as [|y [|y' s2']]; [cbn in Hlt; lia | cbn in Hlt; lia |].
  destruct n2 as [|n2]; [cbn in H2; lia|].
  cbn [chunks_of map].
  rewrite (count_pauses_big (Utf.utf8_encode (firstn size (y :: y' :: s2')))).
  2:{ pose proof (byte_length_encode (firstn size (y :: y' :: s2'))) as Hb.
      rewrite length_firstn in Hb. cbn [List.length] in Hb. lia. }
  destruct (Z_lt_le_dec
              (byte_length (Utf.utf8_encode (firstn size (x :: s1')))) 2)
    as [Hsmall|Hbig].
  - pose proof (byte_length_encode (firstn size (x :: s1'))) as Hb.
    rewrite length_firstn in Hb. cbn [List.length] in Hb.
    assert (s1' = []) by (destruct s1'; [reflexivity | cbn [List.length] in Hb; lia]).
    subst s1'.
    replace (skipn size [x]) with (@nil Z)
      by (symmetry; apply skipn_all2; cbn; lia).
    rewrite chunks_of_nil. cbn [map count_pauses].
    rewrite (proj2 (Z.ltb_lt _ _)) by (unfold highWaterMark; lia). lia.
  - rewrite count_pauses_big by trivial. apply le_n_S.
    destruct (le_lt_dec size (List.length (x :: s1'))) as [Hfull|Hshort].
    + apply IH; rewrite ?length_skipn; cbn [List.length] in *; lia.
    + replace (skipn size (x :: s1')) with (@nil Z)
        by (symmetry; apply skipn_all2; lia).
      rewrite chunks_of_nil. cbn. lia.
Qed.

(** Every pause takes at most two chunks. *)
Lemma count_pauses_lower R :
  nonempty_chunks R ->
  (List.length R <= 2 * count_pauses 0 R + 1)%nat /\
  (List.length R <= 2 * count_pauses 1 R)%nat.
Proof.
  induction 1 as [|b R Hb _ [IH0 IH1]]; [cbn; lia|].
  cbn [count_pauses List.length]. split.
  - destruct (Z.ltb_spec (0 + byte_length b) highWaterMark) as [Hlt|Hge].
    + replace (0 + byte_length b) with 1 by (unfold highWaterMark in Hlt; lia).
      lia.
    + lia.
  - rewrite (proj2 (Z.ltb_ge _ _)) by (unfold highWaterMark; lia). lia.
Qed.

(** Chunks of one byte are paused at every second chunk. *)
Lemma count_pauses_upper R :
  Forall (fun b => byte_length b = 1) R ->
  (2 * count_pauses 0 R <= List.length R)%nat /\
  (2 * count_pauses 1 R <= List.length R + 1)%nat.
Proof.
  induction 1 as [|b R Hb _ [IH0 IH1]]; [cbn; lia|].
  cbn [count_pauses List.length]. rewrite Hb. split.
  - rewrite (proj2 (Z.ltb_lt _ _)) by (unfold highWaterMark; lia).
    replace (0 + 1) with 1 by lia. lia.
  - rewrite (proj2 (Z.ltb_ge _ _)) by (unfold highWaterMark; lia). lia.
Qed.

Definition ascii (s : jsstring) : Prop := Forall (fun u => 0 <= u < 0x80) s.

Lemma chunks_of_one_length n (s : jsstring) :
  (List.length s <= n)%nat -> List.length (chunks_of n 1 s) = List.length s.
Proof.
  revert s. induction n as [|n IH]; intros s Hlen.
  - destruct s; [reflexivity | cbn in Hlen; lia].
  - destruct s as [|x s']; [reflexivity|]. cbn [chunks_of List.length].
    change (skipn 1 (x :: s')) with s'.
    rewrite IH; [reflexivity | cbn [List.length] in Hlen; lia].
Qed.

Lemma encode_ascii_unit u :
  0 <= u < 0x80 -> Utf.utf8_encode [u] = [u].
Proof.
  intros Hu. unfold Utf.utf8_encode. rewrite UtfFacts.code_points_last.
  cbn [flat_map app]. unfold Utf.scrub.
  rewrite (proj2 (UtfFacts.is_surrogate_false u)) by lia.
  unfold Utf.utf8_of_cp. zsplit. reflexivity.
Qed.

Lemma chunks_of_one_ascii n (s : jsstring) :
  ascii s ->
  Forall (fun b => byte_length b = 1)
    (map Utf.utf8_encode (chunks_of n 1 s)).
Proof.
  intros Ha. revert n. induction Ha as [|u s Hu _ IH]; intros n.
  - rewrite chunks_of_nil. constructor.
  - destruct n as [|n]; [constructor|]. cbn [chunks_of firstn skipn map].
    constructor; [|apply IH].
    rewrite encode_ascii_unit by trivial. now rewrite byte_length_eq.
Qed.

(** A longer input is never paused less often when the chunk size is at
    least 2, or when the shorter input is ASCII. *)
Lemma pauses_of_monotone chunkSize s1 s2 :
  1 <= chunkSize -> 2 <= chunkSize \/ ascii s1 ->
  (List.length s1 < List.length s2)%nat ->
  (pauses_of chunkSize s1 <= pauses_of chunkSize s2)%nat.
Proof.
  intros Hc Hcase Hlt. unfold pauses_of, queued, chunks.
  destruct (Z_le_gt_dec 2 chunkSize) as [Hwide|Hone].
  - apply count_pauses_wide; lia.
  - destruct Hcase as [?|Ha]; [lia|].
    assert (chunkSize = 1) by lia. subst chunkSize.
    change (Z.to_nat 1) with 1%nat.
    pose proof (count_pauses_upper _ (chunks_of_one_ascii (List.length s1) s1 Ha))
      as [Hup _].
    pose proof (count_pauses_lower (queued s2 1) (queued_nonempty s2 1 ltac:(lia)))
      as [Hlow _].
    unfold queued, chunks in Hlow. change (Z.to_nat 1) with 1%nat in Hlow.
    rewrite length_map, chunks_of_one_length in Hup, Hlow by lia.
    lia.
Qed.

Transparent Z.ltb Z.add Z.sub Z.eqb byte_length Utf.utf8_decode.

End PipelineFacts.

(** ** The upper-casing pipe *)

Module UppercaseFacts.
Import Utf UtfFacts Uppercase.

Lemma utf16_of_scalar cp rest :
  scalar cp ->
  code_points (utf16_of_cp cp ++ rest) = cp :: code_points rest.
Proof.
  intros [Hr Hs]. apply is_surrogate_false in Hs. unfold utf16_of_cp.
  destruct (Z.ltb_spec cp 0x10000).
  - cbn [app]. apply code_points_single.
    unfold is_high. zsplit; reflexivity.
  - cbn [app]. rewrite code_points_pair.
    + f_equal. unfold pair_cp. lia.
    + apply is_high_true. lia.
    + apply is_low_true. lia.
Qed.

(** Writing scalar values as UTF-16 and reading the code points back gives
    the scalar values. *)
Lemma code_points_of_code_points cps :
  Forall scalar cps -> code_points (of_code_points cps) = cps.
Proof.
  unfold of_code_points.
  induction 1 as [|cp cps Hcp _ IH]; cbn [flat_map]; [reflexivity|].
  now rewrite utf16_of_scalar, IH.
Qed.

Lemma utf16_of_cp_units cp : 0 <= cp < 0x110000 -> valid_units (utf16_of_cp cp).
Proof.
  intros Hr. unfold utf16_of_cp, valid_units.
  destruct (Z.ltb_spec cp 0x10000); repeat constructor; lia.
Qed.

Lemma of_code_points_units cps :
  Forall scalar cps -> valid_units (of_code_points cps).
Proof.
  unfold of_code_points, valid_units.
  induction 1 as [|cp cps [Hr _] _ IH]; cbn [flat_map]; [constructor|].
  apply Forall_app. split; [now apply utf16_of_cp_units | exact IH].
Qed.

Lemma scalars_not_surrogate cps :
  Forall scalar cps ->
  forallb (fun cp => negb (is_surrogate cp)) cps = true.
Proof.
  induction 1 as [|cp cps [_ Hs] _ IH]; cbn [forallb]; [reflexivity|].
  now rewrite Hs, IH.
Qed.

(** A string written from scalar values is well formed. *)
Lemma of_code_points_well_formed cps :
  Forall scalar cps -> well_formed (of_code_points cps).
Proof.
  intros H. split; [now apply of_code_points_units|].
  rewrite code_points_of_code_points by trivial.
  now apply scalars_not_surrogate.
Qed.

Lemma scrubbed_scalars (s : jsstring) :
  valid_units s -> Forall scalar (map scrub (code_points s)).
Proof.
  intros Hv. pose proof (code_points_range s Hv) as Hr.
  induction Hr as [|cp cps Hcp _ IH]; cbn [map]; constructor; trivial.
  now apply scrub_scalar.
Qed.

Lemma toWellFormed_well_formed (s : jsstring) :
  valid_units s -> well_formed (toWellFormed s).
Proof.
  intros Hv. apply of_code_points_well_formed. now apply scrubbed_scalars.
Qed.

Lemma well_formed_scalars (s : jsstring) :
  well_formed s -> Forall scalar (code_points s).
Proof.
  intros [Hv Hs]. pose proof (code_points_range s Hv) as Hr.
  induction Hr as [|cp cps Hcp _ IH]; [constructor|].
  cbn [forallb] in Hs. apply andb_prop in Hs as [Hc Hs].
  constructor; [|now apply IH].
  split; [trivial | now destruct (is_surrogate cp)].
Qed.

Section Table.

Variable toUppercase : Z -> list Z.

(** The table maps scalar values to scalar values, ... *)
Hypothesis toUppercase_scalar :
  forall cp, scalar cp -> Forall scalar (toUppercase cp).

(** ... what it gives is in upper case already, ... *)
Hypothesis toUppercase_stable :
  forall cp, scalar cp -> flat_map toUppercase (toUppercase cp) = toUppercase cp.

Lemma flat_map_scalar cps :
  Forall scalar cps -> Forall scalar (flat_map toUppercase cps).
Proof.
  induction 1 as [|cp cps Hcp _ IH]; cbn [flat_map]; [constructor|].
  apply Forall_app. split; [now apply toUppercase_scalar | exact IH].
Qed.

Lemma flat_map_stable cps :
  Forall scalar cps ->
  flat_map toUppercase (flat_map toUppercase cps) = flat_map toUppercase cps.
Proof.
  induction 1 as [|cp cps Hcp _ IH]; cbn [flat_map]; [reflexivity|].
  now rewrite flat_map_app, toUppercase_stable, IH.
Qed.

Lemma toUpperCase_well_formed s :
  well_formed s -> well_formed (toUpperCase toUppercase s).
Proof.
  intros Hw. apply of_code_points_well_formed, flat_map_scalar.
  now apply well_formed_scalars.
Qed.

Lemma toUpperCase_idempotent s :
  well_formed s ->
  toUpperCase toUppercase (toUpperCase toUppercase s) =
  toUpperCase toUppercase s.
Proof.
  intros Hw. pose proof (well_formed_scalars s Hw) as Hs.
  unfold toUpperCase at 1 3.
  unfold toUpperCase. rewrite code_points_of_code_points
    by now apply flat_map_scalar.
  now rewrite flat_map_stable.
Qed.

(** The pipe decodes, maps and decodes again. *)
Lemma pipeToUppercase_eq input :
  pipeToUppercase toUppercase input =
  utf8_decode
    (utf8_encode
       (toUpperCase toUppercase (utf8_decode (utf8_encode input)))).
Proof.
  unfold pipeToUppercase, readable_from, transform. cbn [flat_map].
  rewrite app_nil_r.
  destruct (utf8_encode (toUpperCase toUppercase (utf8_decode (utf8_encode input))));
    reflexivity.
Qed.

(** What the pipe gives for any string: the upper-case mapping of the
    string without its unpaired surrogates. *)
Lemma pipeToUppercase_toWellFormed input :
  valid_units input ->
  pipeToUppercase toUppercase input =
  toUpperCase toUppercase (toWellFormed input).
Proof.
  intros Hv. rewrite pipeToUppercase_eq, (utf8_decode_encode input Hv).
  apply utf8_roundtrip, toUpperCase_well_formed.
  now apply toWellFormed_well_formed.
Qed.

Lemma pipeToUppercase_well_formed input :
  valid_units input -> well_formed (pipeToUppercase toUppercase input).
Proof.
  intros Hv. rewrite pipeToUppercase_toWellFormed by trivial.
  now apply toUpperCase_well_formed, toWellFormed_well_formed.
Qed.

End Table.

Lemma basic_latin_scalar cp : scalar cp -> Forall scalar (basic_latin cp).
Proof.
  intros [Hr Hs]. apply is_surrogate_false in Hs. unfold basic_latin.
  destruct (Z.leb_spec 97 cp), (Z.leb_spec cp 122); cbn [andb];
    repeat constructor; try lia; apply is_surrogate_false; lia.
Qed.

Lemma basic_latin_stable cp :
  scalar cp -> flat_map basic_latin (basic_latin cp) = basic_latin cp.
Proof.
  intros _. unfold basic_latin.
  destruct (Z.leb_spec 97 cp), (Z.leb_spec cp 122); cbn [andb flat_map app];
    unfold basic_latin; zsplit; reflexivity.
Qed.

End UppercaseFacts.

(** ** The one-shot listeners *)

Module EmitterFacts.
Import Emitter.
Local Open Scope nat_scope.

Lemma listeners_once type type' cb e :
  listeners type' (once type cb e) =
  if decide (type' = type)
  then listeners type e ++ [mk_listener (next_wrap e) cb]
  else listeners type' e.
Proof.
  unfold listeners at 1. cbn [events once].
  destruct (decide (type' = type)) as [->|Hne].
  - now rewrite lookup_insert_eq.
  - now rewrite lookup_insert_ne by congruence.
Qed.

Lemma listeners_removeListener type type' id e :
  listeners type' (removeListener type id e) =
  if decide (type' = type)
  then rev (remove_first id (rev (listeners type e)))
  else listeners type' e.
Proof.
  unfold removeListener, listeners.
  destruct (events e !! type) as [ls|] eqn:E.
  - cbn [events default].
    destruct (rev (remove_first id (rev ls))) as [|l ls'] eqn:E';
      destruct (decide (type' = type)) as [->|Hne].
    + now rewrite lookup_delete_eq.
    + now rewrite lookup_delete_ne by congruence.
    + now rewrite lookup_insert_eq.
    + now rewrite lookup_insert_ne by congruence.
  - destruct (decide (type' = type)) as [->|Hne]; [|reflexivity].
    now rewrite E.
Qed.

Lemma next_wrap_removeListener type id e :
  next_wrap (removeListener type id e) = next_wrap e.
Proof. unfold removeListener. now destruct (events e !! type). Qed.

Lemma fired_removeListener type id e :
  fired (removeListener type id e) = fired e.
Proof. unfold removeListener. now destruct (events e !! type). Qed.

Lemma calls_removeListener type id e :
  calls (removeListener type id e) = calls e.
Proof. unfold removeListener. now destruct (events e !! type). Qed.

Section OneListener.

(** The wrapper that is followed, and the function it wraps. *)
Variable id0 : nat.
Variable cb : nat.

Definition is_it (l : listener) : bool := Nat.eqb (wrap l) id0.

(** The followed wrapper among the listeners of an event. *)
Definition found (type : string) (e : emitter) : list listener :=
  List.filter is_it (listeners type e).

Lemma filter_remove_first_other id ls :
  id <> id0 ->
  List.filter is_it (remove_first id ls) = List.filter is_it ls.
Proof.
  intros Hne. induction ls as [|l ls IH]; cbn [remove_first List.filter];
    [reflexivity|].
  destruct (Nat.eqb_spec (wrap l) id) as [Heq|Hdiff].
  - unfold is_it at 2. destruct (Nat.eqb_spec (wrap l) id0); [lia | reflexivity].
  - cbn [List.filter]. now rewrite IH.
Qed.

Lemma filter_remove_first_it ls :
  List.filter is_it (remove_first id0 ls) = tl (List.filter is_it ls).
Proof.
  induction ls as [|l ls IH]; cbn [remove_first List.filter]; [reflexivity|].
  unfold is_it at 2 3. destruct (Nat.eqb_spec (wrap l) id0); [reflexivity|].
  cbn [List.filter]. unfold is_it at 1.
  destruct (Nat.eqb_spec (wrap l) id0); [lia | exact IH].
Qed.

Lemma filter_rev_eq {A} (f : A -> bool) (ls : list A) :
  List.filter f (rev ls) = rev (List.filter f ls).
Proof.
  induction ls as [|l ls IH]; [reflexivity|]. cbn [rev List.filter].
  rewrite List.filter_app, IH. cbn [List.filter].
  destruct (f l); cbn [rev]; [reflexivity | now rewrite app_nil_r].
Qed.

Lemma found_removeListener_other type type' id e :
  id <> id0 -> found type' (removeListener type id e) = found type' e.
Proof.
  intros Hne. unfold found. rewrite listeners_removeListener.
  destruct (decide (type' = type)) as [->|]; [|reflexivity].
  rewrite filter_rev_eq, filter_remove_first_other, filter_rev_eq by trivial.
  apply rev_involutive.
Qed.

Lemma found_removeListener_it type type' e :
  found type' (removeListener type id0 e) =
  if decide (type' = type)
  then rev (tl (rev (found type e)))
  else found type' e.
Proof.
  unfold found. rewrite listeners_removeListener.
  destruct (decide (type' = type)) as [->|]; [|reflexivity].
  now rewrite filter_rev_eq, filter_remove_first_it, filter_rev_eq.
Qed.

Definition its_calls (e : emitter) : list call := calls_by id0 e.

(** What does not change when a wrapper other than the followed one is
    called. *)
Definition same_for_it (e e' : emitter) : Prop :=
  next_wrap e' = next_wrap e /\
  (forall type, found type e' = found type e) /\
  (id0 ∈ fired e' <-> id0 ∈ fired e) /\
  its_calls e' = its_calls e.

Lemma same_for_it_refl e : same_for_it e e.
Proof. repeat split; trivial. Qed.

Lemma same_for_it_trans e1 e2 e3 :
  same_for_it e1 e2 -> same_for_it e2 e3 -> same_for_it e1 e3.
Proof.
  intros (Hn & Hf & Hfi & Hc) (Hn' & Hf' & Hfi' & Hc').
  repeat split; try congruence; try tauto.
Qed.

Lemma onceWrapper_other type l a e :
  wrap l <> id0 -> same_for_it e (onceWrapper type l a e).
Proof.
  intros Hne. unfold onceWrapper.
  destruct (decide (wrap l ∈ fired e)); [apply same_for_it_refl|].
  unfold same_for_it, its_calls, calls_by, found, listeners.
  cbn [next_wrap events fired calls].
  rewrite next_wrap_removeListener, fired_removeListener, calls_removeListener.
  split; [reflexivity|]. split; [|split].
  - intros type'. now apply found_removeListener_other.
  - rewrite elem_of_union, elem_of_singleton. split; [|tauto].
    intros [Heq|Hin]; [congruence | trivial].
  - rewrite List.filter_app. cbn [List.filter by_wrap].
    destruct (Nat.eqb_spec (wrap l) id0); [lia | apply app_nil_r].
Qed.

Lemma emit_others type a ls :
  List.filter is_it ls = [] ->
  forall e, same_for_it e (fold_left (fun e l => onceWrapper type l a e) ls e).
Proof.
  induction ls as [|l ls IH]; intros Hnone e; cbn [fold_left];
    [apply same_for_it_refl|].
  cbn [List.filter] in Hnone. unfold is_it at 1 in Hnone.
  destruct (Nat.eqb_spec (wrap l) id0); [discriminate|].
  apply (same_for_it_trans e (onceWrapper type l a e));
    [now apply onceWrapper_other | now apply IH].
Qed.

(** The followed wrapper is registered for [type0] and has not been
    called. *)
Variable type0 : string.

Definition pending (e : emitter) : Prop :=
  id0 < next_wrap e /\
  (forall type,
      found type e =
      if decide (type = type0) then [mk_listener id0 cb] else []) /\
  (id0 ∉ fired e) /\
  its_calls e = [].

(** The followed wrapper has been called with [a] and is registered
    nowhere. *)
Definition done (a : jsstring) (e : emitter) : Prop :=
  id0 < next_wrap e /\
  (forall type, found type e = []) /\
  its_calls e = [mk_call id0 cb a].

Lemma pending_same e e' : same_for_it e e' -> pending e -> pending e'.
Proof.
  intros (Hn & Hf & Hfi & Hc) (Hlt & Hfound & Hnf & Hcalls).
  repeat split.
  - lia.
  - intros type. now rewrite Hf.
  - tauto.
  - congruence.
Qed.

Lemma done_same a e e' : same_for_it e e' -> done a e -> done a e'.
Proof.
  intros (Hn & Hf & Hfi & Hc) (Hlt & Hfound & Hcalls).
  repeat split.
  - lia.
  - intros type. now rewrite Hf.
  - congruence.
Qed.

Lemma onceWrapper_it a e :
  pending e -> done a (onceWrapper type0 (mk_listener id0 cb) a e).
Proof.
  intros (Hlt & Hfound & Hnf & Hcalls). unfold onceWrapper. cbn [wrap callback].
  destruct (decide (id0 ∈ fired e)); [contradiction|].
  unfold done, its_calls, calls_by, found, listeners.
  cbn [next_wrap events fired calls].
  rewrite next_wrap_removeListener, calls_removeListener.
  split; [trivial|]. split.
  - intros type. fold (listeners type (removeListener type0 id0 e)).
    fold (found type (removeListener type0 id0 e)).
    rewrite found_removeListener_it, !Hfound.
    destruct (decide (type = type0)); [|reflexivity].
    destruct (decide (type0 = type0)); [reflexivity | congruence].
  - rewrite List.filter_app. fold (calls_by id0 e). fold (its_calls e).
    rewrite Hcalls. cbn [List.filter by_wrap app].
    now rewrite Nat.eqb_refl.
Qed.

Lemma emit_it a ls :
  List.filter is_it ls = [mk_listener id0 cb] ->
  forall e, pending e ->
            done a (fold_left (fun e l => onceWrapper type0 l a e) ls e).
Proof.
  induction ls as [|l ls IH]; intros Hone e Hp; [discriminate|].
  cbn [fold_left]. cbn [List.filter] in Hone. unfold is_it at 1 in Hone.
  destruct (Nat.eqb_spec (wrap l) id0) as [Heq|Hne].
  - injection Hone as -> Hrest.
    eapply done_same; [now apply emit_others | now apply onceWrapper_it].
  - apply IH; [trivial|].
    eapply pending_same; [now apply onceWrapper_other | trivial].
Qed.

Lemma found_once type type' cb' e :
  id0 < next_wrap e -> found type' (once type cb' e) = found type' e.
Proof.
  intros Hlt. unfold found. rewrite listeners_once.
  destruct (decide (type' = type)) as [->|]; [|reflexivity].
  rewrite List.filter_app. cbn [List.filter]. unfold is_it at 2. cbn [wrap].
  destruct (Nat.eqb_spec (next_wrap e) id0); [lia | apply app_nil_r].
Qed.

Lemma pending_once type cb' e : pending e -> pending (once type cb' e).
Proof.
  intros (Hlt & Hfound & Hnf & Hcalls). repeat split.
  - cbn. lia.
  - intros type'. now rewrite found_once.
  - exact Hnf.
  - exact Hcalls.
Qed.

Lemma done_once a type cb' e : done a e -> done a (once type cb' e).
Proof.
  intros (Hlt & Hfound & Hcalls). repeat split.
  - cbn. lia.
  - intros type'. now rewrite found_once.
  - exact Hcalls.
Qed.

Lemma pending_emit_other type a e :
  type <> type0 -> pending e -> pending (emit type a e).
Proof.
  intros Hne Hp. eapply pending_same; [|exact Hp].
  apply emit_others. destruct Hp as (_ & Hfound & _).
  specialize (Hfound type). unfold found in Hfound.
  destruct (decide (type = type0)); [congruence | exact Hfound].
Qed.

Lemma pending_emit a e : pending e -> done a (emit type0 a e).
Proof.
  intros Hp. apply emit_it; [|exact Hp].
  destruct Hp as (_ & Hfound & _). specialize (Hfound type0).
  unfold found in Hfound.
  destruct (decide (type0 = type0)); [exact Hfound | congruence].
Qed.

Lemma done_emit a type a' e : done a e -> done a (emit type a' e).
Proof.
  intros Hd. eapply done_same; [|exact Hd].
  apply emit_others. destruct Hd as (_ & Hfound & _). apply Hfound.
Qed.

End OneListener.

Lemma done_uses id0 cb a hs :
  forall e, done id0 cb a e -> done id0 cb a (uses hs e).
Proof.
  induction hs as [|h hs IH]; intros e Hd; [exact Hd|].
  cbn [uses fold_left]. apply IH.
  destruct h; cbn [use]; first [now apply done_emit | now apply done_once].
Qed.

Lemma registered id0 cb type0 e :
  well_formed e -> id0 = next_wrap e ->
  pending id0 cb type0 (once type0 cb e).
Proof.
  intros (Hls & Hfired & Hcalls) ->. repeat split.
  - cbn. lia.
  - intros type. unfold found. rewrite listeners_once.
    assert (Hnone : forall ty,
               List.filter (is_it (next_wrap e)) (listeners ty e) = []).
    { intros ty. specialize (Hls ty).
      induction (listeners ty e) as [|l ls IH]; [reflexivity|].
      cbn [List.filter]. unfold is_it at 1.
      destruct (Nat.eqb_spec (wrap l) (next_wrap e)) as [Heq|_].
      - specialize (Hls l (or_introl eq_refl)). lia.
      - apply IH. intros l' Hl'. apply Hls. now right. }
    destruct (decide (type = type0)) as [->|]; [|apply Hnone].
    rewrite List.filter_app, Hnone. cbn [List.filter app].
    unfold is_it. cbn [wrap]. now rewrite Nat.eqb_refl.
  - cbn [fired once]. intros Hin. specialize (Hfired _ Hin). lia.
  - unfold its_calls, calls_by. cbn [calls once].
    induction (calls e) as [|c cs IH]; [reflexivity|].
    cbn [List.filter].
    destruct (Nat.eqb_spec (by_wrap c) (next_wrap e)) as [Heq|_].
    + specialize (Hcalls c (or_introl eq_refl)). lia.
    + apply IH. intros c' Hc'. apply Hcalls. now right.
Qed.

(** After [onPingOnce], the wrapper is called by the first [emitPing], with
    its message, and by nothing else. *)
Lemma ping_once id0 cb hs :
  forall e,
    pending id0 cb "ping" e ->
    calls_by id0 (uses hs e) =
    match first_ping hs with
    | Some msg => [mk_call id0 cb msg]
    | None => []
    end.
Proof.
  induction hs as [|h hs IH]; intros e Hp.
  - cbn. apply Hp.
  - cbn [uses fold_left first_ping]. destruct h; cbn [use].
    + pose proof (pending_emit id0 cb "ping" msg e Hp) as Hd.
      apply (done_uses id0 cb msg hs) in Hd. apply Hd.
    + apply IH. now apply pending_once.
    + apply IH. apply pending_emit_other; [discriminate | trivial].
    + apply IH. now apply pending_once.
Qed.

Lemma upload_once id0 cb hs :
  forall e,
    pending id0 cb "fileUploaded" e ->
    calls_by id0 (uses hs e) =
    match first_upload hs with
    | Some filename => [mk_call id0 cb filename]
    | None => []
    end.
Proof.
  induction hs as [|h hs IH]; intros e Hp.
  - cbn. apply Hp.
  - cbn [uses fold_left first_upload]. destruct h; cbn [use].
    + apply IH. apply pending_emit_other; [discriminate | trivial].
    + apply IH. now apply pending_once.
    + pose proof (pending_emit id0 cb "fileUploaded" filename e Hp) as Hd.
      apply (done_uses id0 cb filename hs) in Hd. apply Hd.
    + apply IH. now apply pending_once.
Qed.

End EmitterFacts.

(** ** More on [buffer.ts] *)

Module BufferFacts.
Import Utf UtfFacts Base64 BufferFeature.

(** Three bytes at most for a code unit that is a code point of its own. *)
Lemma utf8_of_unit_length u :
  0 <= u < 65536 -> (List.length (utf8_of_cp (scrub u)) <= 3)%nat.
Proof.
  intros Hu. unfold scrub. destruct (is_surrogate u).
  - change (utf8_of_cp 0xFFFD) with [0xEF; 0xBF; 0xBD]. cbn [List.length]. lia.
  - unfold utf8_of_cp. zbool; cbn [List.length]; lia.
Qed.

Lemma utf8_encode_length_upper (s : jsstring) :
  valid_units s -> (List.length (utf8_encode s) <= 3 * List.length s)%nat.
Proof.
  unfold utf8_encode.
  induction s as [|u rest Hu IH|u Hu|u l rest Hu Hl IH|u l rest Hu Hl IH]
    using units_ind; intros Hv.
  - cbn. lia.
  - rewrite code_points_single by trivial. cbn [flat_map].
    rewrite length_app. inversion Hv; subst.
    pose proof (utf8_of_unit_length u ltac:(trivial)).
    specialize (IH ltac:(trivial)). cbn [List.length]. lia.
  - rewrite code_points_last. cbn [flat_map]. rewrite app_nil_r.
    inversion Hv; subst.
    pose proof (utf8_of_unit_length u ltac:(trivial)). cbn [List.length]. lia.
  - rewrite code_points_pair by trivial. cbn [flat_map].
    rewrite length_app. inversion Hv as [|? ? ? Hv']; subst.
    inversion Hv'; subst. specialize (IH ltac:(trivial)).
    pose proof (utf8_of_cp_length (scrub (pair_cp u l))).
    cbn [List.length]. lia.
  - rewrite code_points_lone by trivial. cbn [flat_map].
    rewrite length_app. inversion Hv; subst.
    pose proof (utf8_of_unit_length u ltac:(trivial)).
    specialize (IH ltac:(trivial)). cbn [List.length] in *. lia.
Qed.

Lemma utf8_encode_ascii (s : jsstring) :
  Forall (fun u => 0 <= u < 0x80) s -> utf8_encode s = s.
Proof.
  unfold utf8_encode. induction 1 as [|u rest Hu Hrest IH]; [reflexivity|].
  rewrite code_points_single
    by (unfold is_high; zbool; cbn [andb]; first [reflexivity | lia]).
  cbn [flat_map]. rewrite IH. unfold scrub.
  rewrite (proj2 (is_surrogate_false u)) by lia.
  unfold utf8_of_cp. rewrite (proj2 (Z.ltb_lt u 0x80)) by lia. reflexivity.
Qed.

(** Base64 in groups of three bytes. *)
Lemma triples_ind (P : bytes -> Prop) :
  P [] -> (forall a, P [a]) -> (forall a b, P [a; b]) ->
  (forall a b c rest, P rest -> P (a :: b :: c :: rest)) ->
  forall bs, P bs.
Proof.
  intros H0 H1 H2 H3.
  fix IH 1.
  intros [|a [|b [|c rest]]];
    [apply H0 | apply H1 | apply H2 | apply H3; apply IH].
Qed.

Lemma encode_length bs :
  Z.of_nat (List.length (encode bs)) =
  4 * ((Z.of_nat (List.length bs) + 2) / 3).
Proof.
  induction bs as [|a|a b|a b c rest IH] using triples_ind.
  - reflexivity.
  - reflexivity.
  - reflexivity.
  - change (encode (a :: b :: c :: rest))
      with ([b64_char (a / 4); b64_char (a mod 4 * 16 + b / 16);
             b64_char (b mod 16 * 4 + c / 64); b64_char (c mod 64)]
              ++ encode rest).
    rewrite length_app. cbn [List.length] in *. lia.
Qed.

(** The characters of the standard alphabet, and the padding. *)
Definition standard (c : Z) : Prop :=
  65 <= c <= 90 \/ 97 <= c <= 122 \/ 48 <= c <= 57 \/ c = 43 \/ c = 47.

Lemma b64_char_standard i : 0 <= i < 64 -> standard (b64_char i).
Proof.
  intros Hi. unfold standard, b64_char. zbool; lia.
Qed.

Ltac standard_chars :=
  repeat (apply List.Forall_cons;
          [first [right; reflexivity | left; apply b64_char_standard; lia]|]);
  try apply List.Forall_nil.

Lemma encode_standard bs :
  valid_bytes bs -> Forall (fun c => standard c \/ c = pad) (encode bs).
Proof.
  induction bs as [|a|a b|a b c rest IH] using triples_ind; intros Hv.
  - constructor.
  - inversion Hv; subst. cbn [encode].
    standard_chars.
  - inversion Hv as [|? ? ? Hv']; subst. inversion Hv'; subst. cbn [encode].
    standard_chars.
  - inversion Hv as [|? ? ? Hv']; subst. inversion Hv' as [|? ? ? Hv'']; subst.
    inversion Hv''; subst.
    change (encode (a :: b :: c :: rest))
      with ([b64_char (a / 4); b64_char (a mod 4 * 16 + b / 16);
             b64_char (b mod 16 * 4 + c / 64); b64_char (c mod 64)]
              ++ encode rest).
    apply Forall_app. split; [|now apply IH]. standard_chars.
Qed.

End BufferFacts.

(** ** More on the pipeline with manual back-pressure *)

Module PipelineMore.
Import Utf UtfFacts Pipeline PipelineFacts.

(** What a code unit of the input becomes in the output: itself, or U+FFFD
    in the place of a surrogate. *)
Definition replaced (u v : Z) : Prop :=
  v = u \/ (is_surrogate u = true /\ v = 0xFFFD).

Lemma replaced_scrub u : replaced u (scrub u).
Proof.
  unfold replaced, scrub. destruct (is_surrogate u); [right | left]; auto.
Qed.

Lemma utf16_of_unit u : 0 <= u < 65536 -> utf16_of_cp (scrub u) = [scrub u].
Proof.
  intros Hu. unfold utf16_of_cp.
  assert (scrub u < 0x10000) as Hlt
    by (unfold scrub; destruct (is_surrogate u); lia).
  now rewrite (proj2 (Z.ltb_lt _ _) Hlt).
Qed.

Lemma scrub_pair u l :
  is_high u = true -> is_low l = true -> scrub (pair_cp u l) = pair_cp u l.
Proof.
  intros Hu Hl. pose proof (pair_cp_range u l Hu Hl). unfold scrub.
  now rewrite (proj2 (is_surrogate_false _)) by lia.
Qed.

Lemma is_high_surrogate u : is_high u = true -> is_surrogate u = true.
Proof.
  intros H. apply is_high_true in H. apply is_surrogate_true. lia.
Qed.

Lemma toWellFormed_units (s : jsstring) :
  valid_units s -> Forall2 replaced s (toWellFormed s).
Proof.
  unfold toWellFormed, of_code_points.
  induction s as [|u rest Hu IH|u Hu|u l rest Hu Hl IH|u l rest Hu Hl IH]
    using units_ind; intros Hv.
  - constructor.
  - inversion Hv; subst. rewrite code_points_single by trivial.
    cbn [map flat_map]. rewrite utf16_of_unit by trivial.
    constructor; [apply replaced_scrub | now apply IH].
  - inversion Hv; subst. rewrite code_points_last.
    cbn [map flat_map]. rewrite utf16_of_unit by trivial.
    constructor; [apply replaced_scrub | constructor].
  - inversion Hv as [|? ? ? Hv']; subst. inversion Hv'; subst.
    rewrite code_points_pair by trivial. cbn [map flat_map].
    rewrite scrub_pair, utf16_of_pair by trivial.
    constructor; [now left|]. constructor; [now left | now apply IH].
  - inversion Hv; subst. rewrite code_points_lone by trivial.
    cbn [map flat_map]. rewrite utf16_of_unit by trivial.
    constructor; [apply replaced_scrub | now apply IH].
Qed.

Lemma chunks_of_units n size (s : jsstring) :
  valid_units s -> Forall valid_units (chunks_of n size s).
Proof.
  revert s. induction n as [|n IH]; intros s Hv; cbn [chunks_of];
    [constructor|].
  destruct s as [|u s']; [constructor|]. constructor.
  - now apply Forall_take.
  - apply IH. now apply Forall_drop.
Qed.

Lemma Forall2_concat {A B} (R : A -> B -> Prop) (f : list A -> list B) ls :
  Forall (fun l => Forall2 R l (f l)) ls ->
  Forall2 R (concat ls) (concat (map f ls)).
Proof.
  induction 1; cbn [map concat]; [constructor|]. now apply Forall2_app.
Qed.

(** The output of a run, code unit by code unit. *)
Lemma output_of_units chunkSize input :
  1 <= chunkSize -> valid_units input ->
  Forall2 replaced input (output_of chunkSize input).
Proof.
  intros Hc Hv. rewrite output_of_chunks.
  rewrite <- (concat_chunks_of (List.length input) (Z.to_nat chunkSize) input)
    at 1 by lia.
  fold (chunks chunkSize input). apply Forall2_concat.
  pose proof (chunks_of_units (List.length input) (Z.to_nat chunkSize) input Hv)
    as Hchunks.
  fold (chunks chunkSize input) in Hchunks.
  induction Hchunks as [|ch chs Hch _ IH]; constructor; trivial.
  rewrite utf8_decode_encode by trivial. now apply toWellFormed_units.
Qed.

(** *** The chunks of [read()] *)

Lemma chunks_of_bound n size (s : jsstring) :
  Forall (fun ch => (List.length ch <= size)%nat) (chunks_of n size s).
Proof.
  revert s. induction n as [|n IH]; intros s; cbn [chunks_of]; [constructor|].
  destruct s as [|u s']; [constructor|]. constructor; [|apply IH].
  rewrite length_take. lia.
Qed.

Lemma chunks_of_count n (size : nat) (s : jsstring) :
  (1 <= size)%nat -> (List.length s <= n)%nat ->
  Z.of_nat (List.length (chunks_of n size s)) =
  (Z.of_nat (List.length s) + Z.of_nat size - 1) / Z.of_nat size.
Proof.
  intros Hs. revert s. induction n as [|n IH]; intros s Hlen.
  - destruct s; [|cbn in Hlen; lia]. cbn [chunks_of List.length].
    rewrite Z.div_small; lia.
  - cbn [chunks_of]. destruct s as [|u s'].
    + cbn [List.length]. rewrite Z.div_small; lia.
    + remember (u :: s') as s eqn:Hs'.
      assert (1 <= List.length s)%nat by (subst s; cbn; lia).
      cbn [List.length]. rewrite Nat2Z.inj_succ, IH
        by (rewrite length_drop; lia).
      rewrite length_drop.
      destruct (Nat.le_gt_cases (List.length s) size) as [Hle|Hgt].
      * replace (List.length s - size)%nat with 0%nat by lia.
        rewrite Z.div_small by lia.
        rewrite <- (Z.div_unique_pos _ _ 1 (Z.of_nat (List.length s) - 1));
          lia.
      * rewrite Nat2Z.inj_sub by lia.
        replace (Z.of_nat (List.length s) + Z.of_nat size - 1)
          with (Z.of_nat (List.length s) - Z.of_nat size + Z.of_nat size - 1
                + 1 * Z.of_nat size) by lia.
        rewrite Z.div_add by lia. lia.
Qed.

Lemma chunks_count chunkSize (input : jsstring) :
  1 <= chunkSize ->
  Z.of_nat (List.length (chunks chunkSize input)) =
  (Z.of_nat (List.length input) + chunkSize - 1) / chunkSize.
Proof.
  intros Hc. unfold chunks. rewrite chunks_of_count by lia.
  now rewrite Z2Nat.id by lia.
Qed.

(** *** Counting the pauses *)

Lemma count_pauses_le R : forall acc, (count_pauses acc R <= List.length R)%nat.
Proof.
  induction R as [|b R IH]; intros acc; cbn [count_pauses List.length]; [lia|].
  destruct (_ <? _).
  - specialize (IH (acc + byte_length b)). lia.
  - specialize (IH 0). lia.
Qed.

Lemma count_pauses_all R :
  Forall (fun b => 2 <= byte_length b) R ->
  count_pauses 0 R = List.length R.
Proof.
  induction 1 as [|b R Hb _ IH]; [reflexivity|].
  rewrite count_pauses_big by trivial. cbn [List.length]. now rewrite IH.
Qed.

Lemma chunks_of_wide n (size : nat) (s : jsstring) :
  (2 <= size)%nat -> (List.length s <= n)%nat ->
  Z.of_nat (List.length s) mod Z.of_nat size <> 1 ->
  Forall (fun ch => (2 <= List.length ch)%nat) (chunks_of n size s).
Proof.
  intros Hs. revert s. induction n as [|n IH]; intros s Hlen Hmod;
    cbn [chunks_of]; [constructor|].
  destruct s as [|u s']; [constructor|].
  remember (u :: s') as s eqn:Hs'.
  assert (1 <= List.length s)%nat by (subst s; cbn; lia).
  destruct (Nat.le_gt_cases (List.length s) size) as [Hle|Hgt].
  - assert (List.length s <> 1%nat).
    { intros E. rewrite E in Hmod. apply Hmod. apply Z.mod_small. lia. }
    constructor.
    + rewrite length_take. lia.
    + replace (skipn size s) with (@nil Z)
        by (symmetry; apply drop_ge; lia).
      destruct n; cbn [chunks_of]; constructor.
  - constructor.
    + rewrite length_take. lia.
    + apply IH.
      * rewrite length_drop. lia.
      * rewrite length_drop, Nat2Z.inj_sub by lia.
        replace (Z.of_nat (List.length s) - Z.of_nat size)
          with (Z.of_nat (List.length s) + (-1) * Z.of_nat size) by lia.
        now rewrite Z.mod_add by lia.
Qed.

Lemma pauses_of_le chunkSize input :
  (pauses_of chunkSize input <= List.length (chunks chunkSize input))%nat.
Proof.
  unfold pauses_of, queued.
  pose proof (count_pauses_le (map utf8_encode (chunks chunkSize input)) 0)
    as H.
  now rewrite length_map in H.
Qed.

Lemma queued_nonempty_chunks chunkSize input :
  1 <= chunkSize -> nonempty_chunks (queued input chunkSize).
Proof.
  intros Hc. unfold nonempty_chunks, queued, chunks.
  apply Forall_map.
  pose proof (chunks_of_nonempty (List.length input) (Z.to_nat chunkSize)
                input ltac:(lia)) as H.
  induction H as [|ch chs Hch _ IH]; constructor; trivial.
  pose proof (byte_length_encode ch). destruct ch; [congruence|].
  cbn [List.length] in *. lia.
Qed.

Lemma pauses_of_ge chunkSize input :
  1 <= chunkSize ->
  (List.length (chunks chunkSize input) <= 2 * pauses_of chunkSize input + 1)%nat.
Proof.
  intros Hc.
  pose proof (proj1 (count_pauses_lower _ (queued_nonempty_chunks chunkSize input Hc)))
    as H.
  unfold queued in H at 1. now rewrite length_map in H.
Qed.

Lemma pauses_of_wide chunkSize input :
  2 <= chunkSize ->
  Z.of_nat (List.length input) mod chunkSize <> 1 ->
  pauses_of chunkSize input = List.length (chunks chunkSize input).
Proof.
  intros Hc Hmod. unfold pauses_of, queued.
  rewrite count_pauses_all; [now rewrite length_map|].
  apply Forall_map. unfold chunks.
  pose proof (chunks_of_wide (List.length input) (Z.to_nat chunkSize) input
                ltac:(lia) ltac:(lia)) as H.
  rewrite Z2Nat.id in H by lia. specialize (H Hmod).
  induction H as [|ch chs Hch _ IH]; constructor; trivial.
  pose proof (byte_length_encode ch). lia.
Qed.

Lemma pauses_of_ascii input :
  ascii input ->
  pauses_of 1 input = Nat.div2 (List.length input).
Proof.
  intros Ha. unfold pauses_of, queued, chunks.
  change (Z.to_nat 1) with 1%nat.
  pose proof (chunks_of_one_ascii (List.length input) input Ha) as H1.
  pose proof (proj1 (count_pauses_upper _ H1)) as Hup.
  pose proof (proj1 (count_pauses_lower _
                       (queued_nonempty_chunks 1 input ltac:(lia)))) as Hlow.
  unfold queued, chunks in Hlow. change (Z.to_nat 1) with 1%nat in Hlow.
  rewrite length_map, chunks_of_one_length in Hup, Hlow by lia.
  pose proof (Nat.div2_odd (List.length input)) as Hodd.
  destruct (Nat.odd (List.length input)); cbn [Nat.b2n] in Hodd; lia.
Qed.

End PipelineMore.

(** ** More fuel, same run *)

Module FuelFacts.
Import Pipeline PipelineFacts.

Section Fuel.
Variable fails : nat -> bool.
Variable input : jsstring.
Variable chunkSize : Z.

Lemma read_loop_more f :
  forall f' i s s',
    read_loop input chunkSize f i s = Some s' -> (f <= f')%nat ->
    read_loop input chunkSize f' i s = Some s'.
Proof.
  induction f as [|f IH]; intros f' i s s' H Hle; [discriminate|].
  destruct f' as [|f']; [lia|]. cbn [read_loop] in *.
  destruct (i <? Z.of_nat (List.length input)); [|exact H].
  apply (IH f' _ _ _ H). lia.
Qed.

Lemma read0_more f f' s s' :
  read0 input chunkSize f s = Some s' -> (f <= f')%nat ->
  read0 input chunkSize f' s = Some s'.
Proof.
  unfold read0. destruct (r_ended (src s)); [trivial|].
  apply read_loop_more.
Qed.

Lemma resume_more f f' s s' :
  resume_ input chunkSize f s = Some s' -> (f <= f')%nat ->
  resume_ input chunkSize f' s = Some s'.
Proof.
  unfold resume_. intros H Hle.
  destruct (read0 input chunkSize f s) as [s1|] eqn:E; [|discriminate].
  rewrite (read0_more f f' s s1 E Hle). cbv zeta in *.
  destruct (r_flowing _); [|exact H].
  now apply (read0_more f f').
Qed.

Lemma exec_more f f' t s s' :
  exec fails input chunkSize f t s = Some s' -> (f <= f')%nat ->
  exec fails input chunkSize f' t s = Some s'.
Proof.
  destruct t; cbn [exec]; trivial. apply resume_more.
Qed.

Lemma run_more f :
  forall f' s s',
    run fails input chunkSize f s = Some s' -> (f <= f')%nat ->
    run fails input chunkSize f' s = Some s'.
Proof.
  induction f as [|f IH]; intros f' s s' H Hle; [discriminate|].
  destruct f' as [|f']; [lia|]. cbn [run] in *.
  destruct (ticks s) as [|t ts].
  - destruct (timers s) as [|t ts]; [exact H|].
    destruct (exec fails input chunkSize f t _) as [s1|] eqn:E;
      [|discriminate].
    rewrite (exec_more f f' _ _ _ E) by lia. apply (IH f' _ _ H). lia.
  - destruct (exec fails input chunkSize f t _) as [s1|] eqn:E;
      [|discriminate].
    rewrite (exec_more f f' _ _ _ E) by lia. apply (IH f' _ _ H). lia.
Qed.

End Fuel.

(** Whatever the fuel, a run of [manualBackpressure] with a chunk size of
    at least 1 that ends has resolved the promise. *)
Lemma manualBackpressure_any_fuel input chunkSize fuel o :
  1 <= chunkSize ->
  manualBackpressure fuel input (Some chunkSize) = Some o ->
  o = Some (Resolved (output_of chunkSize input) (pauses_of chunkSize input)).
Proof.
  intros Hc H. unfold manualBackpressure in H.
  destruct (pipeline (fun _ => false) fuel input (Some chunkSize))
    as [s|] eqn:E; [|discriminate].
  cbn [option_map] in H. injection H as <-.
  set (F := Nat.max fuel (3 * List.length input + 8)).
  assert (pipeline (fun _ => false) F input (Some chunkSize) = Some s) as EF.
  { unfold pipeline in *. apply (run_more _ _ _ fuel F _ _ E). lia. }
  destruct (pipeline_resolves (fun _ => false) input chunkSize F Hc
              (fun _ => eq_refl)) as (s' & Hs' & Hset & _).
  { unfold enough_fuel. lia. }
  rewrite EF in Hs'. injection Hs' as <-. exact Hset.
Qed.

End FuelFacts.

(** ** The upper-casing pipe on several chunks, and [streams.ts] *)

Module StreamFacts.
Import Utf UtfFacts Uppercase UppercaseFacts Streams.

Lemma fold_collect chunks :
  forall result,
    fold_left (fun result chunk => result ++ utf8_decode chunk) chunks result =
    result ++ flat_map utf8_decode chunks.
Proof.
  induction chunks as [|c chunks IH]; intros result; cbn [fold_left flat_map].
  - now rewrite app_nil_r.
  - now rewrite IH, app_assoc.
Qed.

Lemma collect_eq chunks : collect chunks = flat_map utf8_decode chunks.
Proof. unfold collect. now rewrite fold_collect. Qed.

(** The chunks go through the pipe one by one. *)
Lemma pipe_chunks toUppercase (values : list jsstring) :
  collect (transform toUppercase (readable_from values)) =
  concat (map (pipeToUppercase toUppercase) values).
Proof.
  unfold pipeToUppercase, readable_from. rewrite collect_eq.
  induction values as [|v values IH]; [reflexivity|].
  cbn [map concat]. rewrite <- IH, collect_eq.
  unfold transform. cbn [flat_map]. rewrite app_nil_r.
  now rewrite flat_map_app.
Qed.

Lemma well_formed_tail u rest :
  is_high u = false -> well_formed (u :: rest) -> well_formed rest.
Proof.
  intros Hu [Hv Hs]. rewrite code_points_single in Hs by trivial.
  cbn [forallb] in Hs. apply andb_true_iff in Hs as [_ Hs].
  inversion Hv; subst. now split.
Qed.

(** Where a well-formed string ends, a code point ends. *)
Lemma code_points_app (a b : jsstring) :
  well_formed a -> code_points (a ++ b) = code_points a ++ code_points b.
Proof.
  induction a as [|u rest Hu IH|u Hu|u l rest Hu Hl IH|u l rest Hu Hl IH]
    using units_ind; intros Hw.
  - reflexivity.
  - cbn [app]. rewrite !code_points_single by trivial.
    cbn [app]. f_equal. apply IH. now apply well_formed_tail in Hw.
  - destruct Hw as [_ Hs]. rewrite code_points_last in Hs.
    cbn [forallb] in Hs. rewrite (PipelineMore.is_high_surrogate u Hu) in Hs.
    discriminate.
  - cbn [app]. rewrite !code_points_pair by trivial.
    cbn [app]. f_equal. apply IH.
    destruct Hw as [Hv Hs]. rewrite code_points_pair in Hs by trivial.
    cbn [forallb] in Hs. apply andb_true_iff in Hs as [_ Hs].
    inversion Hv as [|? ? ? Hv']; subst. inversion Hv'; subst. now split.
  - destruct Hw as [_ Hs]. rewrite code_points_lone in Hs by trivial.
    cbn [forallb] in Hs. rewrite (PipelineMore.is_high_surrogate u Hu) in Hs.
    discriminate.
Qed.

Lemma well_formed_app (a b : jsstring) :
  well_formed a -> well_formed b -> well_formed (a ++ b).
Proof.
  intros Ha Hb. split.
  - apply Forall_app. split; [apply Ha | apply Hb].
  - rewrite code_points_app by trivial. rewrite forallb_app.
    destruct Ha as [_ ->], Hb as [_ ->]. reflexivity.
Qed.

Lemma well_formed_concat (values : list jsstring) :
  Forall well_formed values -> well_formed (concat values).
Proof.
  induction 1 as [|v values Hv _ IH]; cbn [concat].
  - split; [constructor | reflexivity].
  - now apply well_formed_app.
Qed.

Lemma toUpperCase_app toUppercase (a b : jsstring) :
  well_formed a ->
  toUpperCase toUppercase (a ++ b) =
  toUpperCase toUppercase a ++ toUpperCase toUppercase b.
Proof.
  intros Ha. unfold toUpperCase, of_code_points.
  now rewrite code_points_app, !flat_map_app by trivial.
Qed.

Lemma toUpperCase_concat toUppercase (values : list jsstring) :
  Forall well_formed values ->
  toUpperCase toUppercase (concat values) =
  concat (map (toUpperCase toUppercase) values).
Proof.
  induction 1 as [|v values Hv _ IH]; cbn [concat map]; [reflexivity|].
  now rewrite toUpperCase_app, IH.
Qed.

Section Table.

Variable toUppercase : Z -> list Z.

Hypothesis toUppercase_scalar :
  forall cp, scalar cp -> Forall scalar (toUppercase cp).

(** Chunks that are well formed give what their concatenation gives as
    one chunk. *)
Lemma pipe_concat (values : list jsstring) :
  Forall well_formed values ->
  collect (transform toUppercase (readable_from values)) =
  pipeToUppercase toUppercase (concat values).
Proof.
  intros Hw. pose proof (well_formed_concat values Hw) as Hc.
  rewrite pipe_chunks.
  rewrite (pipeToUppercase_toWellFormed toUppercase toUppercase_scalar)
    by apply Hc.
  rewrite toWellFormed_id, toUpperCase_concat by trivial. f_equal.
  clear Hc. induction Hw as [|v values Hv _ IH]; cbn [map]; [reflexivity|].
  rewrite IH. f_equal.
  rewrite (pipeToUppercase_toWellFormed toUppercase toUppercase_scalar)
    by apply Hv.
  now rewrite toWellFormed_id.
Qed.

End Table.

End StreamFacts.

(** ** [workerTask.js] *)

Module WorkerFacts.
Import WorkerTask.

Lemma compute_small depth n : n <= 1 -> compute (S depth) n = Some 1.
Proof.
  intros Hn. cbn [compute]. now rewrite (proj2 (Z.leb_le n 1)) by trivial.
Qed.

Lemma compute_step depth n :
  1 < n -> compute (S depth) n = option_map (Z.mul n) (compute depth (n - 1)).
Proof.
  intros Hn. cbn [compute]. now rewrite (proj2 (Z.leb_gt n 1)) by lia.
Qed.

Lemma compute_fact depth :
  forall n, 0 <= n -> Z.max n 1 <= Z.of_nat depth ->
            compute depth n = Some (Z.of_nat (fact (Z.to_nat n))).
Proof.
  induction depth as [|depth IH]; intros n Hn Hd; [lia|].
  destruct (Z_le_gt_dec n 1) as [Hle|Hgt].
  - rewrite compute_small by trivial.
    assert (n = 0 \/ n = 1) as [-> | ->] by lia; reflexivity.
  - rewrite compute_step, IH by lia. cbn [option_map]. f_equal.
    replace (Z.to_nat n) with (S (Z.to_nat (n - 1))) by lia.
    change (fact (S (Z.to_nat (n - 1))))
      with (S (Z.to_nat (n - 1)) * fact (Z.to_nat (n - 1)))%nat.
    rewrite Nat2Z.inj_mul. f_equal. lia.
Qed.

Lemma compute_none depth :
  forall n, compute depth n = None <-> Z.of_nat depth < Z.max n 1.
Proof.
  induction depth as [|depth IH]; intros n.
  - cbn [compute]. split; [lia | reflexivity].
  - destruct (Z_le_gt_dec n 1) as [Hle|Hgt].
    + rewrite compute_small by trivial. split; [discriminate | lia].
    + rewrite compute_step by lia. specialize (IH (n - 1)).
      destruct (compute depth (n - 1)); cbn [option_map].
      * split; [discriminate|]. intros H.
        assert (Z.of_nat depth < Z.max (n - 1) 1) as H' by lia.
        apply IH in H'. discriminate.
      * split; [|reflexivity]. intros _.
        assert (Z.of_nat depth < Z.max (n - 1) 1) by now apply IH. lia.
Qed.

Lemma compute_positive depth :
  forall n r, compute depth n = Some r -> 1 <= r.
Proof.
  induction depth as [|depth IH]; intros n r; [discriminate|].
  destruct (Z_le_gt_dec n 1) as [Hle|Hgt].
  - rewrite compute_small by trivial. intros [= <-]. lia.
  - rewrite compute_step by lia.
    destruct (compute depth (n - 1)) as [r'|] eqn:E; [|discriminate].
    cbn [option_map]. intros [= <-]. apply IH in E. nia.
Qed.

(** Frames beyond those that are needed change nothing. *)
Lemma compute_enough depth n :
  Z.max n 1 <= Z.of_nat depth ->
  compute depth n = compute (Z.to_nat (Z.max n 1)) n.
Proof.
  intros Hd. destruct (Z_le_gt_dec n 1) as [Hle|Hgt].
  - rewrite Z.max_r by lia. change (Z.to_nat 1) with 1%nat.
    destruct depth; [lia|]. now rewrite !compute_small.
  - rewrite !compute_fact by lia. reflexivity.
Qed.

Lemma compute_safe_nat (k : nat) :
  (k <= 18)%nat ->
  exists r,
    compute (Z.to_nat (Z.max (Z.of_nat k) 1)) (Z.of_nat k) = Some r /\
    r < 2 ^ 53.
Proof.
  intros Hk.
  do 19 (destruct k as [|k];
         [eexists; split; [vm_compute; reflexivity | reflexivity]|]).
  lia.
Qed.

Lemma compute_safe depth n :
  0 <= n <= 18 -> Z.max n 1 <= Z.of_nat depth ->
  exists r, compute depth n = Some r /\ r < 2 ^ 53.
Proof.
  intros Hn Hd. rewrite compute_enough by trivial.
  rewrite <- (Z2Nat.id n) by lia. apply compute_safe_nat. lia.
Qed.

(** Up to 18, what is returned is below [2^53]. *)
Lemma compute_exact depth n r :
  n <= 18 -> compute depth n = Some r -> 1 <= r < 2 ^ 53.
Proof.
  intros Hn Hr. split; [now apply (compute_positive depth n)|].
  destruct (Z_le_gt_dec n 1) as [Hle|Hgt].
  - destruct depth as [|depth]; [discriminate|].
    rewrite compute_small in Hr by trivial. injection Hr as <-. reflexivity.
  - assert (~ Z.of_nat depth < Z.max n 1) as Hd.
    { intros Hlt. apply compute_none in Hlt. congruence. }
    destruct (compute_safe depth n) as (r' & Hr' & Hlt); [lia | lia |].
    congruence.
Qed.

End WorkerFacts.

(** ** [childProcessExample.ts] *)

Module ChildFacts.
Import ChildProcess.

Lemma fork_settled evs :
  forall st o,
    fork_promise st = Some o ->
    fork_promise (fold_left on_fork_event evs st) = Some o.
Proof.
  induction evs as [|ev evs IH]; intros st o Hst; cbn [fold_left]; trivial.
  apply IH. destruct ev as [msg|err|[[| |]|]]; cbn [on_fork_event fork_promise];
    rewrite ?Hst; reflexivity.
Qed.

Lemma fork_pending evs :
  forall st,
    fork_promise st = None ->
    fork_promise (fold_left on_fork_event evs st) = first_settling evs.
Proof.
  induction evs as [|ev evs IH]; intros st Hst; cbn [fold_left first_settling];
    trivial.
  destruct ev as [msg|err|[[| |]|]];
    cbn [settles on_fork_event];
    first [ now apply IH
          | apply fork_settled; cbn [fork_promise]; now rewrite Hst ].
Qed.

Lemma spawn_settled evs :
  forall st o,
    spawn_promise st = Some o ->
    spawn_promise (fold_left on_spawn_event evs st) = Some o.
Proof.
  induction evs as [|ev evs IH]; intros st o Hst; cbn [fold_left]; trivial.
  apply IH. destruct ev; cbn [on_spawn_event spawn_promise];
    rewrite ?Hst; reflexivity.
Qed.

Lemma spawn_data evs :
  forall st,
    Forall (fun ev => ev <> Close /\ forall err, ev <> SpawnError err) evs ->
    fold_left on_spawn_event evs st =
    {| output := output st ++ flat_map Utf.utf8_decode (flat_map data_of evs);
       spawn_promise := spawn_promise st |}.
Proof.
  induction evs as [|ev evs IH]; intros st Hall; cbn [fold_left flat_map].
  - rewrite app_nil_r. now destruct st.
  - inversion Hall as [|? ? [Hc He] Hall']; subst.
    rewrite IH by trivial.
    destruct ev as [data|data| |err].
    + cbn [on_spawn_event data_of output spawn_promise app flat_map].
      now rewrite <- app_assoc.
    + cbn [on_spawn_event data_of output spawn_promise app flat_map].
      now rewrite <- app_assoc.
    + congruence.
    + now destruct (He err).
Qed.

End ChildFacts.

(** ** One [emit] and all the listeners that wait; the routes *)

Module EmitterMore.
Import Emitter EmitterFacts.
Local Open Scope nat_scope.

Lemma remove_first_last xs l :
  ~ In (wrap l) (map wrap xs) -> remove_first (wrap l) (xs ++ [l]) = xs.
Proof.
  induction xs as [|x xs IH]; intros Hnot; cbn [app remove_first].
  - now rewrite Nat.eqb_refl.
  - cbn [map In] in Hnot.
    destruct (Nat.eqb_spec (wrap x) (wrap l)) as [E|_]; [tauto|].
    f_equal. apply IH. tauto.
Qed.

Lemma in_rev_wraps (id : nat) (ls : list listener) :
  In id (map wrap (rev ls)) <-> In id (map wrap ls).
Proof. rewrite map_rev. symmetry. apply in_rev. Qed.

(** What the call of a wrapper does when the wrapper is the first of the
    listeners and has not fired. *)
Record fires (type : string) (l : listener) (a : jsstring)
    (rest : list listener) (e e' : emitter) : Prop := mk_fires {
  fires_listeners : listeners type e' = rest;
  fires_others : forall type', type' <> type ->
                               listeners type' e' = listeners type' e;
  fires_fired : forall id, id ∈ fired e' <-> id = wrap l \/ id ∈ fired e;
  fires_next : next_wrap e' = next_wrap e;
  fires_calls : calls e' = calls e ++ [mk_call (wrap l) (callback l) a]
}.

Lemma onceWrapper_head type l rest a e :
  listeners type e = l :: rest ->
  ~ In (wrap l) (map wrap rest) ->
  wrap l ∉ fired e ->
  fires type l a rest e (onceWrapper type l a e).
Proof.
  intros Hls Hnot Hfresh. unfold onceWrapper.
  destruct (decide (wrap l ∈ fired e)) as [Hin|_]; [contradiction|].
  split.
  - change (listeners type (removeListener type (wrap l) e) = rest).
    rewrite listeners_removeListener.
    destruct (decide (type = type)) as [_|]; [|congruence].
    rewrite Hls. cbn [rev]. rewrite remove_first_last.
    + apply rev_involutive.
    + now rewrite in_rev_wraps.
  - intros type' Hne.
    change (listeners type' (removeListener type (wrap l) e) =
            listeners type' e).
    rewrite listeners_removeListener.
    destruct (decide (type' = type)); [contradiction | reflexivity].
  - intros id. cbn [fired]. rewrite fired_removeListener.
    rewrite elem_of_union, elem_of_singleton. reflexivity.
  - cbn [next_wrap]. apply next_wrap_removeListener.
  - cbn [calls]. now rewrite calls_removeListener.
Qed.

(** What one [emit] does when the listeners of the event are distinct
    wrappers that have not fired. *)
Record delivered (type : string) (a : jsstring) (ls : list listener)
    (e e' : emitter) : Prop := mk_delivered {
  delivered_listeners : listeners type e' = [];
  delivered_others : forall type', type' <> type ->
                                   listeners type' e' = listeners type' e;
  delivered_fired :
    forall id, id ∈ fired e' <-> In id (map wrap ls) \/ id ∈ fired e;
  delivered_next : next_wrap e' = next_wrap e;
  delivered_calls :
    calls e' = calls e ++ map (fun l => mk_call (wrap l) (callback l) a) ls
}.

Lemma fold_delivered type a ls :
  forall e,
    listeners type e = ls ->
    List.NoDup (map wrap ls) ->
    (forall l, In l ls -> wrap l ∉ fired e) ->
    delivered type a ls e
      (fold_left (fun e l => onceWrapper type l a e) ls e).
Proof.
  induction ls as [|l rest IH]; intros e Hls Hnd Hfresh; cbn [fold_left].
  - split; trivial.
    + intros id. cbn [map In]. tauto.
    + cbn [map]. now rewrite app_nil_r.
  - cbn [map] in Hnd. apply List.NoDup_cons_iff in Hnd as [Hnot Hnd].
    destruct (onceWrapper_head type l rest a e Hls Hnot
                (Hfresh l (or_introl eq_refl))) as [H1 H2 H3 H4 H5].
    destruct (IH (onceWrapper type l a e) H1 Hnd) as [I1 I2 I3 I4 I5].
    { intros l' Hin Hfired. apply H3 in Hfired as [E|Hfired].
      - apply Hnot. rewrite <- E. now apply in_map.
      - apply (Hfresh l'); [now right | trivial]. }
    split.
    + exact I1.
    + intros type' Hne. now rewrite I2, H2.
    + intros id. rewrite I3, H3. cbn [map In].
      split; intros H; intuition congruence.
    + now rewrite I4.
    + rewrite I5, H5. cbn [map]. now rewrite <- app_assoc.
Qed.

Lemma emit_delivered type a e :
  List.NoDup (map wrap (listeners type e)) ->
  (forall l, In l (listeners type e) -> wrap l ∉ fired e) ->
  delivered type a (listeners type e) e (emit type a e).
Proof. intros Hnd Hfresh. now apply fold_delivered. Qed.

(** *** What holds of every emitter that the helpers have made *)

(** The identities in use are below [next_wrap], the listeners are
    distinct wrappers, within an event and from one event to another, and
    a wrapper that has fired is not a listener any more. *)
Record tidy (e : emitter) : Prop := mk_tidy {
  tidy_well_formed : well_formed e;
  tidy_distinct : forall type, List.NoDup (map wrap (listeners type e));
  tidy_apart :
    forall type type' l l',
      In l (listeners type e) -> In l' (listeners type' e) ->
      wrap l = wrap l' -> type = type';
  tidy_fresh : forall type l, In l (listeners type e) -> wrap l ∉ fired e
}.

Lemma empty_emitter_tidy : tidy empty_emitter.
Proof.
  assert (forall type, listeners type empty_emitter = []) as Hnone.
  { intros type. unfold listeners. cbn [events empty_emitter].
    now rewrite lookup_empty. }
  split.
  - repeat split.
    + intros type l. rewrite Hnone. intros [].
    + intros id Hin. cbn [fired empty_emitter] in Hin.
      now apply not_elem_of_empty in Hin.
    + intros c [].
  - intros type. rewrite Hnone. constructor.
  - intros type type' l l'. rewrite Hnone. intros [].
  - intros type l. rewrite Hnone. intros [].
Qed.

Lemma once_tidy type cb e : tidy e -> tidy (once type cb e).
Proof.
  intros [(Hl & Hf & Hc) Hnd Hapart Hfresh].
  assert (forall type' l, In l (listeners type' (once type cb e)) ->
                          (In l (listeners type' e)) \/
                          (type' = type /\ l = mk_listener (next_wrap e) cb))
    as Hin.
  { intros type' l. rewrite listeners_once.
    destruct (decide (type' = type)) as [->|_]; [|tauto].
    rewrite in_app_iff. cbn [In]. intuition. }
  split.
  - repeat split.
    + intros type' l Hl'. cbn [once next_wrap].
      apply Hin in Hl' as [Hl'|[_ ->]]; [apply Hl in Hl' | cbn [wrap]]; lia.
    + intros id Hid. cbn [once next_wrap fired] in *. apply Hf in Hid. lia.
    + intros c Hc'. cbn [once next_wrap calls] in *. apply Hc in Hc'. lia.
  - intros type'. rewrite listeners_once.
    destruct (decide (type' = type)) as [->|_]; [|apply Hnd].
    rewrite map_app. apply List.NoDup_app.
    + apply Hnd.
    + repeat constructor. intros [].
    + intros id Hid [<-|[]]. apply in_map_iff in Hid as (l & E & Hl').
      apply Hl in Hl'. cbn [wrap] in E. lia.
  - intros t1 t2 l1 l2 H1 H2 E.
    apply Hin in H1 as [H1|[-> ->]]; apply Hin in H2 as [H2|[-> ->]].
    + now apply (Hapart t1 t2 l1 l2).
    + apply Hl in H1. cbn [wrap] in E. lia.
    + apply Hl in H2. cbn [wrap] in E. lia.
    + reflexivity.
  - intros type' l Hl'. cbn [once fired].
    apply Hin in Hl' as [Hl'|[_ ->]]; [now apply (Hfresh type')|].
    cbn [wrap]. intros Hid. apply Hf in Hid. lia.
Qed.

Lemma emit_tidy type a e : tidy e -> tidy (emit type a e).
Proof.
  intros [(Hl & Hf & Hc) Hnd Hapart Hfresh].
  destruct (emit_delivered type a e (Hnd type) (Hfresh type))
    as [D1 D2 D3 D4 D5].
  assert (forall type' l, In l (listeners type' (emit type a e)) ->
                          type' <> type /\ In l (listeners type' e)) as Hin.
  { intros type' l. destruct (decide (type' = type)) as [->|Hne].
    - rewrite D1. intros [].
    - rewrite D2 by trivial. tauto. }
  split.
  - repeat split.
    + intros type' l Hl'. apply Hin in Hl' as [_ Hl'].
      rewrite D4. now apply (Hl type').
    + intros id Hid. rewrite D4. apply D3 in Hid as [Hid|Hid].
      * apply in_map_iff in Hid as (l & <- & Hl'). now apply (Hl type).
      * now apply Hf.
    + intros c Hc'. rewrite D4. rewrite D5 in Hc'.
      apply in_app_iff in Hc' as [Hc'|Hc']; [now apply Hc|].
      apply in_map_iff in Hc' as (l & <- & Hl'). cbn [by_wrap].
      now apply (Hl type).
  - intros type'. destruct (decide (type' = type)) as [->|Hne].
    + rewrite D1. constructor.
    + rewrite D2 by trivial. apply Hnd.
  - intros t1 t2 l1 l2 H1 H2 E.
    apply Hin in H1 as [_ H1]. apply Hin in H2 as [_ H2].
    now apply (Hapart t1 t2 l1 l2).
  - intros type' l Hl' Hid. apply Hin in Hl' as [Hne Hl'].
    apply D3 in Hid as [Hid|Hid].
    + apply in_map_iff in Hid as (l' & E & Hl'').
      apply Hne. symmetry. now apply (Hapart type type' l' l).
    + now apply (Hfresh type' l).
Qed.

Lemma uses_tidy hs : forall e, tidy e -> tidy (uses hs e).
Proof.
  induction hs as [|h hs IH]; intros e He; cbn [uses fold_left]; trivial.
  apply IH. destruct h; cbn [use];
    first [now apply emit_tidy | now apply once_tidy].
Qed.

(** *** The routes *)

Import Routes.

(** What holds between two requests: no listener of ['ping'] is left, the
    listeners of ['fileUploaded'] are distinct wrappers that have not
    fired, and the identities in use are below [next_wrap]. *)
Record quiet (e : emitter) : Prop := mk_quiet {
  quiet_ping : listeners "ping" e = [];
  quiet_distinct : List.NoDup (map wrap (listeners "fileUploaded" e));
  quiet_waiting :
    forall l, In l (listeners "fileUploaded" e) ->
              wrap l < next_wrap e /\ wrap l ∉ fired e;
  quiet_fired : forall id, id ∈ fired e -> id < next_wrap e
}.

Lemma empty_emitter_quiet : quiet empty_emitter.
Proof.
  assert (forall type, listeners type empty_emitter = []) as Hnone.
  { intros type. unfold listeners. cbn [events empty_emitter].
    now rewrite lookup_empty. }
  split.
  - apply Hnone.
  - rewrite Hnone. constructor.
  - rewrite Hnone. intros l [].
  - intros id Hin. cbn [fired empty_emitter] in Hin.
    now apply not_elem_of_empty in Hin.
Qed.

Definition waiting (e : emitter) : list nat :=
  map callback (listeners "fileUploaded" e).

Lemma answers_app e cs :
  forall e', calls e' = calls e ++ cs ->
             answers e' = answers e ++ map (fun c => (target c, arg c)) cs.
Proof. intros e' H. unfold answers. now rewrite H, map_app. Qed.

(** [GET /event]. *)
Lemma handle_event res e :
  quiet e ->
  quiet (handle e (GetEvent res)) /\
  waiting (handle e (GetEvent res)) = waiting e /\
  calls (handle e (GetEvent res)) =
    calls e ++ [mk_call (next_wrap e) res pong_message].
Proof.
  intros [Hping Hnd Hwait Hfired]. cbn [handle].
  unfold emitPing, onPingOnce.
  set (e1 := once "ping" res e).
  assert (listeners "ping" e1 = [mk_listener (next_wrap e) res]) as Hl1.
  { unfold e1. rewrite listeners_once.
    destruct (decide ("ping" = "ping")) as [_|]; [|congruence].
    now rewrite Hping. }
  assert (listeners "fileUploaded" e1 = listeners "fileUploaded" e) as Hf1.
  { unfold e1. rewrite listeners_once.
    destruct (decide ("fileUploaded" = "ping")) as [E|_];
      [discriminate | reflexivity]. }
  destruct (emit_delivered "ping" pong_message e1) as [D1 D2 D3 D4 D5].
  { rewrite Hl1. cbn [map wrap]. repeat constructor. intros []. }
  { rewrite Hl1. intros l [<-|[]]. cbn [wrap]. intros Hin.
    apply Hfired in Hin. lia. }
  rewrite Hl1 in D3, D5. cbn [map wrap callback In] in D3, D5.
  assert (listeners "fileUploaded" (emit "ping" pong_message e1) =
          listeners "fileUploaded" e) as Hf2.
  { rewrite D2 by discriminate. exact Hf1. }
  split; [split|split].
  - exact D1.
  - now rewrite Hf2.
  - rewrite Hf2, D4. intros l Hin. destruct (Hwait l Hin) as [Hlt Hnot].
    cbn [e1 once next_wrap]. split; [lia|].
    intros Hf. apply D3 in Hf as [[E|[]]|Hf]; [lia | contradiction].
  - rewrite D4. cbn [e1 once next_wrap].
    intros id Hf. apply D3 in Hf as [[E|[]]|Hf]; [lia|].
    apply Hfired in Hf. lia.
  - unfold waiting. now rewrite Hf2.
  - exact D5.
Qed.

(** [GET /notify-upload]. *)
Lemma handle_notify res e :
  quiet e ->
  quiet (handle e (GetNotifyUpload res)) /\
  waiting (handle e (GetNotifyUpload res)) = waiting e ++ [res] /\
  calls (handle e (GetNotifyUpload res)) = calls e.
Proof.
  intros [Hping Hnd Hwait Hfired]. cbn [handle]. unfold onFileUploadedOnce.
  assert (listeners "fileUploaded" (once "fileUploaded" res e) =
          listeners "fileUploaded" e ++ [mk_listener (next_wrap e) res])
    as Hf.
  { rewrite listeners_once.
    destruct (decide ("fileUploaded" = "fileUploaded")) as [_|];
      [reflexivity | congruence]. }
  split; [split|split].
  - rewrite listeners_once.
    destruct (decide ("ping" = "fileUploaded")) as [E|_];
      [discriminate | exact Hping].
  - rewrite Hf, map_app. cbn [map wrap].
    apply List.NoDup_app.
    + exact Hnd.
    + repeat constructor. intros [].
    + intros id Hin [<-|[]].
      apply in_map_iff in Hin as (l & E & Hin). apply Hwait in Hin. lia.
  - rewrite Hf. cbn [once next_wrap fired]. intros l Hin.
    apply in_app_iff in Hin as [Hin|[<-|[]]].
    + destruct (Hwait l Hin). split; [lia | trivial].
    + cbn [wrap]. split; [lia|]. intros Hin. apply Hfired in Hin. lia.
  - cbn [once next_wrap fired]. intros id Hin. apply Hfired in Hin. lia.
  - unfold waiting. rewrite Hf, map_app. reflexivity.
  - reflexivity.
Qed.

(** [POST /upload] with a file. *)
Lemma handle_upload name e :
  quiet e ->
  quiet (handle e (PostUpload (Some name))) /\
  waiting (handle e (PostUpload (Some name))) = [] /\
  calls (handle e (PostUpload (Some name))) =
    calls e ++
    map (fun l => mk_call (wrap l) (callback l) name)
      (listeners "fileUploaded" e).
Proof.
  intros [Hping Hnd Hwait Hfired]. cbn [handle]. unfold emitFileUploaded.
  destruct (emit_delivered "fileUploaded" name e Hnd) as [D1 D2 D3 D4 D5].
  { intros l Hin. now apply Hwait. }
  split; [split|split].
  - rewrite D2 by discriminate. exact Hping.
  - rewrite D1. constructor.
  - rewrite D1. intros l [].
  - rewrite D4. intros id Hin. apply D3 in Hin as [Hin|Hin].
    + apply in_map_iff in Hin as (l & <- & Hin). now apply Hwait.
    + now apply Hfired.
  - unfold waiting. now rewrite D1.
  - exact D5.
Qed.

Lemma serve_quiet rs : forall e, quiet e -> quiet (serve rs e).
Proof.
  induction rs as [|r rs IH]; intros e He; cbn [serve fold_left]; trivial.
  apply IH. destruct r as [res|[name|]|res].
  - now apply handle_event.
  - now apply handle_upload.
  - exact He.
  - now apply handle_notify.
Qed.

(** The answers are those that the requests call for. *)
Lemma serve_answers rs :
  forall e, quiet e ->
            answers (serve rs e) = answers e ++ expected (waiting e) rs.
Proof.
  induction rs as [|r rs IH]; intros e He; cbn [serve fold_left expected].
  - now rewrite app_nil_r.
  - destruct r as [res|[name|]|res].
    + destruct (handle_event res e He) as (Hq & Hw & Hc).
      change (answers (serve rs (handle e (GetEvent res))) =
              answers e ++ (res, pong_message) :: expected (waiting e) rs).
      rewrite IH, Hw by trivial.
      rewrite (answers_app e _ _ Hc). cbn [map target arg].
      now rewrite <- app_assoc.
    + destruct (handle_upload name e He) as (Hq & Hw & Hc).
      change (answers (serve rs (handle e (PostUpload (Some name)))) =
              answers e ++
              map (fun res => (res, name)) (waiting e) ++ expected [] rs).
      rewrite IH, Hw by trivial.
      rewrite (answers_app e _ _ Hc). unfold waiting.
      rewrite !map_map. cbn [target arg]. now rewrite <- app_assoc.
    + change (answers (serve rs e) = answers e ++ expected (waiting e) rs).
      now apply IH.
    + destruct (handle_notify res e He) as (Hq & Hw & Hc).
      change (answers (serve rs (handle e (GetNotifyUpload res))) =
              answers e ++ expected (waiting e ++ [res]) rs).
      rewrite IH, Hw by trivial. unfold answers. now rewrite Hc.
Qed.

End EmitterMore.

(** * The properties of the specification *)

Module Claims.
Import Pipeline PipelineFacts.

(** ** The pipeline with manual back-pressure *)

Definition abcdefgh : jsstring := [97; 98; 99; 100; 101; 102; 103; 104].




(** C2: when the completion of an accepted chunk reports an error, the run
    ends with the promise rejected with that failure; what the run shows is
    the chunks offered before the failure, the failure and one call of
    [reject]: no chunk is offered afterwards and [resolve] is never
    called. *)
Theorem C2_consumer_failure_rejects (completion_fails : nat -> bool)
    (input : jsstring) (chunkSize : Z) (fuel k : nat) :
  1 <= chunkSize ->
  (k < List.length (chunks chunkSize input))%nat ->
  completion_fails k = true ->
  (forall i, (i < k)%nat -> completion_fails i = false) ->
  enough_fuel input fuel ->
  exists s offered,
    pipeline completion_fails fuel input (Some chunkSize) = Some s /\
    settled s = Some (Rejected (ConsumerFailure k)) /\
    trace s =
      map Offered offered ++ [Failed k; RejectCalled (ConsumerFailure k)].
Proof.
  intros Hc Hk Hfail Hok Hfuel.
  destruct (pipeline_rejects completion_fails input chunkSize fuel k
              Hc Hk Hfail Hok Hfuel) as (m & s & Hrun & Hset & Htr).
  exists s, (firstn m (queued input chunkSize)). auto.
Qed.

Lemma C2_consumer_failure_rejects_witness :
  exists s offered,
    pipeline (fun k => Nat.eqb k 1) 40 abcdefgh (Some 2) = Some s /\
    settled s = Some (Rejected (ConsumerFailure 1)) /\
    trace s =
      map Offered offered ++ [Failed 1; RejectCalled (ConsumerFailure 1)].
Proof.
  apply (C2_consumer_failure_rejects (fun k => Nat.eqb k 1) abcdefgh 2 40 1).
  - lia.
  - vm_compute. lia.
  - reflexivity.
  - intros i Hi. assert (i = 0%nat) by lia. now subst.
  - unfold enough_fuel. cbn. lia.
Defined.

(** An unspecified chunk size is the chunk size 2. *)
Lemma manualBackpressure_default fuel input :
  manualBackpressure fuel input None = manualBackpressure fuel input (Some 2).
Proof. reflexivity. Qed.

(** C3 (the code at the failing input): with a chunk size that is not
    positive and an input that is not empty, the loop of [read()] never
    ends: no amount of fuel gives a result. *)
Theorem C3_nonpositive_chunk_size_diverges (input : jsstring) (chunkSize : Z)
    (fuel : nat) :
  chunkSize <= 0 -> input <> [] ->
  manualBackpressure fuel input (Some chunkSize) = None.
Proof.
  intros Hc Hin. unfold manualBackpressure, pipeline, default_chunkSize.
  now rewrite run_diverges.
Qed.

Lemma C3_nonpositive_chunk_size_diverges_witness :
  manualBackpressure 1000 [97] (Some 0) = None.
Proof.
  apply (C3_nonpositive_chunk_size_diverges [97] 0 1000).
  - lia.
  - discriminate.
Defined.

(** C4: for the empty input the run resolves with the empty output and no
    pause, whatever the chunk size, and no chunk is offered. *)
Theorem C4_empty_input (chunkSize : option Z) (fuel : nat) :
  (6 <= fuel)%nat ->
  manualBackpressure fuel [] chunkSize = Some (Some (Resolved [] 0)) /\
  exists s,
    pipeline (fun _ => false) fuel [] chunkSize = Some s /\
    trace s = [ResolveCalled [] 0].
Proof.
  intros Hfuel. replace fuel with (6 + (fuel - 6))%nat by lia.
  destruct (run_empty (fun _ => false) [] (default_chunkSize chunkSize)
              (fuel - 6) eq_refl) as (s & Hrun & Hset & Htr).
  unfold manualBackpressure, pipeline. rewrite Hrun. cbn [option_map].
  rewrite Hset. split; [reflexivity|].
  exists s. split; [reflexivity | exact Htr].
Qed.

Lemma C4_empty_input_witness :
  manualBackpressure 6 [] (Some 2) = Some (Some (Resolved [] 0)) /\
  exists s,
    pipeline (fun _ => false) 6 [] (Some 2) = Some s /\
    trace s = [ResolveCalled [] 0].
Proof. apply (C4_empty_input (Some 2) 6). lia. Defined.

(** C5, as the specification states it, fails: ["ab"] is shorter than the
    high-water mark times the chunk size 2, and the run pauses once; the
    high-water mark counts bytes, and the first chunk already holds 2. *)
Lemma C5_short_input_pauses :
  Z.of_nat (List.length [97; 98]) < highWaterMark * 2 /\
  manualBackpressure 20 [97; 98] (Some 2) =
    Some (Some (Resolved [97; 98] 1)).
Proof. split; [reflexivity | vm_compute; reflexivity]. Qed.

(** C5 (amended): for every input whose UTF-8 form has fewer bytes than
    the high-water mark, the run resolves with no pause. *)
Theorem C5_no_pause_below_mark (input : jsstring) (chunkSize : Z)
    (fuel : nat) :
  1 <= chunkSize ->
  byte_length (Utf.utf8_encode input) < highWaterMark ->
  enough_fuel input fuel ->
  exists output,
    manualBackpressure fuel input (Some chunkSize) =
    Some (Some (Resolved output 0)).
Proof.
  intros Hc Hsmall Hfuel. exists (output_of chunkSize input).
  rewrite manualBackpressure_result by trivial.
  now rewrite pauses_of_small.
Qed.

Lemma C5_no_pause_below_mark_witness :
  exists output,
    manualBackpressure 20 [97] (Some 2) = Some (Some (Resolved output 0)).
Proof.
  apply (C5_no_pause_below_mark [97] 2 20).
  - lia.
  - reflexivity.
  - unfold enough_fuel. cbn. lia.
Defined.

(** C6, as the specification states it, fails: with the chunk size 1 the
    input ["éé"] of length 2 is paused twice, each character being 2
    bytes, and the longer input ["abc"] only once. *)
Lemma C6_longer_input_fewer_pauses :
  (List.length [0xE9; 0xE9] < List.length [97; 98; 99])%nat /\
  manualBackpressure 30 [0xE9; 0xE9] (Some 1) =
    Some (Some (Resolved [0xE9; 0xE9] 2)) /\
  manualBackpressure 30 [97; 98; 99] (Some 1) =
    Some (Some (Resolved [97; 98; 99] 1)).
Proof.
  split; [cbn; lia | split; vm_compute; reflexivity].
Qed.

(** C6 (amended): for a fixed chunk size, an input whose UTF-8 form has at
    least as many bytes as the high-water mark is paused at least once; and
    a longer input is never paused less often than a shorter one when the
    chunk size is at least 2, or when the shorter input is ASCII. *)
Theorem C6_pauses_grow (s1 s2 : jsstring) (chunkSize : Z) (fuel : nat) :
  1 <= chunkSize -> enough_fuel s1 fuel -> enough_fuel s2 fuel ->
  exists o1 p1 o2 p2,
    manualBackpressure fuel s1 (Some chunkSize) = Some (Some (Resolved o1 p1)) /\
    manualBackpressure fuel s2 (Some chunkSize) = Some (Some (Resolved o2 p2)) /\
    (highWaterMark <= byte_length (Utf.utf8_encode s1) -> (1 <= p1)%nat) /\
    (2 <= chunkSize \/ ascii s1 ->
     (List.length s1 < List.length s2)%nat -> (p1 <= p2)%nat).
Proof.
  intros Hc Hf1 Hf2.
  exists (output_of chunkSize s1), (pauses_of chunkSize s1),
         (output_of chunkSize s2), (pauses_of chunkSize s2).
  rewrite !manualBackpressure_result by trivial.
  repeat split.
  - now apply pauses_of_positive.
  - intros Hcase Hlt. now apply pauses_of_monotone.
Qed.

Lemma C6_pauses_grow_witness :
  exists o1 p1 o2 p2,
    manualBackpressure 40 [97; 98] (Some 2) = Some (Some (Resolved o1 p1)) /\
    manualBackpressure 40 abcdefgh (Some 2) = Some (Some (Resolved o2 p2)) /\
    (highWaterMark <= byte_length (Utf.utf8_encode [97; 98]) -> (1 <= p1)%nat) /\
    (2 <= 2 \/ ascii [97; 98] ->
     (List.length [97; 98] < List.length abcdefgh)%nat -> (p1 <= p2)%nat).
Proof.
  apply (C6_pauses_grow [97; 98] abcdefgh 2 40).
  - lia.
  - unfold enough_fuel. cbn. lia.
  - unfold enough_fuel. cbn. lia.
Defined.

(** C8: the input ["abcdefgh"] with the chunk size 2 and the high-water
    mark 2 resolves with the output ["abcdefgh"] and at least one pause
    (there are four). *)
Theorem C8_abcdefgh (fuel : nat) :
  (32 <= fuel)%nat ->
  highWaterMark = 2 /\
  exists pauses,
    manualBackpressure fuel abcdefgh (Some 2) =
      Some (Some (Resolved abcdefgh pauses)) /\
    (1 <= pauses)%nat.
Proof.
  intros Hfuel. split; [reflexivity|]. exists 4%nat.
  rewrite manualBackpressure_result; [| lia | unfold enough_fuel; cbn; lia].
  split; [|lia]. vm_compute. reflexivity.
Qed.

Lemma C8_abcdefgh_witness :
  highWaterMark = 2 /\
  exists pauses,
    manualBackpressure 32 abcdefgh (Some 2) =
      Some (Some (Resolved abcdefgh pauses)) /\
    (1 <= pauses)%nat.
Proof. apply (C8_abcdefgh 32). lia. Defined.

(** ** The upper-casing pipe *)

Section UpperCasing.
Import Utf UtfFacts Uppercase UppercaseFacts.

Definition node : jsstring := [110; 111; 100; 101].
Definition NODE : jsstring := [78; 79; 68; 69].

(** Whatever the table, as long as it leaves U+FFFD alone: an unpaired
    surrogate leaves the pipe as U+FFFD. *)
Lemma pipeToUppercase_unpaired (toUppercase : Z -> list Z) :
  toUppercase 0xFFFD = [0xFFFD] ->
  pipeToUppercase toUppercase [0xD800] = [0xFFFD].
Proof.
  intros H. rewrite pipeToUppercase_eq.
  change (utf8_decode (utf8_encode [0xD800])) with [0xFFFD].
  unfold toUpperCase. change (code_points [0xFFFD]) with [0xFFFD].
  cbn [flat_map]. rewrite H. reflexivity.
Qed.

(** C7, as the specification states it, fails: the string made of the
    unpaired surrogate U+D800 has no letter, so its upper-case mapping is
    the string itself, and the pipe gives U+FFFD. *)
Lemma C7_unpaired_surrogate :
  pipeToUppercase basic_latin [0xD800] = [0xFFFD] /\
  toUpperCase basic_latin [0xD800] = [0xD800].
Proof. split; reflexivity. Qed.

(** C7 (amended): with the upper-case table of Unicode, for every input
    that is well formed the pipe resolves with the character-wise
    upper-case mapping of the input; for every input, applying the pipe to
    its own output gives the same string; and ["node"] gives ["NODE"]. *)
Theorem C7_pipeToUppercase (toUppercase : Z -> list Z) (s : jsstring) :
  (forall cp, scalar cp -> Forall scalar (toUppercase cp)) ->
  (forall cp, scalar cp ->
              flat_map toUppercase (toUppercase cp) = toUppercase cp) ->
  (forall cp, 97 <= cp <= 122 -> toUppercase cp = [cp - 32]) ->
  valid_units s ->
  (well_formed s ->
   pipeToUppercase toUppercase s = toUpperCase toUppercase s) /\
  pipeToUppercase toUppercase (pipeToUppercase toUppercase s) =
    pipeToUppercase toUppercase s /\
  pipeToUppercase toUppercase node = NODE.
Proof.
  intros Hscalar Hstable Hlatin Hv. split; [|split].
  - intros Hw. rewrite pipeToUppercase_toWellFormed by trivial.
    now rewrite toWellFormed_id.
  - pose proof (pipeToUppercase_well_formed toUppercase Hscalar s Hv) as Hw.
    rewrite (pipeToUppercase_toWellFormed toUppercase Hscalar
               (pipeToUppercase toUppercase s)) by apply Hw.
    rewrite toWellFormed_id by trivial.
    rewrite (pipeToUppercase_toWellFormed toUppercase Hscalar s) by trivial.
    apply toUpperCase_idempotent; trivial.
    now apply toWellFormed_well_formed.
  - rewrite pipeToUppercase_toWellFormed;
      [|trivial | repeat constructor; lia].
    change (toWellFormed node) with node. unfold toUpperCase.
    change (code_points node) with [110; 111; 100; 101].
    cbn [flat_map]. rewrite !Hlatin by lia. reflexivity.
Qed.

Lemma C7_pipeToUppercase_witness :
  (well_formed node ->
   pipeToUppercase basic_latin node = toUpperCase basic_latin node) /\
  pipeToUppercase basic_latin (pipeToUppercase basic_latin node) =
    pipeToUppercase basic_latin node /\
  pipeToUppercase basic_latin node = NODE.
Proof.
  apply (C7_pipeToUppercase basic_latin node).
  - apply basic_latin_scalar.
  - apply basic_latin_stable.
  - intros cp Hcp. unfold basic_latin.
    destruct (Z.leb_spec 97 cp), (Z.leb_spec cp 122); cbn [andb];
      [reflexivity | lia | lia | lia].
  - repeat constructor; lia.
Defined.

End UpperCasing.

(** ** [bufferFromData] *)

Section Buffers.
Import Utf UtfFacts BufferFeature.

(** C10, as stated, fails: the unpaired surrogate U+D800 is encoded as the
    three bytes of U+FFFD, [77+9] in base64, and decoding gives U+FFFD. *)
Lemma C10_unpaired_surrogate_lost :
  base64 (bufferFromData [0xD800]) = [55; 55; 43; 57] /\
  utf8_decode (Base64.decode (base64 (bufferFromData [0xD800]))) = [0xFFFD].
Proof. split; reflexivity. Qed.

(** C10 (amended): for every string, [bufferFromData] returns the base64
    form of the UTF-8 bytes of the string and the number of those bytes,
    which is at least the number of code units and greater when a code
    unit is outside ASCII; decoding the base64 field and then the bytes
    gives the string with its unpaired surrogates replaced by U+FFFD, so
    the string itself when it is well formed.  The function is total: it
    does not throw. *)
Theorem C10_bufferFromData (data : jsstring) :
  valid_units data ->
  base64 (bufferFromData data) = Base64.encode (utf8_encode data) /\
  BufferFeature.length (bufferFromData data) =
    Z.of_nat (List.length (utf8_encode data)) /\
  Z.of_nat (List.length data) <= BufferFeature.length (bufferFromData data) /\
  (Exists (fun u => 0x80 <= u) data ->
   Z.of_nat (List.length data) < BufferFeature.length (bufferFromData data)) /\
  utf8_decode (Base64.decode (base64 (bufferFromData data))) =
    toWellFormed data /\
  (well_formed data ->
   utf8_decode (Base64.decode (base64 (bufferFromData data))) = data).
Proof.
  intros Hv. unfold bufferFromData. cbn [base64 BufferFeature.length].
  assert (Hrt : utf8_decode (Base64.decode (Base64.encode (utf8_encode data)))
                = toWellFormed data).
  { rewrite Base64Facts.decode_encode by now apply utf8_encode_bytes.
    now apply utf8_decode_encode. }
  repeat split; trivial.
  - pose proof (utf8_encode_length data). lia.
  - intros Hex. pose proof (utf8_encode_length_nonascii data Hv Hex). lia.
  - intros Hw. rewrite Hrt. now apply toWellFormed_id.
Qed.

Lemma C10_bufferFromData_witness :
  base64 (bufferFromData [0xE9]) = Base64.encode (utf8_encode [0xE9]) /\
  BufferFeature.length (bufferFromData [0xE9]) =
    Z.of_nat (List.length (utf8_encode [0xE9])) /\
  Z.of_nat (List.length [0xE9]) <= BufferFeature.length (bufferFromData [0xE9]) /\
  (Exists (fun u => 0x80 <= u) [0xE9] ->
   Z.of_nat (List.length [0xE9]) < BufferFeature.length (bufferFromData [0xE9])) /\
  utf8_decode (Base64.decode (base64 (bufferFromData [0xE9]))) =
    toWellFormed [0xE9] /\
  (well_formed [0xE9] ->
   utf8_decode (Base64.decode (base64 (bufferFromData [0xE9]))) = [0xE9]).
Proof.
  apply (C10_bufferFromData [0xE9]). repeat constructor; lia.
Defined.

End Buffers.

(** ** The one-shot listeners *)

Section Events.
Import Emitter EmitterFacts.

Definition pong : jsstring := [112; 111; 110; 103; 33].

(** C9: after [onPingOnce(callback)], whatever helpers are used next, the
    function registered is called exactly once if there is an [emitPing]
    among them: by the first one and with its message, and never again;
    it is not called as long as there is none.  The same holds of
    [onFileUploadedOnce] and [emitFileUploaded]. *)
Theorem C9_one_shot_listener (e : emitter) (cb : nat) (hs : list helper) :
  well_formed e ->
  calls_by (next_wrap e) (uses hs (onPingOnce cb e)) =
    match first_ping hs with
    | Some msg => [mk_call (next_wrap e) cb msg]
    | None => []
    end /\
  calls_by (next_wrap e) (uses hs (onFileUploadedOnce cb e)) =
    match first_upload hs with
    | Some filename => [mk_call (next_wrap e) cb filename]
    | None => []
    end.
Proof.
  intros Hwf. split.
  - apply ping_once. now apply registered.
  - apply upload_once. now apply registered.
Qed.

Lemma empty_emitter_well_formed : well_formed empty_emitter.
Proof.
  repeat split.
  - intros type l Hin. unfold listeners in Hin. cbn in Hin.
    rewrite lookup_empty in Hin. destruct Hin.
  - intros id Hin. cbn in Hin. set_solver.
  - intros c Hin. destruct Hin.
Qed.

Lemma C9_one_shot_listener_witness :
  calls_by 0 (uses [EmitFileUploaded [97]; EmitPing pong; EmitPing [98]]
                (onPingOnce 7 empty_emitter)) =
    [mk_call 0 7 pong] /\
  calls_by 0 (uses [EmitFileUploaded [97]; EmitPing pong; EmitPing [98]]
                (onFileUploadedOnce 7 empty_emitter)) =
    [mk_call 0 7 [97]].
Proof.
  apply (C9_one_shot_listener empty_emitter 7
           [EmitFileUploaded [97]; EmitPing pong; EmitPing [98]]).
  apply empty_emitter_well_formed.
Defined.

End Events.

End Claims.

(** * Further properties of the code *)

Module More.

(** ** [manualBackpressure] *)

Section Backpressure.
Import Utf UtfFacts Pipeline PipelineFacts PipelineMore.

(** X1: whatever the input and the chunk size (at least 1), the output of
    the run has as many code units as the input, and each of them is the
    code unit of the input at that place, or U+FFFD where the input has a
    surrogate. *)
Theorem X1_output_unit_by_unit (input : jsstring) (chunkSize : Z)
    (fuel : nat) :
  1 <= chunkSize -> valid_units input -> enough_fuel input fuel ->
  exists output pauses,
    manualBackpressure fuel input (Some chunkSize) =
      Some (Some (Resolved output pauses)) /\
    List.length output = List.length input /\
    Forall2 replaced input output.
Proof.
  intros Hc Hv Hfuel.
  exists (output_of chunkSize input), (pauses_of chunkSize input).
  pose proof (output_of_units chunkSize input Hc Hv) as Hunits.
  split; [now apply manualBackpressure_result|].
  split; [|exact Hunits].
  symmetry. exact (Forall2_length _ _ _ Hunits).
Qed.

Lemma X1_output_unit_by_unit_witness :
  exists output pauses,
    manualBackpressure 20 [97; 0xD83D; 0xDE00] (Some 2) =
      Some (Some (Resolved output pauses)) /\
    List.length output = List.length [97; 0xD83D; 0xDE00] /\
    Forall2 replaced [97; 0xD83D; 0xDE00] output.
Proof.
  apply (X1_output_unit_by_unit [97; 0xD83D; 0xDE00] 2 20).
  - lia.
  - repeat constructor; lia.
  - unfold enough_fuel. cbn. lia.
Defined.

(** X2: in a run whose consumer does not fail, what [read()] pushes is the
    input cut into slices of [chunkSize] code units (the last one may be
    shorter, none is empty, and there are [ceil(length / chunkSize)] of
    them); the consumer is offered every slice once, in order, as its
    UTF-8 bytes; then [resolve] is called, once, and [reject] never. *)
Theorem X2_every_chunk_offered_once (input : jsstring) (chunkSize : Z)
    (fuel : nat) :
  1 <= chunkSize -> enough_fuel input fuel ->
  exists s output pauses,
    pipeline (fun _ => false) fuel input (Some chunkSize) = Some s /\
    settled s = Some (Resolved output pauses) /\
    trace s =
      map Offered (map utf8_encode (chunks chunkSize input)) ++
      [ResolveCalled output pauses] /\
    concat (chunks chunkSize input) = input /\
    Forall (fun ch => 1 <= Z.of_nat (List.length ch) <= chunkSize)
      (chunks chunkSize input) /\
    Z.of_nat (List.length (chunks chunkSize input)) =
      (Z.of_nat (List.length input) + chunkSize - 1) / chunkSize.
Proof.
  intros Hc Hfuel.
  destruct (pipeline_resolves (fun _ => false) input chunkSize fuel Hc
              (fun _ => eq_refl) Hfuel) as (s & Hrun & Hset & Htr).
  exists s, (output_of chunkSize input), (pauses_of chunkSize input).
  repeat split; trivial.
  - unfold chunks. apply concat_chunks_of; lia.
  - unfold chunks.
    pose proof (chunks_of_nonempty (List.length input) (Z.to_nat chunkSize)
                  input ltac:(lia)) as Hne.
    pose proof (chunks_of_bound (List.length input) (Z.to_nat chunkSize)
                  input) as Hle.
    induction Hne as [|ch chs Hch _ IH]; [constructor|].
    inversion Hle; subst. constructor; [|now apply IH].
    destruct ch; [congruence|]. cbn [List.length] in *. lia.
  - now apply chunks_count.
Qed.

Lemma X2_every_chunk_offered_once_witness :
  exists s output pauses,
    pipeline (fun _ => false) 20 [97; 98; 99] (Some 2) = Some s /\
    settled s = Some (Resolved output pauses) /\
    trace s =
      map Offered (map utf8_encode (chunks 2 [97; 98; 99])) ++
      [ResolveCalled output pauses] /\
    concat (chunks 2 [97; 98; 99]) = [97; 98; 99] /\
    Forall (fun ch => 1 <= Z.of_nat (List.length ch) <= 2)
      (chunks 2 [97; 98; 99]) /\
    Z.of_nat (List.length (chunks 2 [97; 98; 99])) =
      (Z.of_nat (List.length [97; 98; 99]) + 2 - 1) / 2.
Proof.
  apply (X2_every_chunk_offered_once [97; 98; 99] 2 20).
  - lia.
  - unfold enough_fuel. cbn. lia.
Defined.

(** X3: the number of pauses is at most the number of chunks,
    [ceil(length / chunkSize)], and at least half of that number, less
    one half: two chunks in a row are never both accepted without a
    pause. *)
Theorem X3_pauses_between (input : jsstring) (chunkSize : Z) (fuel : nat) :
  1 <= chunkSize -> enough_fuel input fuel ->
  exists output pauses,
    manualBackpressure fuel input (Some chunkSize) =
      Some (Some (Resolved output pauses)) /\
    Z.of_nat pauses <=
      (Z.of_nat (List.length input) + chunkSize - 1) / chunkSize /\
    (Z.of_nat (List.length input) + chunkSize - 1) / chunkSize <=
      2 * Z.of_nat pauses + 1.
Proof.
  intros Hc Hfuel.
  exists (output_of chunkSize input), (pauses_of chunkSize input).
  split; [now apply manualBackpressure_result|].
  rewrite <- chunks_count by trivial.
  pose proof (pauses_of_le chunkSize input).
  pose proof (pauses_of_ge chunkSize input Hc). lia.
Qed.

Lemma X3_pauses_between_witness :
  exists output pauses,
    manualBackpressure 20 [97; 98; 99] (Some 1) =
      Some (Some (Resolved output pauses)) /\
    Z.of_nat pauses <= (Z.of_nat (List.length [97; 98; 99]) + 1 - 1) / 1 /\
    (Z.of_nat (List.length [97; 98; 99]) + 1 - 1) / 1 <=
      2 * Z.of_nat pauses + 1.
Proof.
  apply (X3_pauses_between [97; 98; 99] 1 20).
  - lia.
  - unfold enough_fuel. cbn. lia.
Defined.

(** X4: with a chunk size of at least 2, and unless the last chunk is a
    single code unit, every chunk fills the consumer to its high-water
    mark of 2 bytes: the run is paused once for each chunk,
    [ceil(length / chunkSize)] times. *)
Theorem X4_pause_for_every_chunk (input : jsstring) (chunkSize : Z)
    (fuel : nat) :
  2 <= chunkSize -> Z.of_nat (List.length input) mod chunkSize <> 1 ->
  enough_fuel input fuel ->
  exists output pauses,
    manualBackpressure fuel input (Some chunkSize) =
      Some (Some (Resolved output pauses)) /\
    Z.of_nat pauses =
      (Z.of_nat (List.length input) + chunkSize - 1) / chunkSize.
Proof.
  intros Hc Hmod Hfuel.
  exists (output_of chunkSize input), (pauses_of chunkSize input).
  split; [apply manualBackpressure_result; trivial; lia|].
  rewrite pauses_of_wide by trivial. apply chunks_count. lia.
Qed.

Lemma X4_pause_for_every_chunk_witness :
  exists output pauses,
    manualBackpressure 40 [97; 98; 99; 100; 101; 102; 103; 104] (Some 3) =
      Some (Some (Resolved output pauses)) /\
    Z.of_nat pauses =
      (Z.of_nat (List.length [97; 98; 99; 100; 101; 102; 103; 104]) + 3 - 1)
      / 3.
Proof.
  apply (X4_pause_for_every_chunk [97; 98; 99; 100; 101; 102; 103; 104] 3 40).
  - lia.
  - cbn [List.length]. change (Z.of_nat 8 mod 3) with 2. lia.
  - unfold enough_fuel. cbn. lia.
Defined.

(** X5: with the chunk size 1 and an input of ASCII characters, every
    second chunk fills the consumer: the run is paused
    [floor(length / 2)] times. *)
Theorem X5_ascii_one_by_one (input : jsstring) (fuel : nat) :
  ascii input -> enough_fuel input fuel ->
  exists output,
    manualBackpressure fuel input (Some 1) =
      Some (Some (Resolved output (Nat.div2 (List.length input)))).
Proof.
  intros Ha Hfuel. exists (output_of 1 input).
  rewrite manualBackpressure_result by (trivial; lia).
  now rewrite pauses_of_ascii.
Qed.

Lemma X5_ascii_one_by_one_witness :
  exists output,
    manualBackpressure 20 [97; 98; 99] (Some 1) =
      Some (Some (Resolved output (Nat.div2 (List.length [97; 98; 99])))).
Proof.
  apply (X5_ascii_one_by_one [97; 98; 99] 20).
  - repeat constructor; lia.
  - unfold enough_fuel. cbn. lia.
Defined.

End Backpressure.

(** ** The upper-casing pipes *)

Section Pipes.
Import Utf UtfFacts Uppercase UppercaseFacts Streams StreamFacts.

(** X6: the pipe of [pipeToUppercase] and [streamExample] on several
    chunks.  When every chunk is well formed, the result is what the
    concatenation of the chunks gives as a single chunk, the upper-case
    mapping of the whole text: where the text is cut does not show. *)
Theorem X6_chunks_do_not_show (toUppercase : Z -> list Z)
    (values : list jsstring) :
  (forall cp, scalar cp -> Forall scalar (toUppercase cp)) ->
  Forall well_formed values ->
  collect (transform toUppercase (readable_from values)) =
    pipeToUppercase toUppercase (concat values) /\
  collect (transform toUppercase (readable_from values)) =
    toUpperCase toUppercase (concat values).
Proof.
  intros Hscalar Hw. rewrite (pipe_concat toUppercase Hscalar values Hw).
  split; [reflexivity|].
  pose proof (well_formed_concat values Hw) as Hc.
  rewrite (pipeToUppercase_toWellFormed toUppercase Hscalar) by apply Hc.
  now rewrite toWellFormed_id.
Qed.

Lemma X6_chunks_do_not_show_witness :
  collect (transform basic_latin (readable_from [[110; 111]; [100; 101]])) =
    pipeToUppercase basic_latin (concat [[110; 111]; [100; 101]]) /\
  collect (transform basic_latin (readable_from [[110; 111]; [100; 101]])) =
    toUpperCase basic_latin (concat [[110; 111]; [100; 101]]).
Proof.
  apply (X6_chunks_do_not_show basic_latin [[110; 111]; [100; 101]]).
  - apply basic_latin_scalar.
  - repeat constructor; first [reflexivity | lia].
Defined.

Definition NodeJS_Streams : jsstring :=
  [78; 111; 100; 101; 74; 83; 32; 83; 116; 114; 101; 97; 109; 115].

Definition NODEJS_STREAMS : jsstring :=
  [78; 79; 68; 69; 74; 83; 32; 83; 84; 82; 69; 65; 77; 83].

Lemma values_well_formed : Forall well_formed values.
Proof.
  unfold values. repeat constructor; first [reflexivity | lia].
Qed.

(** X7: with the upper-case table of Unicode, which maps [a] to [z] to
    [A] to [Z] and leaves the other characters of ASCII alone,
    [streamExample()] resolves with ["NODEJS STREAMS"], which is what
    [pipeToUppercase("NodeJS Streams")] resolves with. *)
Theorem X7_streamExample (toUppercase : Z -> list Z) :
  (forall cp, scalar cp -> Forall scalar (toUppercase cp)) ->
  (forall cp, 97 <= cp <= 122 -> toUppercase cp = [cp - 32]) ->
  (forall cp, 0 <= cp < 97 -> toUppercase cp = [cp]) ->
  streamExample toUppercase = NODEJS_STREAMS /\
  streamExample toUppercase = pipeToUppercase toUppercase NodeJS_Streams.
Proof.
  intros Hscalar Hlower Hother.
  assert (streamExample toUppercase =
          pipeToUppercase toUppercase NodeJS_Streams) as Hpipe.
  { unfold streamExample.
    now rewrite (pipe_concat toUppercase Hscalar values values_well_formed). }
  split; [|exact Hpipe].
  rewrite Hpipe.
  rewrite (pipeToUppercase_toWellFormed toUppercase Hscalar)
    by (repeat constructor; lia).
  change (toWellFormed NodeJS_Streams) with NodeJS_Streams.
  unfold toUpperCase.
  change (code_points NodeJS_Streams) with NodeJS_Streams.
  unfold NodeJS_Streams. cbn [flat_map].
  repeat match goal with
    | |- context [toUppercase ?c] =>
        first [rewrite (Hlower c) by lia | rewrite (Hother c) by lia]
    end.
  reflexivity.
Qed.

Lemma X7_streamExample_witness :
  streamExample basic_latin = NODEJS_STREAMS /\
  streamExample basic_latin = pipeToUppercase basic_latin NodeJS_Streams.
Proof.
  apply (X7_streamExample basic_latin).
  - apply basic_latin_scalar.
  - intros cp Hcp. unfold basic_latin.
    destruct (Z.leb_spec 97 cp), (Z.leb_spec cp 122); cbn [andb];
      [reflexivity | lia | lia | lia].
  - intros cp Hcp. unfold basic_latin.
    destruct (Z.leb_spec 97 cp); cbn [andb]; [lia | reflexivity].
Defined.

(** X8: whatever the input, the string that [pipeToUppercase] resolves
    with has no unpaired surrogate. *)
Theorem X8_pipeToUppercase_well_formed (toUppercase : Z -> list Z)
    (input : jsstring) :
  (forall cp, scalar cp -> Forall scalar (toUppercase cp)) ->
  valid_units input ->
  well_formed (pipeToUppercase toUppercase input).
Proof.
  intros Hscalar Hv.
  rewrite (pipeToUppercase_toWellFormed toUppercase Hscalar) by trivial.
  apply (toUpperCase_well_formed toUppercase Hscalar).
  now apply toWellFormed_well_formed.
Qed.

Lemma X8_pipeToUppercase_well_formed_witness :
  well_formed (pipeToUppercase basic_latin [0xD800; 97]).
Proof.
  apply (X8_pipeToUppercase_well_formed basic_latin [0xD800; 97]).
  - apply basic_latin_scalar.
  - repeat constructor; lia.
Defined.

End Pipes.

(** ** [buffer.ts] *)

Section Buffers.
Import Utf UtfFacts BufferFeature BufferText BufferFacts.

(** X9: [bufferExample()] returns ['Hello Buffer!']: the text is well
    formed, so writing it as UTF-8 and reading it back loses nothing. *)
Theorem X9_bufferExample : bufferExample = hello_buffer.
Proof.
  unfold bufferExample. apply utf8_roundtrip.
  split; [repeat constructor; lia | reflexivity].
Qed.

(** X10: the [base64] field of what [bufferFromData] returns has four
    characters for every three bytes of the buffer, the last group
    filled up: [4 * ceil(length / 3)] characters, each of them a letter, a
    digit, [+], [/] or the padding [=]. *)
Theorem X10_base64_shape (data : jsstring) :
  valid_units data ->
  Z.of_nat (List.length (base64 (bufferFromData data))) =
    4 * ((BufferFeature.length (bufferFromData data) + 2) / 3) /\
  Forall (fun c => standard c \/ c = Base64.pad)
    (base64 (bufferFromData data)).
Proof.
  intros Hv. unfold bufferFromData. cbn [base64 BufferFeature.length].
  split; [apply encode_length|].
  apply encode_standard. now apply utf8_encode_bytes.
Qed.

Lemma X10_base64_shape_witness :
  Z.of_nat (List.length (base64 (bufferFromData [0xE9]))) =
    4 * ((BufferFeature.length (bufferFromData [0xE9]) + 2) / 3) /\
  Forall (fun c => standard c \/ c = Base64.pad)
    (base64 (bufferFromData [0xE9])).
Proof.
  apply (X10_base64_shape [0xE9]). repeat constructor; lia.
Defined.

(** X11: the [length] field is at most three times the number of code
    units of the string, and exactly that number when the string is
    ASCII, in which case the bytes of the buffer are the code units. *)
Theorem X11_length_bounds (data : jsstring) :
  valid_units data ->
  BufferFeature.length (bufferFromData data) <=
    3 * Z.of_nat (List.length data) /\
  (Forall (fun u => 0 <= u < 0x80) data ->
   BufferFeature.length (bufferFromData data) = Z.of_nat (List.length data) /\
   base64 (bufferFromData data) = Base64.encode data).
Proof.
  intros Hv. unfold bufferFromData. cbn [base64 BufferFeature.length].
  split.
  - pose proof (utf8_encode_length_upper data Hv). lia.
  - intros Ha. now rewrite utf8_encode_ascii.
Qed.

Lemma X11_length_bounds_witness :
  BufferFeature.length (bufferFromData [97; 98]) <=
    3 * Z.of_nat (List.length [97; 98]) /\
  (Forall (fun u => 0 <= u < 0x80) [97; 98] ->
   BufferFeature.length (bufferFromData [97; 98]) =
     Z.of_nat (List.length [97; 98]) /\
   base64 (bufferFromData [97; 98]) = Base64.encode [97; 98]).
Proof.
  apply (X11_length_bounds [97; 98]). repeat constructor; lia.
Defined.

(** X12: two well-formed strings with the same [base64] field are the
    same string. *)
Theorem X12_base64_injective (a b : jsstring) :
  well_formed a -> well_formed b ->
  base64 (bufferFromData a) = base64 (bufferFromData b) -> a = b.
Proof.
  intros Ha Hb. unfold bufferFromData. cbn [base64]. intros H.
  apply (f_equal Base64.decode) in H.
  rewrite !Base64Facts.decode_encode in H
    by (apply utf8_encode_bytes; first [apply Ha | apply Hb]).
  apply (f_equal utf8_decode) in H.
  now rewrite !utf8_roundtrip in H.
Qed.

Lemma X12_base64_injective_witness :
  base64 (bufferFromData [0xE9; 97]) = base64 (bufferFromData [0xE9; 97]) /\
  [0xE9; 97] = [0xE9; 97].
Proof.
  split; [reflexivity|].
  apply (X12_base64_injective [0xE9; 97] [0xE9; 97]);
    [split; [repeat constructor; lia | reflexivity]
    |split; [repeat constructor; lia | reflexivity]
    |reflexivity].
Defined.

End Buffers.

(** ** [eventEmitter.ts] and the routes of [index.ts] *)

Section Events.
Import Emitter EmitterFacts Routes EmitterMore.

(** X13: when the listeners of an event are distinct wrappers of [once]
    that have not fired, one [emit] calls the function of each of them,
    in the order they were registered and with the argument of the
    [emit]; afterwards the event has no listener, and the listeners of
    the other events are those of before. *)
Theorem X13_emit_reaches_all (type : string) (a : jsstring) (e : emitter) :
  List.NoDup (map wrap (listeners type e)) ->
  (forall l, In l (listeners type e) -> wrap l ∉ fired e) ->
  calls (emit type a e) =
    calls e ++
    map (fun l => mk_call (wrap l) (callback l) a) (listeners type e) /\
  listeners type (emit type a e) = [] /\
  (forall type', type' <> type ->
                 listeners type' (emit type a e) = listeners type' e).
Proof.
  intros Hnd Hfresh.
  destruct (emit_delivered type a e Hnd Hfresh) as [D1 D2 _ _ D5].
  auto.
Qed.

Definition two_waiting : emitter :=
  onFileUploadedOnce 8 (onFileUploadedOnce 7 empty_emitter).

Lemma two_waiting_quiet : quiet two_waiting.
Proof.
  apply (serve_quiet [GetNotifyUpload 7; GetNotifyUpload 8]).
  apply empty_emitter_quiet.
Qed.

Lemma X13_emit_reaches_all_witness :
  calls (emit "fileUploaded" [97] two_waiting) =
    calls two_waiting ++
    map (fun l => mk_call (wrap l) (callback l) [97])
      (listeners "fileUploaded" two_waiting) /\
  listeners "fileUploaded" (emit "fileUploaded" [97] two_waiting) = [] /\
  (forall type', type' <> "fileUploaded" ->
                 listeners type' (emit "fileUploaded" [97] two_waiting) =
                 listeners type' two_waiting).
Proof.
  apply (X13_emit_reaches_all "fileUploaded" [97] two_waiting).
  - apply two_waiting_quiet.
  - intros l Hin. now apply two_waiting_quiet.
Defined.

(** X14: what the three routes send through the emitter, for any
    sequence of requests to a server that has just started:
    [GET /event] answers its own request with ['pong!'];
    [GET /notify-upload] is answered by the next upload, with the name of
    its file, together with the other requests that wait and in the order
    they came; an upload that nobody waits for, or a request without a
    file, sends nothing. *)
Theorem X14_routes_answers (rs : list request) :
  answers (serve rs empty_emitter) = expected [] rs.
Proof.
  rewrite serve_answers by apply empty_emitter_quiet. reflexivity.
Qed.

(** X15: whatever requests came before, [GET /event] sends exactly one
    answer, ['pong!'] on its own response, and leaves no listener of
    ['ping'] behind. *)
Theorem X15_event_answers_itself (rs : list request) (res : nat) :
  answers (serve (rs ++ [GetEvent res]) empty_emitter) =
    answers (serve rs empty_emitter) ++ [(res, pong_message)] /\
  listeners "ping" (serve (rs ++ [GetEvent res]) empty_emitter) = [].
Proof.
  unfold serve. rewrite fold_left_app. cbn [fold_left].
  fold (serve rs empty_emitter).
  pose proof (serve_quiet rs empty_emitter empty_emitter_quiet) as Hq.
  destruct (handle_event res _ Hq) as (Hq' & _ & Hc).
  split; [|apply Hq'].
  now rewrite (answers_app _ _ _ Hc).
Qed.

(** X16: in every state that uses of the four helpers lead to from a new
    emitter, the listeners are distinct wrappers, none of them has fired,
    and the identities in use are below the next one: every [emit] finds
    the listeners as X13 wants them, and C9 holds of every listener
    registered from there. *)
Theorem X16_helpers_keep_tidy (hs : list helper) (type : string) :
  well_formed (uses hs empty_emitter) /\
  List.NoDup (map wrap (listeners type (uses hs empty_emitter))) /\
  (forall l, In l (listeners type (uses hs empty_emitter)) ->
             wrap l ∉ fired (uses hs empty_emitter)).
Proof.
  destruct (uses_tidy hs empty_emitter empty_emitter_tidy)
    as [Hw Hnd _ Hfresh].
  split; [exact Hw|]. split; [apply Hnd | apply Hfresh].
Qed.

End Events.

(** ** [workerTask.js] *)

Section Worker.
Import WorkerTask WorkerFacts.

(** X17: for an integer [n] from 0 to 18 and a stack of at least [n]
    frames, [compute(n)] returns the factorial of [n], a number below
    [2^53]: the doubles of JavaScript hold it, and every product on the
    way, exactly. *)
Theorem X17_compute_factorial (depth : nat) (n : Z) :
  0 <= n <= 18 -> Z.max n 1 <= Z.of_nat depth ->
  exists r,
    compute depth n = Some r /\
    r = Z.of_nat (fact (Z.to_nat n)) /\
    1 <= r < 2 ^ 53.
Proof.
  intros Hn Hd.
  destruct (compute_safe depth n Hn Hd) as (r & Hr & Hlt).
  exists r. split; [exact Hr|].
  pose proof (compute_positive depth n r Hr).
  rewrite compute_fact in Hr by lia. injection Hr as <-.
  split; [reflexivity | lia].
Qed.

Lemma X17_compute_factorial_witness :
  exists r,
    compute 5 5 = Some r /\
    r = Z.of_nat (fact (Z.to_nat 5)) /\
    1 <= r < 2 ^ 53.
Proof. apply (X17_compute_factorial 5 5); lia. Defined.

(** X18: for an integer [n] of at most 18, negative numbers too, where
    the arithmetic of the code is exact: [compute(n)] takes [max(n, 1)]
    frames of the stack, and ends with the [RangeError] of the engine
    exactly when fewer are left; for [n] of at most 1 it returns 1 in a
    single call; and what it returns is at least 1 and below [2^53]. *)
Theorem X18_compute_stack (depth : nat) (n : Z) :
  n <= 18 ->
  (compute depth n = None <-> Z.of_nat depth < Z.max n 1) /\
  (n <= 1 -> compute (S depth) n = Some 1) /\
  (forall r, compute depth n = Some r -> 1 <= r < 2 ^ 53).
Proof.
  intros Hn. split; [apply compute_none|]. split; [apply compute_small|].
  intros r Hr. now apply (compute_exact depth n).
Qed.

Lemma X18_compute_stack_witness :
  (compute 2 3 = None <-> Z.of_nat 2 < Z.max 3 1) /\
  (3 <= 1 -> compute (S 2) 3 = Some 1) /\
  (forall r, compute 2 3 = Some r -> 1 <= r < 2 ^ 53).
Proof. apply (X18_compute_stack 2 3). lia. Defined.

End Worker.

(** ** The route of the pipeline *)

Section Route.
Import Pipeline PipelineFacts FuelFacts Api.

(** X19: on any body, and however long the handler is given,
    [POST /pipe/backpressure] never answers with status 500: the promise
    of [manualBackpressure] is never rejected.  It answers with status 400
    exactly when the text is missing or empty. *)
Theorem X19_route_never_fails (fuel : nat) (text : option jsstring)
    (chunkSize : option Z) :
  (forall e, post_pipe_backpressure fuel text chunkSize <>
             Some (ServerError e)) /\
  (post_pipe_backpressure fuel text chunkSize = Some MissingText <->
   text = None \/ text = Some []).
Proof.
  destruct text as [[|u rest]|].
  - split; [discriminate|]. split; auto.
  - assert (forall o,
               manualBackpressure fuel (u :: rest) chunkSize = Some o ->
               exists output pauses, o = Some (Resolved output pauses))
      as Hres.
    { intros o Ho.
      destruct (Z_le_gt_dec 1 (default_chunkSize chunkSize)) as [Hc|Hc].
      - change (manualBackpressure fuel (u :: rest)
                  (Some (default_chunkSize chunkSize)) = Some o) in Ho.
        apply manualBackpressure_any_fuel in Ho; trivial. eauto.
      - change (option_map settled
                  (run (fun _ => false) (u :: rest)
                     (default_chunkSize chunkSize) fuel start) = Some o)
          in Ho.
        rewrite run_diverges in Ho; [discriminate | lia | discriminate]. }
    unfold post_pipe_backpressure.
    destruct (manualBackpressure fuel (u :: rest) chunkSize) as [o|].
    + destruct (Hres o eq_refl) as (output & pauses & ->).
      split; [discriminate|]. split; [discriminate|].
      intros [H|H]; discriminate.
    + split; [discriminate|]. split; [discriminate|].
      intros [H|H]; discriminate.
  - split; [discriminate|]. split; auto.
Qed.

(** X20: with a text that is not empty and a chunk size that is missing
    or at least 1, [POST /pipe/backpressure] answers with status 200 and
    what [manualBackpressure] resolves with. *)
Theorem X20_route_answers (fuel : nat) (input : jsstring)
    (chunkSize : option Z) :
  input <> [] -> 1 <= default_chunkSize chunkSize ->
  enough_fuel input fuel ->
  exists output pauses,
    manualBackpressure fuel input chunkSize =
      Some (Some (Resolved output pauses)) /\
    post_pipe_backpressure fuel (Some input) chunkSize =
      Some (Result output pauses).
Proof.
  intros Hne Hc Hfuel.
  exists (output_of (default_chunkSize chunkSize) input),
         (pauses_of (default_chunkSize chunkSize) input).
  assert (manualBackpressure fuel input chunkSize =
          Some (Some (Resolved (output_of (default_chunkSize chunkSize) input)
                        (pauses_of (default_chunkSize chunkSize) input))))
    as Hrun.
  { change (manualBackpressure fuel input chunkSize)
      with (manualBackpressure fuel input
              (Some (default_chunkSize chunkSize))).
    now apply manualBackpressure_result. }
  split; [exact Hrun|].
  unfold post_pipe_backpressure. destruct input; [congruence|].
  now rewrite Hrun.
Qed.

Lemma X20_route_answers_witness :
  exists output pauses,
    manualBackpressure 20 [97; 98; 99] None =
      Some (Some (Resolved output pauses)) /\
    post_pipe_backpressure 20 (Some [97; 98; 99]) None =
      Some (Result output pauses).
Proof.
  apply (X20_route_answers 20 [97; 98; 99] None).
  - discriminate.
  - cbn [default_chunkSize]. lia.
  - unfold enough_fuel. cbn. lia.
Defined.

(** X21: the chunk size of the body reaches [manualBackpressure] as it
    is: with a text that is not empty and a chunk size that is not
    positive, the handler never answers, however long it is given. *)
Theorem X21_route_hangs (fuel : nat) (input : jsstring) (chunkSize : Z) :
  input <> [] -> chunkSize <= 0 ->
  post_pipe_backpressure fuel (Some input) (Some chunkSize) = None.
Proof.
  intros Hne Hc. unfold post_pipe_backpressure.
  destruct input as [|u rest]; [congruence|].
  unfold manualBackpressure, pipeline. cbn [default_chunkSize].
  now rewrite run_diverges.
Qed.

Lemma X21_route_hangs_witness :
  post_pipe_backpressure 1000 (Some [97]) (Some 0) = None.
Proof.
  apply (X21_route_hangs 1000 [97] 0); [discriminate | lia].
Defined.

End Route.

(** ** [childProcessExample.ts] *)

Section Children.
Import ChildProcess ChildFacts.

(** X22: the promise of [forkNodeScript] is settled by the first event
    that is a message, an error or an exit with a code other than 0, and
    by nothing after it: a message that comes first is what the promise
    resolves with, whatever the exit that [child.kill()] brings about;
    and a child that only ever exits with the code 0 leaves the promise
    pending. *)
Theorem X22_fork_first_event (events : list fork_event) :
  fork_promise (forkNodeScript events) = first_settling events /\
  (forall msg,
      fork_promise (forkNodeScript (Message msg :: events)) =
      Some (Answered msg)) /\
  (Forall (fun ev => ev = Exit (Some 0)) events ->
   fork_promise (forkNodeScript events) = None).
Proof.
  split; [|split].
  - now apply fork_pending.
  - intros msg. unfold forkNodeScript. now rewrite fork_pending.
  - intros Hall. unfold forkNodeScript. rewrite fork_pending by reflexivity.
    induction Hall as [|ev evs -> _ IH]; [reflexivity | exact IH].
Qed.

(** X23: when the child of [spawnNodeScript] closes without an error
    before, the promise resolves with what the child wrote until then on
    its standard output and its standard error, chunk by chunk in the
    order the chunks came; when an error comes first, the promise is
    rejected with it.  What comes afterwards changes nothing. *)
Theorem X23_spawn_output (before after : list spawn_event) :
  Forall (fun ev => ev <> Close /\ forall err, ev <> SpawnError err) before ->
  spawn_promise (spawnNodeScript (before ++ Close :: after)) =
    Some (Output (flat_map Utf.utf8_decode (flat_map data_of before))) /\
  (forall err,
      spawn_promise (spawnNodeScript (before ++ SpawnError err :: after)) =
      Some (SpawnFailed err)).
Proof.
  intros Hdata. unfold spawnNodeScript.
  split; [|intros err]; rewrite fold_left_app, (spawn_data _ _ Hdata);
    cbn [fold_left]; apply spawn_settled; cbn [on_spawn_event spawn_promise
                                               output settle app];
    now rewrite ?app_nil_l.
Qed.

Lemma X23_spawn_output_witness :
  spawn_promise
    (spawnNodeScript ([Stdout [104; 105]; Stderr [33]] ++ Close :: [])) =
    Some (Output (flat_map Utf.utf8_decode
                    (flat_map data_of [Stdout [104; 105]; Stderr [33]]))) /\
  (forall err,
      spawn_promise
        (spawnNodeScript
           ([Stdout [104; 105]; Stderr [33]] ++ SpawnError err :: [])) =
      Some (SpawnFailed err)).
Proof.
  apply (X23_spawn_output [Stdout [104; 105]; Stderr [33]] []).
  repeat constructor; discriminate.
Defined.

End Children.

End More.
